(** * RangeRite ADC two-point calibration sketch: model and verification

    Shallow embedding of [RangeRite_ADC_TwoPointCal_Example.ino]: the
    ADS868x/ADS869x code-to-volts transfer function, the SPI sample
    acquisition, the averaging read and the two-point calibration fit
    performed in [setup()].

    The sketch computes in C [float].  The arithmetic is therefore taken
    through an interface, [FloatArith], with two instances:
    - [binary32]: IEEE-754 binary32 with round-to-nearest-even, built on
      the executable [SpecFloat] operations at precision 24 and [emax = 128].
      This is what the compiled sketch does;
    - [exact]: exact rational arithmetic on [Qc], used to separate what
      the formulas say from what rounding does to them. *)

From Stdlib Require Import ZArith List Bool String Lia.
From Stdlib Require Import QArith Qabs Qpower Qcanon Qround Lqa.
From Stdlib Require Import Floats.SpecFloat.
Import ListNotations.
Local Open Scope Z_scope.

(** ** The arithmetic of C [float] as the sketch uses it *)

Class FloatArith (F : Type) : Type := {
  f_add : F -> F -> F;
  f_sub : F -> F -> F;
  f_mul : F -> F -> F;
  f_div : F -> F -> F;
  f_neg : F -> F;
  (** [a > b] and [a != b] *)
  f_gt : F -> F -> bool;
  f_ne : F -> F -> bool;
  (** [(float)u] for an unsigned integer [u] *)
  f_of_uint : Z -> F;
  (** [(uint32_t)x]: truncation toward zero *)
  f_to_uint32 : F -> Z;
  (** the literal [m / 10^k] written with the suffix [f] *)
  f_dec : Z -> nat -> F
}.

(** *** IEEE-754 binary32 *)

Module B32.

Definition prec : Z := 24.
Definition emax : Z := 128.

Definition add : spec_float -> spec_float -> spec_float := SFadd prec emax.
Definition sub : spec_float -> spec_float -> spec_float := SFsub prec emax.
Definition mul : spec_float -> spec_float -> spec_float := SFmul prec emax.
Definition div : spec_float -> spec_float -> spec_float := SFdiv prec emax.
Definition neg : spec_float -> spec_float := SFopp.

Definition gt (a b : spec_float) : bool := SFltb b a.
Definition ne (a b : spec_float) : bool := negb (SFeqb a b).

(** Integer to float conversion rounds to nearest even. *)
Definition of_Z (z : Z) : spec_float := binary_normalize prec emax z 0 false.

(** Float to [uint32_t] conversion discards the fraction.  C leaves the
    conversion undefined when the truncated value does not fit the target
    (NaN, infinities, values of 2^32 and more, values of -1 and less);
    the model returns 0 there.  Values in (-1, 0) truncate to 0. *)
Definition to_uint32 (x : spec_float) : Z :=
  match x with
  | S754_finite false m e =>
      let v := if 0 <=? e then Z.shiftl (Zpos m) e
               else Z.shiftr (Zpos m) (- e) in
      if v <? 2 ^ 32 then v else 0
  | _ => 0
  end.

(** A decimal literal is the correctly rounded quotient [m / 10^k]; both
    operands are exact in binary32 for the literals of the sketch
    ([|m| < 2^24], [k <= 10]), so one rounded division gives it. *)
Definition dec (m : Z) (k : nat) : spec_float :=
  div (of_Z m) (of_Z (10 ^ Z.of_nat k)).

(** The rational number a float stands for (0 for the non-finite ones). *)
Definition to_Q (x : spec_float) : Q :=
  match x with
  | S754_finite s m e =>
      (inject_Z (if s then Zneg m else Zpos m) * Qpower 2 e)%Q
  | _ => 0%Q
  end.

Definition is_finite (x : spec_float) : bool :=
  match x with
  | S754_finite _ _ _ | S754_zero _ => true
  | _ => false
  end.

End B32.

#[global] Instance binary32 : FloatArith spec_float := {
  f_add := B32.add; f_sub := B32.sub; f_mul := B32.mul; f_div := B32.div;
  f_neg := B32.neg;
  f_gt := B32.gt; f_ne := B32.ne;
  f_of_uint := B32.of_Z; f_to_uint32 := B32.to_uint32; f_dec := B32.dec
}.

(** *** Exact rational arithmetic *)

Module Exact.

Definition gt (a b : Qc) : bool :=
  match (a ?= b)%Qc with Gt => true | _ => false end.
Definition ne (a b : Qc) : bool := negb (Qeq_bool a b).

Definition of_Z (z : Z) : Qc := Q2Qc (inject_Z z).

(** Truncation; 0 outside the range of [uint32_t], as for binary32. *)
Definition to_uint32 (x : Qc) : Z :=
  let v := Qfloor x in
  if (0 <=? v) && (v <? 2 ^ 32) then v else 0.

Definition dec (m : Z) (k : nat) : Qc :=
  (of_Z m / of_Z (10 ^ Z.of_nat k))%Qc.

End Exact.

#[global] Instance exact : FloatArith Qc := {
  f_add := Qcplus; f_sub := Qcminus; f_mul := Qcmult; f_div := Qcdiv;
  f_neg := Qcopp;
  f_gt := Exact.gt; f_ne := Exact.ne;
  f_of_uint := Exact.of_Z; f_to_uint32 := Exact.to_uint32;
  f_dec := Exact.dec
}.

(** ** Compile-time configuration

    The [#define]s and [static const] settings a user of the sketch edits
    before building.  [init_range_code] and [init_num_averages] are the
    initialisers of [g_range_code] and [g_num_averages]. *)

Record Config (F : Type) : Type := {
  ADSX_BITS : Z;
  ADSX_ENABLE_TWO_POINT_CAL : bool;
  PIN_CS : Z;
  PIN_RST : Z;
  ADSX_CAL_RANGE_CODE : Z;
  ADSX_CAL_P1_ACTUAL : F;
  ADSX_CAL_P1_MEASURED : F;
  ADSX_CAL_P2_ACTUAL : F;
  ADSX_CAL_P2_MEASURED : F;
  init_range_code : Z;
  init_num_averages : Z
}.

Arguments ADSX_BITS {F} _.
Arguments ADSX_ENABLE_TWO_POINT_CAL {F} _.
Arguments PIN_CS {F} _.
Arguments PIN_RST {F} _.
Arguments ADSX_CAL_RANGE_CODE {F} _.
Arguments ADSX_CAL_P1_ACTUAL {F} _.
Arguments ADSX_CAL_P1_MEASURED {F} _.
Arguments ADSX_CAL_P2_ACTUAL {F} _.
Arguments ADSX_CAL_P2_MEASURED {F} _.
Arguments init_range_code {F} _.
Arguments init_num_averages {F} _.

(** [#error "ADSX_BITS must be 16 or 18"] *)
Definition bits_ok (bits : Z) : Prop := bits = 16 \/ bits = 18.

Definition ADSX_TCONV_US : Z := 12.

Definition ADSX_CODE_SHIFT (bits : Z) : Z := if bits =? 18 then 14 else 16.
Definition ADSX_CODE_MASK (bits : Z) : Z :=
  if bits =? 18 then 0x3FFFF else 0xFFFF.

Definition ADSX_REG_RANGE_SEL : Z := 0x14.
Definition ADSX_INTREF_ENABLE : Z := 0x0000.
Definition ADSX_INTREF_DISABLE : Z := 0x0040.

Definition ADSX_RANGE_BIPOLAR_3X : Z := 0x0.
Definition ADSX_RANGE_BIPOLAR_2P5X : Z := 0x1.
Definition ADSX_RANGE_BIPOLAR_1P5X : Z := 0x2.
Definition ADSX_RANGE_BIPOLAR_1P25X : Z := 0x3.
Definition ADSX_RANGE_BIPOLAR_0P625X : Z := 0x4.
Definition ADSX_RANGE_UNIPOLAR_3X : Z := 0x8.
Definition ADSX_RANGE_UNIPOLAR_2P5X : Z := 0x9.
Definition ADSX_RANGE_UNIPOLAR_1P5X : Z := 0xA.
Definition ADSX_RANGE_UNIPOLAR_1P25X : Z := 0xB.

(** ** Input and output

    Everything the sketch does to the outside is recorded, newest first. *)

Inductive Event (F : Type) : Type :=
| EvSerialBegin (baud : Z)
| EvPinModeOutput (pin : Z)
| EvDigitalWrite (pin : Z) (high : bool)
| EvDelay (ms : Z)
| EvDelayMicroseconds (us : Z)
| EvSpiBegin
| EvSpiBeginTransaction
| EvSpiEndTransaction
| EvSpiTransfer (mosi miso : Z)
| EvPrint (s : string)
| EvPrintln (s : string)
| EvPrintInt (z : Z)
| EvPrintlnHex (z : Z)
| EvPrintlnFloat (x : F) (digits : Z).

Arguments EvSerialBegin {F} _.
Arguments EvPinModeOutput {F} _.
Arguments EvDigitalWrite {F} _ _.
Arguments EvDelay {F} _.
Arguments EvDelayMicroseconds {F} _.
Arguments EvSpiBegin {F}.
Arguments EvSpiBeginTransaction {F}.
Arguments EvSpiEndTransaction {F}.
Arguments EvSpiTransfer {F} _ _.
Arguments EvPrint {F} _.
Arguments EvPrintln {F} _.
Arguments EvPrintInt {F} _.
Arguments EvPrintlnHex {F} _.
Arguments EvPrintlnFloat {F} _ _.

(** ** Program state: the globals of the sketch, and the world *)

Record Globals (F : Type) : Type := {
  g_range_code : Z;
  g_useInternalRef : bool;
  g_vref_volts : F;
  g_num_averages : Z;
  g_cal_enabled : bool;
  g_cal_slope : F;
  g_cal_offset : F
}.

Arguments g_range_code {F} _.
Arguments g_useInternalRef {F} _.
Arguments g_vref_volts {F} _.
Arguments g_num_averages {F} _.
Arguments g_cal_enabled {F} _.
Arguments g_cal_slope {F} _.
Arguments g_cal_offset {F} _.

Record State (F : Type) : Type := {
  globals : Globals F;
  (** number of bytes exchanged on the SPI bus so far *)
  spi_clock : nat;
  trace : list (Event F)
}.

Arguments globals {F} _.
Arguments spi_clock {F} _.
Arguments trace {F} _.

Definition WARNING_RANGE : string :=
  "WARNING: g_range_code != ADSX_CAL_RANGE_CODE; calibration was collected at a different range.".

(** Assignments to the globals. *)

Definition with_vref {F} (v : F) (g : Globals F) : Globals F :=
  {| g_range_code := g_range_code g;
     g_useInternalRef := g_useInternalRef g;
     g_vref_volts := v;
     g_num_averages := g_num_averages g;
     g_cal_enabled := g_cal_enabled g;
     g_cal_slope := g_cal_slope g;
     g_cal_offset := g_cal_offset g |}.

Definition with_range {F} (code : Z) (useInternalRef : bool)
    (g : Globals F) : Globals F :=
  {| g_range_code := code;
     g_useInternalRef := useInternalRef;
     g_vref_volts := g_vref_volts g;
     g_num_averages := g_num_averages g;
     g_cal_enabled := g_cal_enabled g;
     g_cal_slope := g_cal_slope g;
     g_cal_offset := g_cal_offset g |}.

Definition with_cal_enabled {F} (b : bool) (g : Globals F) : Globals F :=
  {| g_range_code := g_range_code g;
     g_useInternalRef := g_useInternalRef g;
     g_vref_volts := g_vref_volts g;
     g_num_averages := g_num_averages g;
     g_cal_enabled := b;
     g_cal_slope := g_cal_slope g;
     g_cal_offset := g_cal_offset g |}.

Definition with_cal_slope {F} (x : F) (g : Globals F) : Globals F :=
  {| g_range_code := g_range_code g;
     g_useInternalRef := g_useInternalRef g;
     g_vref_volts := g_vref_volts g;
     g_num_averages := g_num_averages g;
     g_cal_enabled := g_cal_enabled g;
     g_cal_slope := x;
     g_cal_offset := g_cal_offset g |}.

Definition with_cal_offset {F} (x : F) (g : Globals F) : Globals F :=
  {| g_range_code := g_range_code g;
     g_useInternalRef := g_useInternalRef g;
     g_vref_volts := g_vref_volts g;
     g_num_averages := g_num_averages g;
     g_cal_enabled := g_cal_enabled g;
     g_cal_slope := g_cal_slope g;
     g_cal_offset := x |}.

Section Sketch.

Context {F : Type} {FA : FloatArith F}.

(** The device: the byte it shifts out during the [k]-th SPI transfer. *)
Variable miso : nat -> Z.

Variable cfg : Config F.

Local Abbreviation St := (State F).

(** *** A state monad for the statements of the sketch *)

Definition M (A : Type) : Type := St -> A * St.

Definition ret {A} (a : A) : M A := fun st => (a, st).
Definition bind {A B} (c : M A) (k : A -> M B) : M B :=
  fun st => let (a, st') := c st in k a st'.
(** Reading a global. *)
Definition gets {A} (f : Globals F -> A) : M A :=
  fun st => (f (globals st), st).
(** Writing globals. *)
Definition assign (f : Globals F -> Globals F) : M unit :=
  fun st =>
    (tt, {| globals := f (globals st);
            spi_clock := spi_clock st;
            trace := trace st |}).

Notation "x <- c ;; k" := (bind c (fun x => k))
  (at level 61, c at next level, right associativity).
Notation "c ;;; k" := (bind c (fun _ => k))
  (at level 61, right associativity).

Definition emit (e : Event F) : M unit :=
  fun st =>
    (tt, {| globals := globals st;
            spi_clock := spi_clock st;
            trace := e :: trace st |}).

(** [SPI.transfer(b)]: one byte out, one byte in. *)
Definition SPI_transfer (b : Z) : M Z :=
  fun st =>
    let r := miso (spi_clock st) mod 256 in
    (r, {| globals := globals st;
           spi_clock := S (spi_clock st);
           trace := EvSpiTransfer b r :: trace st |}).

Definition digitalWrite (pin : Z) (high : bool) : M unit :=
  emit (EvDigitalWrite pin high).
Definition pinModeOutput (pin : Z) : M unit := emit (EvPinModeOutput pin).
Definition delay (ms : Z) : M unit := emit (EvDelay ms).
Definition delayMicroseconds (us : Z) : M unit :=
  emit (EvDelayMicroseconds us).

(** *** The functions of the sketch *)

Definition xfer32 (b0 b1 b2 b3 : Z) : M Z :=
  digitalWrite (PIN_CS cfg) false ;;;
  r0 <- SPI_transfer b0 ;;
  r1 <- SPI_transfer b1 ;;
  r2 <- SPI_transfer b2 ;;
  r3 <- SPI_transfer b3 ;;
  digitalWrite (PIN_CS cfg) true ;;;
  ret (Z.lor (Z.lor (Z.lor (Z.shiftl r0 24) (Z.shiftl r1 16))
                    (Z.shiftl r2 8)) r3).

Definition frameNOP : M Z := xfer32 0x00 0x00 0x00 0x00.

Definition writeRegHWord (addr data : Z) : M unit :=
  xfer32 0xD0 addr (Z.shiftr data 8 mod 256) (Z.land data 0xFF mod 256) ;;;
  delayMicroseconds ADSX_TCONV_US.

Definition adsxSetVrefVolts (vref_volts : F) : M unit :=
  if f_gt vref_volts (f_dec 0 1) then assign (with_vref vref_volts) else ret tt.

Definition adsxSetRange (range_code : Z) (useInternalRef : bool) : M unit :=
  let data := Z.lor (Z.land range_code 0x000F)
                    (if useInternalRef then ADSX_INTREF_ENABLE
                     else ADSX_INTREF_DISABLE) in
  emit EvSpiBeginTransaction ;;;
  writeRegHWord ADSX_REG_RANGE_SEL data ;;;
  emit EvSpiEndTransaction ;;;
  assign (with_range (Z.land range_code 0x000F) useInternalRef) ;;;
  emit EvSpiBeginTransaction ;;;
  frameNOP ;;;
  delayMicroseconds ADSX_TCONV_US ;;;
  frameNOP ;;;
  emit EvSpiEndTransaction.

(** Returns the multiplier and the value stored through [isBipolar]. *)
Definition adsxRangeMultiplier (code : Z) : F * bool :=
  let c := Z.land code 0xF in
  if c =? ADSX_RANGE_BIPOLAR_3X then (f_dec 30 1, true)
  else if c =? ADSX_RANGE_BIPOLAR_2P5X then (f_dec 25 1, true)
  else if c =? ADSX_RANGE_BIPOLAR_1P5X then (f_dec 15 1, true)
  else if c =? ADSX_RANGE_BIPOLAR_1P25X then (f_dec 125 2, true)
  else if c =? ADSX_RANGE_BIPOLAR_0P625X then (f_dec 625 3, true)
  else if c =? ADSX_RANGE_UNIPOLAR_3X then (f_dec 30 1, false)
  else if c =? ADSX_RANGE_UNIPOLAR_2P5X then (f_dec 25 1, false)
  else if c =? ADSX_RANGE_UNIPOLAR_1P5X then (f_dec 15 1, false)
  else if c =? ADSX_RANGE_UNIPOLAR_1P25X then (f_dec 125 2, false)
  else (f_dec 125 2, false).

Definition adsxCodeToVolts (g : Globals F) (codeN : Z) : F :=
  let codeN := if codeN >? ADSX_CODE_MASK (ADSX_BITS cfg)
               then ADSX_CODE_MASK (ADSX_BITS cfg) else codeN in
  let (mult, bipolar) := adsxRangeMultiplier (g_range_code g) in
  let vref := g_vref_volts g in
  let PFS := f_mul mult vref in
  let NFS := if bipolar then f_neg PFS else f_dec 0 1 in
  let FSR := f_sub PFS NFS in
  let LSB := f_div FSR (f_of_uint (Z.shiftl 1 (ADSX_BITS cfg))) in
  f_add NFS (f_mul (f_of_uint codeN) LSB).

Definition adsxReadCodeRaw32 : M Z :=
  emit EvSpiBeginTransaction ;;;
  frameNOP ;;;
  delayMicroseconds ADSX_TCONV_US ;;;
  w <- frameNOP ;;
  emit EvSpiEndTransaction ;;;
  ret w.

Definition adsxReadCodeNbits : M Z :=
  w <- adsxReadCodeRaw32 ;;
  ret (Z.land (Z.shiftr w (ADSX_CODE_SHIFT (ADSX_BITS cfg)))
              (ADSX_CODE_MASK (ADSX_BITS cfg))).

(** The body of the [for] loop of [adsxReadAveragedVolts], run [k] times
    on the [uint32_t] accumulator. *)
Fixpoint accumulate (k : nat) (code_accumulator : Z) : M Z :=
  match k with
  | O => ret code_accumulator
  | S k' =>
      code <- adsxReadCodeNbits ;;
      delay 1 ;;;
      accumulate k' ((code_accumulator + code) mod 2 ^ 32)
  end.

Definition adsxReadAveragedVolts : M F :=
  g <- gets g_num_averages ;;
  let n := if g <? 1 then 1 else g in
  code_accumulator <- accumulate (Z.to_nat n) 0 ;;
  let avg_code := f_div (f_of_uint code_accumulator) (f_of_uint n) in
  volts_raw <- gets (fun g => adsxCodeToVolts g (f_to_uint32 avg_code)) ;;
  enabled <- gets g_cal_enabled ;;
  range <- gets g_range_code ;;
  if ADSX_ENABLE_TWO_POINT_CAL cfg
     && (enabled && (range =? ADSX_CAL_RANGE_CODE cfg))
  then
    offset <- gets g_cal_offset ;;
    slope <- gets g_cal_slope ;;
    ret (f_add offset (f_mul slope volts_raw))
  else ret volts_raw.

Definition setup : M unit :=
  emit (EvSerialBegin 115200) ;;;
  delay 2000 ;;;
  pinModeOutput (PIN_CS cfg) ;;;
  digitalWrite (PIN_CS cfg) true ;;;
  (if PIN_RST cfg >=? 0 then
     pinModeOutput (PIN_RST cfg) ;;;
     digitalWrite (PIN_RST cfg) true ;;;
     digitalWrite (PIN_RST cfg) false ;;;
     delay 1 ;;;
     digitalWrite (PIN_RST cfg) true
   else ret tt) ;;;
  delay 20 ;;;
  emit EvSpiBegin ;;;
  adsxSetVrefVolts (f_dec 4096 3) ;;;
  r <- gets g_range_code ;;
  adsxSetRange r true ;;;
  (if ADSX_ENABLE_TWO_POINT_CAL cfg then
     if f_ne (ADSX_CAL_P2_MEASURED cfg) (ADSX_CAL_P1_MEASURED cfg) then
       assign (with_cal_slope
         (f_div (f_sub (ADSX_CAL_P2_ACTUAL cfg) (ADSX_CAL_P1_ACTUAL cfg))
                (f_sub (ADSX_CAL_P2_MEASURED cfg)
                       (ADSX_CAL_P1_MEASURED cfg)))) ;;;
       slope <- gets g_cal_slope ;;
       assign (with_cal_offset
         (f_sub (ADSX_CAL_P1_ACTUAL cfg)
                (f_mul slope (ADSX_CAL_P1_MEASURED cfg)))) ;;;
       assign (with_cal_enabled true) ;;;
       emit (EvPrintln "Two-point calibration enabled.") ;;;
       emit (EvPrint "  Calibration range code: 0x") ;;;
       emit (EvPrintlnHex (ADSX_CAL_RANGE_CODE cfg)) ;;;
       emit (EvPrint "  Cal slope  = ") ;;;
       s <- gets g_cal_slope ;;
       emit (EvPrintlnFloat s 8) ;;;
       emit (EvPrint "  Cal offset = ") ;;;
       o <- gets g_cal_offset ;;
       emit (EvPrintlnFloat o 8) ;;;
       r' <- gets g_range_code ;;
       if negb (r' =? ADSX_CAL_RANGE_CODE cfg)
       then emit (EvPrintln WARNING_RANGE)
       else ret tt
     else
       assign (with_cal_enabled false) ;;;
       emit (EvPrintln
         "Two-point calibration disabled: calibration points are identical.")
   else assign (with_cal_enabled false)) ;;;
  emit (EvPrint "ADS86") ;;;
  emit (EvPrintInt (ADSX_BITS cfg)) ;;;
  emit (EvPrintln " configured.").

Definition loop : M unit :=
  volts <- adsxReadAveragedVolts ;;
  emit (EvPrint "  Volts: ") ;;;
  emit (EvPrintlnFloat volts 5) ;;;
  delay 2000.

(** The values the globals are initialised with. *)
Definition initial_globals : Globals F :=
  {| g_range_code := init_range_code cfg;
     g_useInternalRef := true;
     g_vref_volts := f_dec 4096 3;
     g_num_averages := init_num_averages cfg;
     g_cal_enabled := false;
     g_cal_slope := f_dec 10 1;
     g_cal_offset := f_dec 0 1 |}.

Definition initial_state : St :=
  {| globals := initial_globals; spi_clock := O; trace := [] |}.

(** *** Names for what the functions compute

    [word_at k] is the 32-bit word [xfer32] assembles from the four bytes
    the device shifts out from transfer [k] on; [sample_code k] is the code
    [adsxReadCodeNbits] returns when it starts at transfer [k] (it discards
    the four bytes of the first frame). *)

Definition word_at (k : nat) : Z :=
  Z.lor (Z.lor (Z.lor (Z.shiftl (miso k mod 256) 24)
                      (Z.shiftl (miso (S k) mod 256) 16))
               (Z.shiftl (miso (S (S k)) mod 256) 8))
        (miso (S (S (S k))) mod 256).

Definition sample_code (k : nat) : Z :=
  Z.land (Z.shiftr (word_at (4 + k)) (ADSX_CODE_SHIFT (ADSX_BITS cfg)))
         (ADSX_CODE_MASK (ADSX_BITS cfg)).

(** Sum of the [k] codes read from transfer [clock] on. *)
Fixpoint sum_codes (k : nat) (clock : nat) : Z :=
  match k with
  | O => 0
  | S k' => sample_code clock + sum_codes k' (8 + clock)
  end.

(** The averaging count after [(g_num_averages < 1) ? 1 : g_num_averages]. *)
Definition averaging_count (g : Globals F) : Z :=
  if g_num_averages g <? 1 then 1 else g_num_averages g.

(** [avg_code] and [volts_raw] of [adsxReadAveragedVolts] run in [st]. *)
Definition avg_code_of (st : St) : F :=
  f_div (f_of_uint
           (fst (accumulate (Z.to_nat (averaging_count (globals st))) 0 st)))
        (f_of_uint (averaging_count (globals st))).

Definition volts_raw_of (st : St) : F :=
  adsxCodeToVolts (globals st) (f_to_uint32 (avg_code_of st)).

(** The correction of [adsxReadAveragedVolts], [g_cal_offset + g_cal_slope * v]. *)
Definition apply_cal (g : Globals F) (v : F) : F :=
  f_add (g_cal_offset g) (f_mul (g_cal_slope g) v).

(** The guard under which that correction is applied. *)
Definition cal_applies (g : Globals F) : bool :=
  ADSX_ENABLE_TWO_POINT_CAL cfg
  && (g_cal_enabled g && (g_range_code g =? ADSX_CAL_RANGE_CODE cfg)).

(** What [setup()] stores in [g_cal_slope] and [g_cal_offset] when it fits,
    and the condition under which it does. *)
Definition fitted_slope : F :=
  f_div (f_sub (ADSX_CAL_P2_ACTUAL cfg) (ADSX_CAL_P1_ACTUAL cfg))
        (f_sub (ADSX_CAL_P2_MEASURED cfg) (ADSX_CAL_P1_MEASURED cfg)).

Definition fitted_offset : F :=
  f_sub (ADSX_CAL_P1_ACTUAL cfg)
        (f_mul fitted_slope (ADSX_CAL_P1_MEASURED cfg)).

Definition fit_succeeds : bool :=
  ADSX_ENABLE_TWO_POINT_CAL cfg
  && f_ne (ADSX_CAL_P2_MEASURED cfg) (ADSX_CAL_P1_MEASURED cfg).

(** The globals [setup()] leaves behind when started with globals [g]. *)
Definition globals_after_setup (g : Globals F) : Globals F :=
  let g1 := if f_gt (f_dec 4096 3) (f_dec 0 1)
            then with_vref (f_dec 4096 3) g else g in
  let g2 := with_range (Z.land (g_range_code g1) 0xF) true g1 in
  if fit_succeeds
  then with_cal_enabled true
         (with_cal_offset fitted_offset (with_cal_slope fitted_slope g2))
  else with_cal_enabled false g2.

(** The transfer function without the clamp, as the comment above
    [adsxCodeToVolts] gives it: [LSB = FSR / 2^N; Volts = NFS + code * LSB],
    on a code that is already a float. *)
Definition transfer (g : Globals F) (code : F) : F :=
  let mult := fst (adsxRangeMultiplier (g_range_code g)) in
  let bipolar := snd (adsxRangeMultiplier (g_range_code g)) in
  let PFS := f_mul mult (g_vref_volts g) in
  let NFS := if bipolar then f_neg PFS else f_dec 0 1 in
  let FSR := f_sub PFS NFS in
  let LSB := f_div FSR (f_of_uint (2 ^ ADSX_BITS cfg)) in
  f_add NFS (f_mul code LSB).

(** [setup()] once, then [loop()] the given number of times. *)
Fixpoint loops (k : nat) : M unit :=
  match k with
  | O => ret tt
  | S k' => loop ;;; loops k'
  end.

Definition run (k : nat) : St := snd ((setup ;;; loops k) initial_state).

End Sketch.

Arguments initial_globals {F FA} cfg.
Arguments initial_state {F FA} cfg.
Arguments adsxCodeToVolts {F FA} cfg g codeN.
Arguments adsxRangeMultiplier F {FA} code.
Arguments adsxReadAveragedVolts {F FA} miso cfg _.
Arguments adsxReadCodeNbits {F} miso cfg _.
Arguments adsxReadCodeRaw32 {F} miso cfg _.
Arguments accumulate {F} miso cfg k code_accumulator _.
Arguments adsxSetVrefVolts {F FA} vref_volts _.
Arguments adsxSetRange {F} miso cfg range_code useInternalRef _.
Arguments setup {F FA} miso cfg _.
Arguments loop {F FA} miso cfg _.
Arguments loops {F FA} miso cfg k _.
Arguments run {F FA} miso cfg k.
Arguments fitted_slope {F FA} cfg.
Arguments fitted_offset {F FA} cfg.
Arguments fit_succeeds {F FA} cfg.
Arguments globals_after_setup {F FA} cfg g.
Arguments transfer {F FA} cfg g code.
Arguments sample_code {F} miso cfg k.
Arguments sum_codes {F} miso cfg k clock.
Arguments averaging_count {F} g.
Arguments avg_code_of {F FA} miso cfg st.
Arguments volts_raw_of {F FA} miso cfg st.
Arguments apply_cal {F FA} g v.
Arguments cal_applies {F} cfg g.

(** ** The configuration the sketch ships with *)

Definition shipped {F : Type} {FA : FloatArith F} : Config F :=
  {| ADSX_BITS := 16;
     ADSX_ENABLE_TWO_POINT_CAL := false;
     PIN_CS := 10;
     PIN_RST := 9;
     ADSX_CAL_RANGE_CODE := ADSX_RANGE_BIPOLAR_3X;
     ADSX_CAL_P1_ACTUAL := f_neg (f_dec 100002 4);
     ADSX_CAL_P1_MEASURED := f_neg (f_dec 100017 4);
     ADSX_CAL_P2_ACTUAL := f_dec 100027 4;
     ADSX_CAL_P2_MEASURED := f_dec 100045 4;
     init_range_code := ADSX_RANGE_BIPOLAR_3X;
     init_num_averages := 12 |}.

(** The same sketch built with another resolution, calibration switch and
    default range. *)
Definition shipped_with {F : Type} {FA : FloatArith F}
    (bits : Z) (cal : bool) (range : Z) : Config F :=
  {| ADSX_BITS := bits;
     ADSX_ENABLE_TWO_POINT_CAL := cal;
     PIN_CS := 10;
     PIN_RST := 9;
     ADSX_CAL_RANGE_CODE := ADSX_RANGE_BIPOLAR_3X;
     ADSX_CAL_P1_ACTUAL := f_neg (f_dec 100002 4);
     ADSX_CAL_P1_MEASURED := f_neg (f_dec 100017 4);
     ADSX_CAL_P2_ACTUAL := f_dec 100027 4;
     ADSX_CAL_P2_MEASURED := f_dec 100045 4;
     init_range_code := range;
     init_num_averages := 12 |}.

(** ** The functions of the sketch as operations on the state *)

Inductive Operation (F : Type) : Type :=
| Call_xfer32 (b0 b1 b2 b3 : Z)
| Call_frameNOP
| Call_writeRegHWord (addr data : Z)
| Call_adsxSetVrefVolts (vref_volts : F)
| Call_adsxSetRange (range_code : Z) (useInternalRef : bool)
| Call_adsxReadCodeRaw32
| Call_adsxReadCodeNbits
| Call_adsxReadAveragedVolts
| Call_setup
| Call_loop.

Arguments Call_xfer32 {F} _ _ _ _.
Arguments Call_frameNOP {F}.
Arguments Call_writeRegHWord {F} _ _.
Arguments Call_adsxSetVrefVolts {F} _.
Arguments Call_adsxSetRange {F} _ _.
Arguments Call_adsxReadCodeRaw32 {F}.
Arguments Call_adsxReadCodeNbits {F}.
Arguments Call_adsxReadAveragedVolts {F}.
Arguments Call_setup {F}.
Arguments Call_loop {F}.

Definition call {F : Type} {FA : FloatArith F} (miso : nat -> Z)
    (cfg : Config F) (op : Operation F) (st : State F) : State F :=
  match op with
  | Call_xfer32 b0 b1 b2 b3 => snd (xfer32 miso cfg b0 b1 b2 b3 st)
  | Call_frameNOP => snd (frameNOP miso cfg st)
  | Call_writeRegHWord addr data => snd (writeRegHWord miso cfg addr data st)
  | Call_adsxSetVrefVolts v => snd (adsxSetVrefVolts v st)
  | Call_adsxSetRange r b => snd (adsxSetRange miso cfg r b st)
  | Call_adsxReadCodeRaw32 => snd (adsxReadCodeRaw32 miso cfg st)
  | Call_adsxReadCodeNbits => snd (adsxReadCodeNbits miso cfg st)
  | Call_adsxReadAveragedVolts => snd (adsxReadAveragedVolts miso cfg st)
  | Call_setup => snd (setup miso cfg st)
  | Call_loop => snd (loop miso cfg st)
  end.

Definition calls {F : Type} {FA : FloatArith F} (miso : nat -> Z)
    (cfg : Config F) (ops : list (Operation F)) (st : State F) : State F :=
  fold_left (fun s op => call miso cfg op s) ops st.

(** [g_vref_volts > 0.0f] *)
Definition vref_positive {F : Type} {FA : FloatArith F} (g : Globals F)
  : bool :=
  f_gt (g_vref_volts g) (f_dec 0 1).

(** ** Binary32: ordering of floats through a key *)

(** A float that is not a NaN, as a point of [Z * Z * Z] ordered
    lexicographically: the class first, then exponent and mantissa. *)
Definition key (x : spec_float) : Z * Z * Z :=
  match x with
  | S754_nan => (0, 0, 0)
  | S754_zero _ => (0, 0, 0)
  | S754_infinity false => (2, 0, 0)
  | S754_infinity true => (-2, 0, 0)
  | S754_finite false m e => (1, e, Zpos m)
  | S754_finite true m e => (-1, - e, Zneg m)
  end.

Definition key_lt (x y : Z * Z * Z) : Prop :=
  let '(x1, x2, x3) := x in
  let '(y1, y2, y3) := y in
  x1 < y1 \/ (x1 = y1 /\ (x2 < y2 \/ (x2 = y2 /\ x3 < y3))).

Definition not_nan (x : spec_float) : Prop := x <> S754_nan.

(** ** Binary32: what the rounding lemmas are stated with *)

(** Number of bits of a mantissa. *)
Definition digits (m : positive) : Z := Zpos (digits2_pos m).

(** The record [(m, r, s)] that [shr] works on describes the integer [X]
    in units of [W]: [m] units, and a remainder that the round bit [r] and
    the sticky bit [s] place against half a unit. *)
Definition shr_inv (X W : Z) (mrs : shr_record) : Prop :=
  0 <= shr_m mrs /\
  0 <= X - shr_m mrs * W < W /\
  shr_r mrs = (W <=? 2 * (X - shr_m mrs * W)) /\
  shr_s mrs = negb (X - shr_m mrs * W =? 0)
              && negb (2 * (X - shr_m mrs * W) =? W).

Definition pow2 (e : Z) : Q := Qpower 2 e.

Definition signed (s : bool) (m : positive) : Z :=
  if s then Zneg m else Zpos m.

(** The unit roundoff of binary32, [2^-24]. *)
Definition u : Q := 1 # 16777216.

Definition zero_or_canonical (x : spec_float) : Prop :=
  (exists s, x = S754_zero s)
  \/ exists s m e, x = S754_finite s m e /\ digits m = 24.

(** [LSB] and the result of [adsxCodeToVolts] for a bipolar range, as
    functions of the positive full scale [PFS] and the resolution [N]. *)
Definition bipolar_LSB (PFS : spec_float) (N : Z) : spec_float :=
  B32.div (B32.sub PFS (B32.neg PFS)) (B32.of_Z (2 ^ N)).

Definition bipolar_volts (PFS : spec_float) (N : Z) (c : Z) : spec_float :=
  B32.add (B32.neg PFS) (B32.mul (B32.of_Z c) (bipolar_LSB PFS N)).

(** Floats that are normal numbers with the exponent in a given range, and
    those that are such a number or a zero: the operands on which an
    operation neither overflows nor loses precision to underflow. *)
Definition normal_in (lo hi : Z) (x : spec_float) : Prop :=
  exists s m e, x = S754_finite s m e /\ digits m = 24 /\ lo <= e <= hi.

Definition good (lo hi : Z) (x : spec_float) : Prop :=
  (exists s, x = S754_zero s) \/ normal_in lo hi x.

(** The same as a test. *)
Definition in_range (lo hi : Z) (x : spec_float) : bool :=
  match x with
  | S754_zero _ => true
  | S754_finite _ m e => (digits m =? 24) && (lo <=? e) && (e <=? hi)
  | _ => false
  end.

(** [r] is [v] up to one rounding. *)
Definition close (v r : Q) : Prop := (Qabs (r - v) <= u * Qabs v)%Q.

(** ** What goes over the wires *)

(** The bytes sent on MOSI, oldest first. *)
Fixpoint mosi_bytes {F : Type} (t : list (Event F)) : list Z :=
  match t with
  | [] => []
  | EvSpiTransfer b _ :: t' => mosi_bytes t' ++ [b]
  | _ :: t' => mosi_bytes t'
  end.

(** The state of the bus as the events leave it: whether [SPI.begin()] has
    been called, whether a transaction is open, whether chip select is low,
    and the number of bytes exchanged since it went low. *)
Record Bus : Type := {
  bus_begun : bool;
  bus_in_transaction : bool;
  bus_cs_low : bool;
  bus_frame_bytes : Z
}.

Definition bus_at (begun : bool) : Bus :=
  {| bus_begun := begun; bus_in_transaction := false; bus_cs_low := false;
     bus_frame_bytes := 0 |}.

(** One event on a bus in state [b]; [None] when the event breaks the
    discipline of the ADS86xx interface: a transaction is opened after
    [SPI.begin()] and not inside another; chip select falls inside a
    transaction only; a byte is exchanged with chip select low only; chip
    select rises after exactly four bytes; a transaction is closed with
    chip select high. *)
Definition bus_step {F : Type} (cs : Z) (b : Bus) (e : Event F)
  : option Bus :=
  match e with
  | EvSpiBegin =>
      Some {| bus_begun := true;
              bus_in_transaction := bus_in_transaction b;
              bus_cs_low := bus_cs_low b;
              bus_frame_bytes := bus_frame_bytes b |}
  | EvSpiBeginTransaction =>
      if bus_begun b && negb (bus_in_transaction b)
      then Some {| bus_begun := bus_begun b;
                   bus_in_transaction := true;
                   bus_cs_low := bus_cs_low b;
                   bus_frame_bytes := bus_frame_bytes b |}
      else None
  | EvSpiEndTransaction =>
      if bus_in_transaction b && negb (bus_cs_low b)
      then Some {| bus_begun := bus_begun b;
                   bus_in_transaction := false;
                   bus_cs_low := bus_cs_low b;
                   bus_frame_bytes := bus_frame_bytes b |}
      else None
  | EvDigitalWrite pin high =>
      if pin =? cs then
        if high then
          if bus_cs_low b then
            if bus_frame_bytes b =? 4
            then Some {| bus_begun := bus_begun b;
                         bus_in_transaction := bus_in_transaction b;
                         bus_cs_low := false;
                         bus_frame_bytes := 0 |}
            else None
          else Some b
        else
          if bus_cs_low b then Some b
          else if bus_in_transaction b
               then Some {| bus_begun := bus_begun b;
                            bus_in_transaction := true;
                            bus_cs_low := true;
                            bus_frame_bytes := 0 |}
               else None
      else Some b
  | EvSpiTransfer _ _ =>
      if bus_in_transaction b && bus_cs_low b
      then Some {| bus_begun := bus_begun b;
                   bus_in_transaction := bus_in_transaction b;
                   bus_cs_low := bus_cs_low b;
                   bus_frame_bytes := bus_frame_bytes b + 1 |}
      else None
  | _ => Some b
  end.

(** The bus after a trace (newest event first) that starts in state [b];
    [bus_after]: from power-up. *)
Fixpoint bus_from {F : Type} (cs : Z) (b : Bus) (t : list (Event F))
  : option Bus :=
  match t with
  | [] => Some b
  | e :: t' =>
      match bus_from cs b t' with
      | Some b' => bus_step cs b' e
      | None => None
      end
  end.

Definition bus_after {F : Type} (cs : Z) (t : list (Event F)) : option Bus :=
  bus_from cs (bus_at false) t.

(** The pins the sketch may drive: chip select, and the reset pin when one
    is configured. *)
Definition pin_allowed {F : Type} (cfg : Config F) (e : Event F) : bool :=
  match e with
  | EvPinModeOutput pin | EvDigitalWrite pin _ =>
      (pin =? PIN_CS cfg) || ((pin =? PIN_RST cfg) && (0 <=? PIN_RST cfg))
  | _ => true
  end.

(** The line [setup()] prints when the active range is not the range of
    the calibration. *)
Definition is_range_warning {F : Type} (e : Event F) : bool :=
  match e with
  | EvPrintln s => String.eqb s WARNING_RANGE
  | _ => false
  end.

(** The events of one frame, newest first: the four bytes [b0] to [b3]
    sent while the device answers from transfer [clock] on. *)
Definition frame_events {F : Type} (miso : nat -> Z) (cfg : Config F)
    (b0 b1 b2 b3 : Z) (clock : nat) : list (Event F) :=
  [EvDigitalWrite (PIN_CS cfg) true;
   EvSpiTransfer b3 (miso (3 + clock)%nat mod 256);
   EvSpiTransfer b2 (miso (2 + clock)%nat mod 256);
   EvSpiTransfer b1 (miso (1 + clock)%nat mod 256);
   EvSpiTransfer b0 (miso clock mod 256);
   EvDigitalWrite (PIN_CS cfg) false].

(** The events of [adsxSetRange] and of [adsxReadCodeNbits]. *)
Definition adsxSetRange_events {F : Type} (miso : nat -> Z) (cfg : Config F)
    (range_code : Z) (useInternalRef : bool) (clock : nat)
  : list (Event F) :=
  let data := Z.lor (Z.land range_code 0x000F)
                    (if useInternalRef then ADSX_INTREF_ENABLE
                     else ADSX_INTREF_DISABLE) in
  [EvSpiEndTransaction]
  ++ frame_events miso cfg 0 0 0 0 (8 + clock)
  ++ [EvDelayMicroseconds ADSX_TCONV_US]
  ++ frame_events miso cfg 0 0 0 0 (4 + clock)
  ++ [EvSpiBeginTransaction; EvSpiEndTransaction;
      EvDelayMicroseconds ADSX_TCONV_US]
  ++ frame_events miso cfg 0xD0 ADSX_REG_RANGE_SEL
       (Z.shiftr data 8 mod 256) (Z.land data 0xFF mod 256) clock
  ++ [EvSpiBeginTransaction].

Definition adsxReadCodeNbits_events {F : Type} (miso : nat -> Z)
    (cfg : Config F) (clock : nat) : list (Event F) :=
  [EvSpiEndTransaction]
  ++ frame_events miso cfg 0 0 0 0 (4 + clock)
  ++ [EvDelayMicroseconds ADSX_TCONV_US]
  ++ frame_events miso cfg 0 0 0 0 clock
  ++ [EvSpiBeginTransaction].

(** The events of [setup()], started with globals [g]. *)
Definition setup_events {F : Type} {FA : FloatArith F} (miso : nat -> Z)
    (cfg : Config F) (g : Globals F) (clock : nat) : list (Event F) :=
  [EvPrintln " configured."; EvPrintInt (ADSX_BITS cfg); EvPrint "ADS86"]
  ++ (if ADSX_ENABLE_TWO_POINT_CAL cfg then
        if f_ne (ADSX_CAL_P2_MEASURED cfg) (ADSX_CAL_P1_MEASURED cfg) then
          (if negb (Z.land (g_range_code g) 0xF =? ADSX_CAL_RANGE_CODE cfg)
           then [EvPrintln WARNING_RANGE] else [])
          ++ [EvPrintlnFloat (fitted_offset cfg) 8;
              EvPrint "  Cal offset = ";
              EvPrintlnFloat (fitted_slope cfg) 8;
              EvPrint "  Cal slope  = ";
              EvPrintlnHex (ADSX_CAL_RANGE_CODE cfg);
              EvPrint "  Calibration range code: 0x";
              EvPrintln "Two-point calibration enabled."]
        else
          [EvPrintln
             "Two-point calibration disabled: calibration points are identical."]
      else [])
  ++ adsxSetRange_events miso cfg (g_range_code g) true clock
  ++ [EvSpiBegin; EvDelay 20]
  ++ (if PIN_RST cfg >=? 0 then
        [EvDigitalWrite (PIN_RST cfg) true; EvDelay 1;
         EvDigitalWrite (PIN_RST cfg) false;
         EvDigitalWrite (PIN_RST cfg) true;
         EvPinModeOutput (PIN_RST cfg)]
      else [])
  ++ [EvDigitalWrite (PIN_CS cfg) true; EvPinModeOutput (PIN_CS cfg);
      EvDelay 2000; EvSerialBegin 115200].

(** Events that leave an idle, started bus as it was, drive allowed pins
    only and print no range warning. *)
Definition routine {F : Type} (cfg : Config F) (new : list (Event F))
  : Prop :=
  bus_from (PIN_CS cfg) (bus_at true) new = Some (bus_at true)
  /\ forallb (pin_allowed cfg) new = true
  /\ existsb is_range_warning new = false.

(** [LSB] and the result of [adsxCodeToVolts] for a unipolar range. *)
Definition unipolar_LSB (PFS : spec_float) (N : Z) : spec_float :=
  B32.div (B32.sub PFS (B32.dec 0 1)) (B32.of_Z (2 ^ N)).

Definition unipolar_volts (PFS : spec_float) (N : Z) (c : Z) : spec_float :=
  B32.add (B32.dec 0 1) (B32.mul (B32.of_Z c) (unipolar_LSB PFS N)).

(** The time the sketch has spent in [delay()] and [delayMicroseconds()],
    in microseconds. *)
Fixpoint waited_us {F : Type} (t : list (Event F)) : Z :=
  match t with
  | [] => 0
  | EvDelay ms :: t' => 1000 * ms + waited_us t'
  | EvDelayMicroseconds us :: t' => us + waited_us t'
  | _ :: t' => waited_us t'
  end.

(** ** Concrete devices, configurations and states used as examples *)

Module Examples.

Import B32.

(** A device that answers every transfer with the byte [0xC0]. *)
Definition dev_C0 (k : nat) : Z := 0xC0.

(** A device whose first two conversions are the codes 32768 and 32769 of a
    16-bit part: the words [0x80000000] and [0x80010000]. *)
Definition dev_two_codes (k : nat) : Z :=
  if Nat.eqb (Nat.modulo k 4) 0 then 0x80
  else if Nat.eqb k 13 then 0x01 else 0x00.

(** The sketch as shipped, in binary32, and its initial globals. *)
Definition cfg_shipped : Config spec_float := shipped.
Definition g_shipped : Globals spec_float := initial_globals cfg_shipped.

(** The shipped sketch with calibration compiled in and the default range
    changed to [ADSX_RANGE_BIPOLAR_2P5X]; the calibration range stays
    [ADSX_RANGE_BIPOLAR_3X]. *)
Definition cfg_mismatch : Config spec_float :=
  shipped_with 16 true ADSX_RANGE_BIPOLAR_2P5X.

(** The shipped sketch with calibration compiled in. *)
Definition cfg_cal : Config spec_float :=
  shipped_with 16 true ADSX_RANGE_BIPOLAR_3X.

Definition cfg_cal_exact : Config Qc :=
  shipped_with 16 true ADSX_RANGE_BIPOLAR_3X.

(** The shipped sketch averaging two samples. *)
Definition st_two_averages : State spec_float :=
  {| globals := with_cal_enabled false
       {| g_range_code := ADSX_RANGE_BIPOLAR_3X;
          g_useInternalRef := true;
          g_vref_volts := dec 4096 3;
          g_num_averages := 2;
          g_cal_enabled := false;
          g_cal_slope := dec 10 1;
          g_cal_offset := dec 0 1 |};
     spi_clock := O;
     trace := [] |}.

(** Calibration points (actual, measured) = (0.1, 10.0) and (0.3, 10.001):
    two measured values one millivolt apart. *)
Definition cfg_close_points : Config spec_float :=
  {| ADSX_BITS := 16;
     ADSX_ENABLE_TWO_POINT_CAL := true;
     PIN_CS := 10;
     PIN_RST := 9;
     ADSX_CAL_RANGE_CODE := ADSX_RANGE_BIPOLAR_3X;
     ADSX_CAL_P1_ACTUAL := dec 1 1;
     ADSX_CAL_P1_MEASURED := dec 10 0;
     ADSX_CAL_P2_ACTUAL := dec 3 1;
     ADSX_CAL_P2_MEASURED := dec 10001 3;
     init_range_code := ADSX_RANGE_BIPOLAR_3X;
     init_num_averages := 12 |}.

(** Calibration points whose actual values are the largest finite floats
    of either sign. *)
Definition cfg_huge_points : Config spec_float :=
  {| ADSX_BITS := 16;
     ADSX_ENABLE_TWO_POINT_CAL := true;
     PIN_CS := 10;
     PIN_RST := 9;
     ADSX_CAL_RANGE_CODE := ADSX_RANGE_BIPOLAR_3X;
     ADSX_CAL_P1_ACTUAL := S754_finite true 16777215 104;
     ADSX_CAL_P1_MEASURED := neg (dec 10 0);
     ADSX_CAL_P2_ACTUAL := S754_finite false 16777215 104;
     ADSX_CAL_P2_MEASURED := dec 10 0;
     init_range_code := ADSX_RANGE_BIPOLAR_3X;
     init_num_averages := 12 |}.

(** Both measured values equal. *)
Definition cfg_degenerate : Config spec_float :=
  {| ADSX_BITS := 16;
     ADSX_ENABLE_TWO_POINT_CAL := true;
     PIN_CS := 10;
     PIN_RST := 9;
     ADSX_CAL_RANGE_CODE := ADSX_RANGE_BIPOLAR_3X;
     ADSX_CAL_P1_ACTUAL := neg (dec 100002 4);
     ADSX_CAL_P1_MEASURED := dec 100045 4;
     ADSX_CAL_P2_ACTUAL := dec 100027 4;
     ADSX_CAL_P2_MEASURED := dec 100045 4;
     init_range_code := ADSX_RANGE_BIPOLAR_3X;
     init_num_averages := 12 |}.

(** The states [setup()] leaves behind for these configurations. *)
Definition st_mismatch : State spec_float := run dev_C0 cfg_mismatch 0.
Definition st_cal : State spec_float := run dev_C0 cfg_cal 0.
Definition st_close_points : State spec_float :=
  run dev_C0 cfg_close_points 0.
Definition st_huge_points : State spec_float := run dev_C0 cfg_huge_points 0.
Definition st_shipped : State spec_float := run dev_C0 cfg_shipped 0.

(** The shipped globals with the unipolar range 2.5 x VREF selected, and
    the state in which the shipped sketch starts. *)
Definition g_unipolar : Globals spec_float :=
  with_range ADSX_RANGE_UNIPOLAR_2P5X true (initial_globals cfg_shipped).
Definition st_power_up : State spec_float := initial_state cfg_shipped.

End Examples.

(** * Properties *)

(** ** Resolution constants *)

Lemma mask_is_pow2_minus_1 (bits : Z) :
  bits_ok bits -> ADSX_CODE_MASK bits = 2 ^ bits - 1.
Proof. intros [-> | ->]; reflexivity. Qed.

Lemma shiftl_1_bits (bits : Z) :
  bits_ok bits -> Z.shiftl 1 bits = 2 ^ bits.
Proof. intros [-> | ->]; reflexivity. Qed.

Lemma bits_nonneg (bits : Z) : bits_ok bits -> 0 <= bits.
Proof. intros [-> | ->]; lia. Qed.

(** ** What each function returns and what it leaves alone *)

Lemma bind_eq {F A B : Type} (c : M (F:=F) A) (k : A -> M (F:=F) B)
    (st : State F) :
  bind c k st = k (fst (c st)) (snd (c st)).
Proof. unfold bind. destruct (c st); reflexivity. Qed.

(** Run the sequencing of a monadic block, one statement at a time. *)
Ltac run_binds := repeat (rewrite bind_eq; cbv beta).

Create Rewrite HintDb sketch.

Section Frames.

Context {F : Type} {FA : FloatArith F}.
Variable miso : nat -> Z.
Variable cfg : Config F.

Lemma snd_gets {A} (f : Globals F -> A) (st : State F) :
  snd (gets f st) = st.
Proof. reflexivity. Qed.

Lemma fst_gets {A} (f : Globals F -> A) (st : State F) :
  fst (gets f st) = f (globals st).
Proof. reflexivity. Qed.

Lemma snd_ret {A} (a : A) (st : State F) : snd (ret a st) = st.
Proof. reflexivity. Qed.

Lemma fst_ret {A} (a : A) (st : State F) : fst (ret a st) = a.
Proof. reflexivity. Qed.

Lemma globals_emit (e : Event F) (st : State F) :
  globals (snd (emit e st)) = globals st.
Proof. reflexivity. Qed.

Lemma trace_emit (e : Event F) (st : State F) :
  trace (snd (emit e st)) = e :: trace st.
Proof. reflexivity. Qed.

Lemma globals_assign (f : Globals F -> Globals F) (st : State F) :
  globals (snd (assign f st)) = f (globals st).
Proof. reflexivity. Qed.

Lemma globals_delay (ms : Z) (st : State F) :
  globals (snd (delay ms st)) = globals st.
Proof. reflexivity. Qed.

Lemma spi_clock_delay (ms : Z) (st : State F) :
  spi_clock (snd (delay ms st)) = spi_clock st.
Proof. reflexivity. Qed.

Lemma globals_digitalWrite (pin : Z) (high : bool) (st : State F) :
  globals (snd (digitalWrite pin high st)) = globals st.
Proof. reflexivity. Qed.

Lemma globals_pinModeOutput (pin : Z) (st : State F) :
  globals (snd (pinModeOutput pin st)) = globals st.
Proof. reflexivity. Qed.

Lemma xfer32_spec (b0 b1 b2 b3 : Z) (st : State F) :
  fst (xfer32 miso cfg b0 b1 b2 b3 st) = word_at miso (spi_clock st) /\
  spi_clock (snd (xfer32 miso cfg b0 b1 b2 b3 st)) = (4 + spi_clock st)%nat /\
  globals (snd (xfer32 miso cfg b0 b1 b2 b3 st)) = globals st.
Proof. split; [|split]; reflexivity. Qed.

Lemma globals_writeRegHWord (addr data : Z) (st : State F) :
  globals (snd (writeRegHWord miso cfg addr data st)) = globals st.
Proof. reflexivity. Qed.

Lemma adsxReadCodeRaw32_spec (st : State F) :
  fst (adsxReadCodeRaw32 miso cfg st) = word_at miso (4 + spi_clock st) /\
  spi_clock (snd (adsxReadCodeRaw32 miso cfg st)) = (8 + spi_clock st)%nat /\
  globals (snd (adsxReadCodeRaw32 miso cfg st)) = globals st.
Proof. split; [|split]; reflexivity. Qed.

Lemma adsxReadCodeNbits_spec (st : State F) :
  fst (adsxReadCodeNbits miso cfg st) = sample_code miso cfg (spi_clock st) /\
  spi_clock (snd (adsxReadCodeNbits miso cfg st)) = (8 + spi_clock st)%nat /\
  globals (snd (adsxReadCodeNbits miso cfg st)) = globals st.
Proof. split; [|split]; reflexivity. Qed.

Lemma globals_adsxSetRange (range_code : Z) (b : bool) (st : State F) :
  globals (snd (adsxSetRange miso cfg range_code b st))
  = with_range (Z.land range_code 0xF) b (globals st).
Proof. reflexivity. Qed.

Lemma globals_adsxSetVrefVolts (v : F) (st : State F) :
  globals (snd (adsxSetVrefVolts v st))
  = if f_gt v (f_dec 0 1) then with_vref v (globals st) else globals st.
Proof. unfold adsxSetVrefVolts. destruct (f_gt v (f_dec 0 1)); reflexivity. Qed.

(** The loop of [adsxReadAveragedVolts]: one iteration, then the rest. *)
Lemma accumulate_step (k : nat) (acc : Z) (st : State F) :
  accumulate miso cfg (S k) acc st =
  accumulate miso cfg k
    ((acc + fst (adsxReadCodeNbits miso cfg st)) mod 2 ^ 32)
    (snd (delay 1 (snd (adsxReadCodeNbits miso cfg st)))).
Proof.
  cbn [accumulate]. unfold bind at 1.
  destruct (adsxReadCodeNbits miso cfg st) as [c st1].
  reflexivity.
Qed.

Definition accumulate_post (k : nat) (acc : Z) (st : State F) : Prop :=
  fst (accumulate miso cfg k acc st)
    = (acc + sum_codes miso cfg k (spi_clock st)) mod 2 ^ 32 /\
  spi_clock (snd (accumulate miso cfg k acc st)) = (8 * k + spi_clock st)%nat /\
  globals (snd (accumulate miso cfg k acc st)) = globals st.

Lemma accumulate_post_O (acc : Z) (st : State F) :
  0 <= acc < 2 ^ 32 -> accumulate_post O acc st.
Proof.
  intros Hacc. unfold accumulate_post.
  cbn [accumulate sum_codes ret fst snd].
  rewrite Z.add_0_r, Z.mod_small by assumption.
  split; [|split]; reflexivity.
Qed.

Lemma accumulate_post_S (k : nat) (acc : Z) (st : State F) :
  (forall acc' st', 0 <= acc' < 2 ^ 32 -> accumulate_post k acc' st') ->
  accumulate_post (S k) acc st.
Proof.
  intros IH. unfold accumulate_post.
  rewrite accumulate_step.
  destruct (adsxReadCodeNbits_spec st) as (Hc & Hk & Hg).
  rewrite Hc.
  pose proof (spi_clock_delay 1 (snd (adsxReadCodeNbits miso cfg st))) as Hk'.
  pose proof (globals_delay 1 (snd (adsxReadCodeNbits miso cfg st))) as Hg'.
  rewrite Hk in Hk'. rewrite Hg in Hg'.
  generalize dependent (snd (delay 1 (snd (adsxReadCodeNbits miso cfg st)))).
  intros st2 Hk' Hg'.
  destruct (IH ((acc + sample_code miso cfg (spi_clock st)) mod 2 ^ 32) st2)
    as (Hv & Hclk & Hgl).
  { apply Z.mod_pos_bound. lia. }
  split; [|split].
  - rewrite Hv, Hk'. cbn [sum_codes].
    rewrite Z.add_mod_idemp_l by lia.
    f_equal. lia.
  - rewrite Hclk, Hk'. lia.
  - congruence.
Qed.

Lemma accumulate_spec (k : nat) (acc : Z) (st : State F) :
  0 <= acc < 2 ^ 32 -> accumulate_post k acc st.
Proof.
  revert acc st. induction k as [|k IH]; intros acc st Hacc.
  - apply accumulate_post_O; assumption.
  - apply accumulate_post_S; assumption.
Qed.

Lemma globals_accumulate (k : nat) (st : State F) :
  globals (snd (accumulate miso cfg k 0 st)) = globals st.
Proof. apply (accumulate_spec k 0 st). lia. Qed.

(** [adsxReadAveragedVolts] in one equation. *)
Lemma adsxReadAveragedVolts_eq (st : State F) :
  adsxReadAveragedVolts miso cfg st =
  (if cal_applies cfg (globals st)
   then apply_cal (globals st) (volts_raw_of miso cfg st)
   else volts_raw_of miso cfg st,
   snd (accumulate miso cfg (Z.to_nat (averaging_count (globals st))) 0 st)).
Proof.
  unfold adsxReadAveragedVolts, cal_applies, apply_cal, volts_raw_of,
    avg_code_of.
  rewrite bind_eq, fst_gets, snd_gets.
  fold (averaging_count (globals st)).
  set (n := averaging_count (globals st)).
  rewrite bind_eq.
  pose proof (globals_accumulate (Z.to_nat n) st) as Hg.
  set (r := accumulate miso cfg (Z.to_nat n) 0 st) in *.
  repeat (rewrite bind_eq, ?fst_gets, ?snd_gets).
  rewrite Hg.
  destruct (ADSX_ENABLE_TWO_POINT_CAL cfg
            && (g_cal_enabled (globals st)
                && (g_range_code (globals st) =? ADSX_CAL_RANGE_CODE cfg))).
  - repeat (rewrite bind_eq, ?fst_gets, ?snd_gets). rewrite Hg. reflexivity.
  - reflexivity.
Qed.

Lemma globals_adsxReadAveragedVolts (st : State F) :
  globals (snd (adsxReadAveragedVolts miso cfg st)) = globals st.
Proof. rewrite adsxReadAveragedVolts_eq. apply globals_accumulate. Qed.

Lemma globals_loop (st : State F) :
  globals (snd (loop miso cfg st)) = globals st.
Proof.
  unfold loop. repeat (rewrite bind_eq; cbv beta).
  rewrite globals_delay, !globals_emit.
  apply globals_adsxReadAveragedVolts.
Qed.

Hint Rewrite @snd_gets @fst_gets @snd_ret @fst_ret @globals_emit
  @globals_assign @globals_delay @globals_digitalWrite
  @globals_pinModeOutput @globals_adsxSetRange
  @globals_adsxSetVrefVolts : sketch.

Lemma setup_globals (st : State F) :
  globals (snd (setup miso cfg st)) = globals_after_setup cfg (globals st).
Proof.
  unfold setup, globals_after_setup, fit_succeeds, fitted_offset, fitted_slope.
  run_binds.
  destruct (PIN_RST cfg >=? 0), (ADSX_ENABLE_TWO_POINT_CAL cfg),
    (f_ne (ADSX_CAL_P2_MEASURED cfg) (ADSX_CAL_P1_MEASURED cfg)); cbn [andb];
    run_binds; autorewrite with sketch;
    try match goal with
        | |- context [if negb ?b then _ else _] => destruct b; cbn [negb]
        end;
    autorewrite with sketch; reflexivity.
Qed.

(** The warning of [setup()] when the active range is not the one the
    calibration was collected at. *)
Lemma setup_warns (st : State F) :
  fit_succeeds cfg = true ->
  Z.land (g_range_code (globals st)) 0xF <> ADSX_CAL_RANGE_CODE cfg ->
  In (EvPrintln WARNING_RANGE) (trace (snd (setup miso cfg st))).
Proof.
  unfold fit_succeeds. intros Hfit Hne.
  apply andb_true_iff in Hfit. destruct Hfit as [Hflag Hfne].
  unfold setup. rewrite Hflag, Hfne.
  run_binds. rewrite !trace_emit.
  do 3 right.
  match goal with
  | |- context [if negb (?a =? ?b) then _ else _] =>
      assert (Hab : (a =? b) = false)
  end.
  { apply Z.eqb_neq.
    destruct (PIN_RST cfg >=? 0); run_binds; autorewrite with sketch;
      destruct (f_gt (f_dec 4096 3) (f_dec 0 1)); exact Hne. }
  rewrite Hab. cbn [negb]. rewrite trace_emit. left. reflexivity.
Qed.

End Frames.

(** ** The transfer function *)

Section TransferFunction.

Context {F : Type} {FA : FloatArith F}.
Variable cfg : Config F.
Hypothesis Hbits : bits_ok (ADSX_BITS cfg).

(** Below the clamp, [adsxCodeToVolts] is [transfer] on [(float)codeN]. *)
Lemma adsxCodeToVolts_unclamped (g : Globals F) (code : Z) :
  (code >? ADSX_CODE_MASK (ADSX_BITS cfg)) = false ->
  adsxCodeToVolts cfg g code = transfer cfg g (f_of_uint code).
Proof.
  intros Hc. unfold adsxCodeToVolts, transfer.
  rewrite Hc, (shiftl_1_bits _ Hbits).
  destruct (adsxRangeMultiplier F (g_range_code g)) as [mult bipolar].
  reflexivity.
Qed.

Lemma adsxCodeToVolts_clamped (g : Globals F) (code : Z) :
  (code >? ADSX_CODE_MASK (ADSX_BITS cfg)) = true ->
  adsxCodeToVolts cfg g code
  = transfer cfg g (f_of_uint (ADSX_CODE_MASK (ADSX_BITS cfg))).
Proof.
  intros Hc. unfold adsxCodeToVolts, transfer.
  rewrite Hc, (shiftl_1_bits _ Hbits).
  destruct (adsxRangeMultiplier F (g_range_code g)) as [mult bipolar].
  reflexivity.
Qed.

Lemma in_range_not_clamped (code : Z) :
  code <= 2 ^ ADSX_BITS cfg - 1 ->
  (code >? ADSX_CODE_MASK (ADSX_BITS cfg)) = false.
Proof.
  intros Hc. rewrite (mask_is_pow2_minus_1 _ Hbits).
  rewrite Z.gtb_ltb. apply Z.ltb_ge. exact Hc.
Qed.

End TransferFunction.

(** C1. For every code in [0, 2^N - 1], [adsxCodeToVolts] returns
    [NFS + code * LSB], with [PFS = multiplier * reference voltage] for the
    multiplier of the active range, [NFS = -PFS] for a bipolar range and [0]
    for a unipolar one, [FSR = PFS - NFS] and [LSB = FSR / 2^N].  The
    operations are those of the sketch's [float]; the statement holds in
    binary32 and in exact arithmetic alike. *)
Theorem adsxCodeToVolts_transfer_function
    {F : Type} {FA : FloatArith F} (cfg : Config F) (g : Globals F)
    (code : Z) :
  bits_ok (ADSX_BITS cfg) ->
  0 <= code <= 2 ^ ADSX_BITS cfg - 1 ->
  let multiplier := fst (adsxRangeMultiplier F (g_range_code g)) in
  let bipolar := snd (adsxRangeMultiplier F (g_range_code g)) in
  let PFS := f_mul multiplier (g_vref_volts g) in
  let NFS := if bipolar then f_neg PFS else f_dec 0 1 in
  let FSR := f_sub PFS NFS in
  let LSB := f_div FSR (f_of_uint (2 ^ ADSX_BITS cfg)) in
  adsxCodeToVolts cfg g code = f_add NFS (f_mul (f_of_uint code) LSB).
Proof.
  intros Hbits [_ Hhi]. cbv zeta.
  rewrite (adsxCodeToVolts_unclamped cfg Hbits).
  - reflexivity.
  - apply in_range_not_clamped; assumption.
Qed.

(** C7. A code above the largest code [2^N - 1] is converted as [2^N - 1];
    in particular [2^N] gives the same voltage as [2^N - 1]. *)
Theorem adsxCodeToVolts_clamps
    {F : Type} {FA : FloatArith F} (cfg : Config F) (g : Globals F)
    (code : Z) :
  bits_ok (ADSX_BITS cfg) ->
  2 ^ ADSX_BITS cfg - 1 < code ->
  adsxCodeToVolts cfg g code = adsxCodeToVolts cfg g (2 ^ ADSX_BITS cfg - 1)
  /\ adsxCodeToVolts cfg g (2 ^ ADSX_BITS cfg)
     = adsxCodeToVolts cfg g (2 ^ ADSX_BITS cfg - 1).
Proof.
  intros Hbits Hc.
  assert (Hclamp : forall c, 2 ^ ADSX_BITS cfg - 1 < c ->
            adsxCodeToVolts cfg g c
            = adsxCodeToVolts cfg g (2 ^ ADSX_BITS cfg - 1)).
  { intros c Hgt.
    rewrite (adsxCodeToVolts_clamped cfg Hbits).
    - rewrite (adsxCodeToVolts_unclamped cfg Hbits).
      + rewrite (mask_is_pow2_minus_1 _ Hbits). reflexivity.
      + apply in_range_not_clamped; [assumption | lia].
    - rewrite (mask_is_pow2_minus_1 _ Hbits).
      rewrite Z.gtb_ltb. apply Z.ltb_lt. exact Hgt. }
  split; apply Hclamp; [assumption | lia].
Qed.

(** ** Acquisition *)

Lemma sample_code_range {F : Type} (miso : nat -> Z) (cfg : Config F)
    (k : nat) :
  bits_ok (ADSX_BITS cfg) ->
  0 <= sample_code miso cfg k <= 2 ^ ADSX_BITS cfg - 1.
Proof.
  intros Hbits. unfold sample_code.
  assert (Hones : ADSX_CODE_MASK (ADSX_BITS cfg) = Z.ones (ADSX_BITS cfg))
    by (destruct Hbits as [-> | ->]; reflexivity).
  rewrite Hones, Z.land_ones by (apply bits_nonneg; assumption).
  pose proof (Z.mod_pos_bound
    (Z.shiftr (word_at miso (4 + k)) (ADSX_CODE_SHIFT (ADSX_BITS cfg)))
    (2 ^ ADSX_BITS cfg)) as Hm.
  assert (0 < 2 ^ ADSX_BITS cfg) by (destruct Hbits as [-> | ->]; lia).
  lia.
Qed.

(** C9. The code [adsxReadCodeNbits] returns lies in [0, 2^N - 1], because
    the shifted word is masked; the test [codeN > ADSX_CODE_MASK] of
    [adsxCodeToVolts] is false for it, so it is converted without clamping. *)
Theorem acquired_code_in_range
    {F : Type} {FA : FloatArith F} (miso : nat -> Z) (cfg : Config F)
    (st : State F) :
  bits_ok (ADSX_BITS cfg) ->
  let code := fst (adsxReadCodeNbits miso cfg st) in
  0 <= code <= 2 ^ ADSX_BITS cfg - 1
  /\ (code >? ADSX_CODE_MASK (ADSX_BITS cfg)) = false
  /\ forall g, adsxCodeToVolts cfg g code = transfer cfg g (f_of_uint code).
Proof.
  intros Hbits code.
  assert (Hr : 0 <= code <= 2 ^ ADSX_BITS cfg - 1).
  { unfold code. destruct (adsxReadCodeNbits_spec miso cfg st) as [-> _].
    apply sample_code_range; assumption. }
  assert (Hg : (code >? ADSX_CODE_MASK (ADSX_BITS cfg)) = false)
    by (apply in_range_not_clamped; [assumption | lia]).
  repeat split; try lia; try assumption.
  intros g. apply adsxCodeToVolts_unclamped; assumption.
Qed.

(** ** The calibration fit and its use *)

Section Calibration.

Context {F : Type} {FA : FloatArith F}.
Variable miso : nat -> Z.
Variable cfg : Config F.

Lemma fit_result (st : State F) :
  fit_succeeds cfg = true ->
  let g' := globals (snd (setup miso cfg st)) in
  g_cal_enabled g' = true /\
  g_cal_slope g' = fitted_slope cfg /\
  g_cal_offset g' = fitted_offset cfg.
Proof.
  intros Hfit g'. unfold g'.
  rewrite setup_globals. unfold globals_after_setup. rewrite Hfit.
  repeat split.
Qed.

Lemma no_fit_result (st : State F) :
  fit_succeeds cfg = false ->
  g_cal_enabled (globals (snd (setup miso cfg st))) = false.
Proof.
  intros Hfit. rewrite setup_globals. unfold globals_after_setup.
  rewrite Hfit. reflexivity.
Qed.

Lemma read_calibrated (st : State F) :
  cal_applies cfg (globals st) = true ->
  fst (adsxReadAveragedVolts miso cfg st)
  = apply_cal (globals st) (volts_raw_of miso cfg st).
Proof. intros H. rewrite adsxReadAveragedVolts_eq, H. reflexivity. Qed.

Lemma read_uncalibrated (st : State F) :
  cal_applies cfg (globals st) = false ->
  fst (adsxReadAveragedVolts miso cfg st) = volts_raw_of miso cfg st.
Proof. intros H. rewrite adsxReadAveragedVolts_eq, H. reflexivity. Qed.

End Calibration.

(** C2. With calibration compiled in and the two measured values different,
    [setup()] leaves an enabled model with
    [slope = (p2_actual - p1_actual) / (p2_measured - p1_measured)] and
    [offset = p1_actual - slope * p1_measured]; where the averaged read
    applies the model (the active range is the calibration range), it
    returns [offset + slope * v] for the raw voltage [v]. *)
Theorem two_point_fit_model
    {F : Type} {FA : FloatArith F} (miso : nat -> Z) (cfg : Config F)
    (st0 : State F) :
  ADSX_ENABLE_TWO_POINT_CAL cfg = true ->
  f_ne (ADSX_CAL_P2_MEASURED cfg) (ADSX_CAL_P1_MEASURED cfg) = true ->
  let g := globals (snd (setup miso cfg st0)) in
  g_cal_enabled g = true
  /\ g_cal_slope g
     = f_div (f_sub (ADSX_CAL_P2_ACTUAL cfg) (ADSX_CAL_P1_ACTUAL cfg))
             (f_sub (ADSX_CAL_P2_MEASURED cfg) (ADSX_CAL_P1_MEASURED cfg))
  /\ g_cal_offset g
     = f_sub (ADSX_CAL_P1_ACTUAL cfg)
             (f_mul (g_cal_slope g) (ADSX_CAL_P1_MEASURED cfg))
  /\ forall st : State F,
       globals st = g ->
       g_range_code g = ADSX_CAL_RANGE_CODE cfg ->
       fst (adsxReadAveragedVolts miso cfg st)
       = f_add (g_cal_offset g)
               (f_mul (g_cal_slope g) (volts_raw_of miso cfg st)).
Proof.
  intros Hflag Hne g.
  assert (Hfit : fit_succeeds cfg = true)
    by (unfold fit_succeeds; rewrite Hflag, Hne; reflexivity).
  destruct (fit_result miso cfg st0 Hfit) as (Hen & Hs & Ho).
  fold g in Hen, Hs, Ho.
  split; [exact Hen|]. split; [exact Hs|]. split.
  - rewrite Ho, Hs. reflexivity.
  - intros st Hst Hrange.
    rewrite read_calibrated.
    + rewrite Hst. reflexivity.
    + unfold cal_applies. rewrite Hst, Hflag, Hen, Hrange, Z.eqb_refl.
      reflexivity.
Qed.

(** C6. Equal measured values make [setup()] leave the model disabled, and
    with a disabled model the averaged read returns the output of the
    transfer function as it is. *)
Theorem degenerate_fit_disables_calibration
    {F : Type} {FA : FloatArith F} (miso : nat -> Z) (cfg : Config F)
    (st0 : State F) :
  f_ne (ADSX_CAL_P2_MEASURED cfg) (ADSX_CAL_P1_MEASURED cfg) = false ->
  g_cal_enabled (globals (snd (setup miso cfg st0))) = false
  /\ forall st : State F,
       g_cal_enabled (globals st) = false ->
       fst (adsxReadAveragedVolts miso cfg st)
       = adsxCodeToVolts cfg (globals st)
           (f_to_uint32 (avg_code_of miso cfg st)).
Proof.
  intros Heq. split.
  - apply no_fit_result. unfold fit_succeeds. rewrite Heq.
    apply andb_false_r.
  - intros st Hdis. rewrite read_uncalibrated.
    + reflexivity.
    + unfold cal_applies. rewrite Hdis. apply andb_false_r.
Qed.

(** C3, as the sketch has it.  When the active range is not the range the
    calibration was collected at, the averaged read does not apply the
    correction: it returns the raw voltage.  [setup()] prints the warning
    when it has fitted a model under such a range. *)
Theorem range_mismatch_returns_raw
    {F : Type} {FA : FloatArith F} (miso : nat -> Z) (cfg : Config F)
    (st : State F) :
  g_range_code (globals st) <> ADSX_CAL_RANGE_CODE cfg ->
  fst (adsxReadAveragedVolts miso cfg st) = volts_raw_of miso cfg st
  /\ forall st0 : State F,
       fit_succeeds cfg = true ->
       globals (snd (setup miso cfg st0)) = globals st ->
       In (EvPrintln WARNING_RANGE) (trace (snd (setup miso cfg st0))).
Proof.
  intros Hne. split.
  - apply read_uncalibrated. unfold cal_applies.
    apply Z.eqb_neq in Hne. rewrite Hne, !andb_false_r. reflexivity.
  - intros st0 Hfit Hst. apply setup_warns; [assumption|].
    rewrite <- Hst, setup_globals in Hne.
    unfold globals_after_setup in Hne. rewrite Hfit in Hne.
    destruct (f_gt (f_dec 4096 3) (f_dec 0 1)); exact Hne.
Qed.

(** C4, as the sketch has it.  The averaged read sums the [n] codes in a
    32-bit unsigned accumulator, divides the sum by [n] in floating point,
    converts the quotient to [uint32_t], which discards its fraction, and
    gives that integer code to [adsxCodeToVolts]. *)
Theorem averaging_truncates_then_converts
    {F : Type} {FA : FloatArith F} (miso : nat -> Z) (cfg : Config F)
    (st : State F) :
  cal_applies cfg (globals st) = false ->
  let n := averaging_count (globals st) in
  let sum := sum_codes miso cfg (Z.to_nat n) (spi_clock st) mod 2 ^ 32 in
  let avg_code := f_div (f_of_uint sum) (f_of_uint n) in
  fst (adsxReadAveragedVolts miso cfg st)
  = adsxCodeToVolts cfg (globals st) (f_to_uint32 avg_code).
Proof.
  intros Hcal n sum avg_code.
  rewrite read_uncalibrated by assumption.
  unfold volts_raw_of, avg_code_of. fold n.
  destruct (accumulate_spec miso cfg (Z.to_nat n) 0 st) as (Hacc & _);
    [lia|].
  rewrite Hacc, Z.add_0_l. reflexivity.
Qed.

(** ** Binary32: the order of floats *)

Lemma key_lt_trans (x y z : Z * Z * Z) :
  key_lt x y -> key_lt y z -> key_lt x z.
Proof.
  destruct x as [[x1 x2] x3], y as [[y1 y2] y3], z as [[z1 z2] z3].
  unfold key_lt. lia.
Qed.

Lemma SFltb_key (a b : spec_float) :
  SFltb a b = true <-> not_nan a /\ not_nan b /\ key_lt (key a) (key b).
Proof.
  unfold SFltb, SFcompare, not_nan.
  destruct a as [[]|[]| |[] ma ea], b as [[]|[]| |[] mb eb]; cbn [key key_lt];
    try (split; [discriminate | intros (Ha & Hb & Hk); try congruence; lia]);
    try (split; [intros _; repeat split; try discriminate; lia | reflexivity]).
  - change (Pos.compare_cont Eq ma mb) with (Pos.compare ma mb).
    destruct (Z.compare_spec ea eb), (Pos.compare_spec ma mb);
      cbn [CompOpp];
      (split; [try discriminate; intros _; repeat split; try discriminate; lia
              | try reflexivity; intros (_ & _ & Hk); lia]).
  - change (Pos.compare_cont Eq ma mb) with (Pos.compare ma mb).
    destruct (Z.compare_spec ea eb), (Pos.compare_spec ma mb);
      (split; [try discriminate; intros _; repeat split; try discriminate; lia
              | try reflexivity; intros (_ & _ & Hk); lia]).
Qed.

(** [<] on floats is transitive. *)
Lemma SFltb_trans (a b c : spec_float) :
  SFltb a b = true -> SFltb b c = true -> SFltb a c = true.
Proof.
  rewrite !SFltb_key. intros (Ha & Hb & Hab) (_ & Hc & Hbc).
  repeat split; try assumption.
  eapply key_lt_trans; eassumption.
Qed.

(** The multiplier depends on the low four bits of the range code only. *)
Lemma adsxRangeMultiplier_land {F : Type} {FA : FloatArith F} (code : Z) :
  adsxRangeMultiplier F (Z.land code 0xF) = adsxRangeMultiplier F code.
Proof.
  unfold adsxRangeMultiplier.
  rewrite <- Z.land_assoc. reflexivity.
Qed.

Lemma bipolar_selectors {F : Type} {FA : FloatArith F} (code : Z) :
  snd (adsxRangeMultiplier F code) = true ->
  let c := Z.land code 0xF in
  c = 0 \/ c = 1 \/ c = 2 \/ c = 3 \/ c = 4.
Proof.
  unfold adsxRangeMultiplier. cbv zeta.
  unfold ADSX_RANGE_BIPOLAR_3X, ADSX_RANGE_BIPOLAR_2P5X,
    ADSX_RANGE_BIPOLAR_1P5X, ADSX_RANGE_BIPOLAR_1P25X,
    ADSX_RANGE_BIPOLAR_0P625X.
  destruct (Z.eqb_spec (Z.land code 15) 0); [auto|].
  destruct (Z.eqb_spec (Z.land code 15) 1); [auto|].
  destruct (Z.eqb_spec (Z.land code 15) 2); [auto|].
  destruct (Z.eqb_spec (Z.land code 15) 3); [auto 6|].
  destruct (Z.eqb_spec (Z.land code 15) 4); [auto 6|].
  repeat match goal with
         | |- context [if ?b then _ else _] => destruct b
         end; discriminate.
Qed.

(** ** Binary32: rounding *)

Lemma digits_pos (m : positive) : 0 < digits m.
Proof. unfold digits. lia. Qed.

Lemma digits_bounds (m : positive) :
  2 ^ (digits m - 1) <= Zpos m < 2 ^ digits m.
Proof.
  unfold digits.
  induction m as [m IH | m IH |]; cbn [digits2_pos].
  - rewrite Pos2Z.inj_succ.
    replace (Z.succ (Zpos (digits2_pos m)) - 1) with (Z.succ (Zpos (digits2_pos m) - 1)) by lia.
    rewrite !Z.pow_succ_r by lia. lia.
  - rewrite Pos2Z.inj_succ.
    replace (Z.succ (Zpos (digits2_pos m)) - 1) with (Z.succ (Zpos (digits2_pos m) - 1)) by lia.
    rewrite !Z.pow_succ_r by lia. lia.
  - cbn. lia.
Qed.

Lemma digits_unique (m : positive) (d : Z) :
  2 ^ (d - 1) <= Zpos m < 2 ^ d -> digits m = d.
Proof.
  intros [Hlo Hhi]. pose proof (digits_bounds m) as [Hlo' Hhi'].
  pose proof (digits_pos m) as Hd.
  assert (0 < d).
  { destruct (Z.ltb_spec 0 d); [assumption|].
    exfalso. assert (2 ^ d <= 2 ^ 0) by (apply Z.pow_le_mono_r; lia).
    change (2 ^ 0) with 1 in *. lia. }
  destruct (Z.lt_trichotomy (digits m) d) as [Hlt | [Heq | Hgt]]; [|assumption|].
  - exfalso. assert (2 ^ digits m <= 2 ^ (d - 1)) by (apply Z.pow_le_mono_r; lia). lia.
  - exfalso. assert (2 ^ d <= 2 ^ (digits m - 1)) by (apply Z.pow_le_mono_r; lia). lia.
Qed.

Ltac bool_arith :=
  repeat match goal with
         | |- context [Z.leb ?a ?b] => destruct (Z.leb_spec a b)
         | |- context [Z.eqb ?a ?b] => destruct (Z.eqb_spec a b)
         end;
  cbn [negb andb orb]; try reflexivity; try lia.

Lemma shr_1_inv (X W : Z) (mrs : shr_record) :
  0 < W -> shr_inv X W mrs -> shr_inv X (2 * W) (shr_1 mrs).
Proof.
  intros HW. destruct mrs as [m r s]. unfold shr_inv. cbn [shr_m shr_r shr_s].
  intros (Hm & HR & Hr & Hs). subst r s.
  destruct m as [|[p|p|]|p]; [| | | |lia]; cbn [shr_1 shr_m shr_r shr_s];
    (split; [lia | split; [lia | split; bool_arith]]).
Qed.

Lemma iter_shr_1_inv (p : positive) :
  forall (X W : Z) (mrs : shr_record),
    0 < W -> shr_inv X W mrs ->
    shr_inv X (2 ^ Zpos p * W) (iter_pos shr_1 p mrs).
Proof.
  induction p as [p IH | p IH |]; intros X W mrs HW Hinv; cbn [iter_pos].
  - assert (Hp : 0 < 2 ^ Zpos p) by (apply Z.pow_pos_nonneg; lia).
    replace (2 ^ Zpos p~1 * W) with (2 ^ Zpos p * (2 ^ Zpos p * (2 * W))).
    + apply IH; [nia|]. apply IH; [lia|]. apply shr_1_inv; assumption.
    + replace (Zpos p~1) with (Zpos p + Zpos p + 1) by lia.
      rewrite !Z.pow_add_r by lia. change (2 ^ 1) with 2. ring.
  - assert (Hp : 0 < 2 ^ Zpos p) by (apply Z.pow_pos_nonneg; lia).
    replace (2 ^ Zpos p~0 * W) with (2 ^ Zpos p * (2 ^ Zpos p * W)).
    + apply IH; [nia|]. apply IH; assumption.
    + replace (Zpos p~0) with (Zpos p + Zpos p) by lia.
      rewrite !Z.pow_add_r by lia. ring.
  - change (2 ^ 1) with 2. apply shr_1_inv; assumption.
Qed.

(** Rounding to nearest picks a neighbour at most half a unit away. *)
Lemma round_nearest_even_inv (X W : Z) (mrs : shr_record) :
  0 < W -> shr_inv X W mrs ->
  let k := round_nearest_even (shr_m mrs) (loc_of_shr_record mrs) in
  shr_m mrs <= k <= shr_m mrs + 1 /\ 2 * Z.abs (k * W - X) <= W.
Proof.
  intros HW. destruct mrs as [m r s]. unfold shr_inv. cbn [shr_m shr_r shr_s].
  intros (Hm & HR & Hr & Hs). subst r s.
  destruct (Z.leb_spec W (2 * (X - m * W))), (Z.eqb_spec (X - m * W) 0),
    (Z.eqb_spec (2 * (X - m * W)) W);
    cbn [negb andb loc_of_shr_record round_nearest_even];
    try destruct (Z.even m); split; lia.
Qed.

Lemma shr_inv_of_loc_Exact (m : Z) :
  0 <= m -> shr_inv m 1 (shr_record_of_loc m loc_Exact).
Proof.
  intros Hm. unfold shr_inv. cbn [shr_record_of_loc shr_m shr_r shr_s].
  replace (m - m * 1) with 0 by lia. repeat split; lia.
Qed.

Lemma shr_spec (X W : Z) (mrs : shr_record) (e n : Z) :
  0 < W -> shr_inv X W mrs ->
  shr_inv X (2 ^ Z.max n 0 * W) (fst (shr mrs e n)) /\
  snd (shr mrs e n) = e + Z.max n 0.
Proof.
  intros HW Hinv. destruct n as [|p|p]; cbn [shr fst snd].
  - change (2 ^ Z.max 0 0) with 1. rewrite Z.mul_1_l. split; [assumption | lia].
  - replace (Z.max (Zpos p) 0) with (Zpos p) by lia.
    split; [apply iter_shr_1_inv; assumption | reflexivity].
  - replace (Z.max (Zneg p) 0) with 0 by lia.
    change (2 ^ 0) with 1. rewrite Z.mul_1_l. split; [assumption | lia].
Qed.

Lemma fexp_normal (e : Z) :
  -149 <= e - 24 -> fexp 24 128 e = e - 24.
Proof. unfold fexp, emin. lia. Qed.

(** What [binary_round_aux] returns in the normal range: a float of the
    requested sign, half a unit of its last place away from the value
    [X / W * 2^ex] at most. *)
Lemma binary_round_aux_spec (s : bool) (mx : positive) (ex : Z)
    (lx : location) (X W : Z) :
  0 < W ->
  shr_inv X W (shr_record_of_loc (Zpos mx) lx) ->
  let d := digits mx in
  let n := Z.max (d - 24) 0 in
  -149 <= d + ex - 24 ->
  ex + n <= 103 ->
  exists (m' : positive) (e' : Z),
    binary_round_aux 24 128 s (Zpos mx) ex lx = S754_finite s m' e'
    /\ (e' = ex + n \/ e' = ex + n + 1)
    /\ 2 * Z.abs (Zpos m' * 2 ^ (e' - ex) * W - X) <= 2 ^ n * W
    /\ (24 <= d -> digits m' = 24)
    /\ (d <= 24 -> lx = loc_Exact -> m' = mx /\ e' = ex).
Proof.
  intros HW Hinv d n Hlo Hhi.
  pose proof (digits_bounds mx) as Hd. fold d in Hd.
  pose proof (digits_pos mx) as Hdpos. fold d in Hdpos.
  unfold binary_round_aux, shr_fexp.
  cbn [Zdigits2]. fold (digits mx). fold d.
  rewrite (fexp_normal (d + ex)) by lia.
  replace (d + ex - 24 - ex) with (d - 24) by lia.
  destruct (shr_spec X W _ ex (d - 24) HW Hinv) as [Hinv1 He1].
  fold n in Hinv1, He1.
  destruct (shr (shr_record_of_loc (Z.pos mx) lx) ex (d - 24)) as [mrs1 e1].
  cbn [fst snd] in Hinv1, He1. subst e1.
  assert (HW1 : 0 < 2 ^ n * W).
  { assert (0 < 2 ^ n) by (apply Z.pow_pos_nonneg; lia). nia. }
  destruct (round_nearest_even_inv X (2 ^ n * W) mrs1 HW1 Hinv1) as [Hk Herr].
  set (k := round_nearest_even (shr_m mrs1) (loc_of_shr_record mrs1)) in *.
  (* size of the shifted mantissa *)
  assert (HX : Zpos mx * W <= X < (Zpos mx + 1) * W).
  { destruct Hinv as (_ & HR & _). 
    destruct lx as [|[]]; cbn [shr_record_of_loc shr_m] in HR; lia. }
  assert (Hq : (24 <= d -> 2 ^ 23 <= shr_m mrs1 < 2 ^ 24) /\
               (d <= 24 -> shr_m mrs1 = Zpos mx)).
  { destruct Hinv1 as (Hm1 & HR1 & _). split.
    - intros Hd24. assert (Hn : n = d - 24) by lia.
      assert (Hpn : 0 < 2 ^ n) by (apply Z.pow_pos_nonneg; lia).
      assert (E1 : 2 ^ d = 2 ^ 24 * 2 ^ n)
        by (rewrite <- Z.pow_add_r by lia; f_equal; lia).
      assert (E2 : 2 ^ (d - 1) = 2 ^ 23 * 2 ^ n)
        by (rewrite <- Z.pow_add_r by lia; f_equal; lia).
      rewrite E1, E2 in Hd. split; nia.
    - intros Hd24. assert (Hn : n = 0) by lia. rewrite Hn in HR1.
      change (2 ^ 0) with 1 in HR1. nia. }
  assert (Hk24 : 1 <= k <= 2 ^ 24).
  { destruct Hq as [Hq1 Hq2].
    destruct (Z.le_gt_cases 24 d) as [Hge | Hlt].
    - specialize (Hq1 Hge). lia.
    - rewrite Hq2 in Hk by lia.
      assert (2 ^ d <= 2 ^ 23) by (apply Z.pow_le_mono_r; lia). lia. }
  assert (Hexact : d <= 24 -> lx = loc_Exact -> k = Zpos mx).
  { intros Hd24 ->. assert (Hn : n = 0) by lia.
    rewrite Hn in Herr. change (2 ^ 0) with 1 in Herr.
    destruct Hinv as (_ & HR & Hr & Hs).
    cbn [shr_record_of_loc shr_m shr_r shr_s] in HR, Hr, Hs.
    symmetry in Hr, Hs. apply Z.leb_gt in Hr.
    apply andb_false_iff in Hs.
    assert (HR0 : X - Zpos mx * W = 0).
    { destruct Hs as [Hs | Hs]; apply negb_false_iff in Hs;
        apply Z.eqb_eq in Hs; lia. }
    nia. }
  clearbody k.
  destruct k as [|kp|kp]; [lia | | lia].
  cbn [Zdigits2]. fold (digits kp).
  change (2 ^ 24) with 16777216 in *. change (2 ^ 23) with 8388608 in *.
  destruct (Z.eq_dec (Zpos kp) 16777216) as [Hmax | Hnmax].
  - (* the mantissa came out as 2^24: one more shift *)
    assert (Hkp : kp = 16777216%positive) by lia.
    subst kp. change (digits 16777216) with 25.
    unfold fexp, emin.
    replace (Z.max (25 + (ex + n) - 24) (3 - 128 - 24) - (ex + n)) with 1
      by lia.
    cbn [shr shr_record_of_loc iter_pos shr_1 fst snd shr_m].
    exists 8388608%positive, (ex + n + 1).
    replace (ex + n + 1 <=? 128 - 24) with true
      by (symmetry; apply Z.leb_le; lia).
    split; [reflexivity|]. split; [right; reflexivity|].
    split; [|split].
    + replace (ex + n + 1 - ex) with (n + 1) by lia.
      rewrite Z.pow_add_r by lia. change (2 ^ 1) with 2.
      replace (8388608 * (2 ^ n * 2) * W)
        with (16777216 * (2 ^ n * W)) by ring.
      exact Herr.
    + intros _. reflexivity.
    + intros Hd24 Hex. exfalso.
      specialize (Hexact Hd24 Hex).
      assert (2 ^ d <= 2 ^ 24) by (apply Z.pow_le_mono_r; lia).
      change (2 ^ 24) with 16777216 in *. lia.
  - (* the usual case *)
    assert (Hdk : digits kp <= 24).
    { pose proof (digits_bounds kp) as Hb.
      destruct (Z.le_gt_cases (digits kp) 24) as [|Hgt]; [assumption|].
      exfalso.
      assert (2 ^ 24 <= 2 ^ (digits kp - 1))
        by (apply Z.pow_le_mono_r; lia).
      change (2 ^ 24) with 16777216 in *. lia. }
    unfold fexp, emin.
    assert (Hns : Z.max (digits kp + (ex + n) - 24) (3 - 128 - 24)
                  - (ex + n) <= 0) by lia.
    assert (Hshr : shr (shr_record_of_loc (Zpos kp) loc_Exact) (ex + n)
                     (Z.max (digits kp + (ex + n) - 24) (3 - 128 - 24)
                      - (ex + n))
                   = (shr_record_of_loc (Zpos kp) loc_Exact, ex + n)).
    { destruct (Z.max (digits kp + (ex + n) - 24) (3 - 128 - 24)
                - (ex + n)); [reflexivity | lia | reflexivity]. }
    rewrite Hshr. cbn [shr_record_of_loc shr_m].
    exists kp, (ex + n).
    replace (ex + n <=? 128 - 24) with true
      by (symmetry; apply Z.leb_le; lia).
    split; [reflexivity|]. split; [left; reflexivity|].
    split; [|split].
    + replace (ex + n - ex) with n by lia.
      replace (Zpos kp * 2 ^ n * W) with (Zpos kp * (2 ^ n * W)) by ring.
      exact Herr.
    + intros Hd24. apply digits_unique.
      change (2 ^ 24) with 16777216. change (2 ^ (24 - 1)) with 8388608.
      destruct Hq as [Hq1 _]. specialize (Hq1 Hd24). lia.
    + intros Hd24 Hex. specialize (Hexact Hd24 Hex).
      split; [congruence | lia].
Qed.

Lemma pos_iter_xO (m d : positive) :
  Zpos (Pos.iter xO m d) = Zpos m * 2 ^ Zpos d.
Proof.
  induction d as [|d IH] using Pos.peano_ind.
  - cbn. lia.
  - rewrite Pos.iter_succ, Pos2Z.inj_xO, IH, Pos2Z.inj_succ.
    rewrite Z.pow_succ_r by lia. ring.
Qed.

Lemma digits_shift (m : positive) (k : Z) (m' : positive) :
  0 <= k -> Zpos m' = Zpos m * 2 ^ k -> digits m' = digits m + k.
Proof.
  intros Hk Hm'. apply digits_unique. rewrite Hm'.
  pose proof (digits_bounds m) as Hb. pose proof (digits_pos m).
  assert (0 < 2 ^ k) by (apply Z.pow_pos_nonneg; lia).
  replace (digits m + k - 1) with (digits m - 1 + k) by lia.
  rewrite !Z.pow_add_r by lia. nia.
Qed.

(** [shl_align] keeps the value and lowers the exponent to [ex'] when that
    is below [ex]. *)
Lemma shl_align_spec (mx : positive) (ex ex' : Z) :
  let k := Z.max (ex - ex') 0 in
  Zpos (fst (shl_align mx ex ex')) = Zpos mx * 2 ^ k /\
  snd (shl_align mx ex ex') = ex - k.
Proof.
  unfold shl_align. cbv zeta.
  destruct (ex' - ex) as [|p|p] eqn:E; cbn [fst snd].
  - replace (Z.max (ex - ex') 0) with 0 by lia. cbn. lia.
  - replace (Z.max (ex - ex') 0) with 0 by lia. cbn. lia.
  - replace (Z.max (ex - ex') 0) with (Zpos p) by lia.
    rewrite pos_iter_xO. lia.
Qed.

(** [binary_round] in the normal range: the result has a 24-bit mantissa
    and is within [2^-24] of the value [mx * 2^ex], relatively.  The bound
    is stated on integers, in units of [2^ez]. *)
Lemma binary_round_spec (s : bool) (mx : positive) (ex : Z) :
  let d := digits mx in
  -149 <= d + ex - 24 <= 103 ->
  exists (m' : positive) (e' ez : Z),
    binary_round 24 128 s mx ex = S754_finite s m' e'
    /\ digits m' = 24
    /\ ez <= ex /\ ez <= e'
    /\ (e' = d + ex - 24 \/ e' = d + ex - 23)
    /\ 2 ^ 24 * Z.abs (Zpos m' * 2 ^ (e' - ez) - Zpos mx * 2 ^ (ex - ez))
       <= Zpos mx * 2 ^ (ex - ez)
    /\ (d <= 24 -> Zpos m' = Zpos mx * 2 ^ (24 - d) /\ e' = ex - (24 - d)).
Proof.
  intros d Hr.
  pose proof (digits_pos mx) as Hdpos. fold d in Hdpos.
  unfold binary_round. fold (digits mx). fold d.
  rewrite (fexp_normal (d + ex)) by lia.
  destruct (shl_align_spec mx ex (d + ex - 24)) as [Hmz Hez].
  destruct (shl_align mx ex (d + ex - 24)) as [mz ez].
  cbn [fst snd] in Hmz, Hez.
  set (k := Z.max (ex - (d + ex - 24)) 0) in *.
  assert (Hk : k = Z.max (24 - d) 0) by lia.
  assert (Hdz : digits mz = d + k)
    by (apply (digits_shift mx); [lia | exact Hmz]).
  destruct (binary_round_aux_spec s mz ez loc_Exact (Zpos mz) 1)
    as (m' & e' & Hres & He' & Herr & Hcan & Hex).
  { lia. }
  { apply shr_inv_of_loc_Exact. lia. }
  { rewrite Hdz. lia. }
  { rewrite Hdz. lia. }
  rewrite Hdz in He', Herr, Hcan, Hex.
  exists m', e', ez.
  split; [exact Hres|]. split; [apply Hcan; lia|].
  split; [lia|]. split; [lia|]. split; [lia|].
  split; [|intros Hd24; destruct (Hex ltac:(lia) eq_refl) as [-> ->];
           split; [rewrite Hmz; f_equal; f_equal; lia | lia]].
  rewrite Z.mul_1_r in Herr. rewrite Z.mul_1_r in Herr.
  replace (ex - ez) with k by lia. rewrite <- Hmz.
  pose proof (digits_bounds mz) as Hb. rewrite Hdz in Hb.
  set (n := Z.max (d + k - 24) 0) in *.
  assert (Hn : n = d + k - 24) by lia.
  assert (E : 2 ^ (d + k - 1) = 2 ^ 23 * 2 ^ n)
    by (rewrite <- Z.pow_add_r by lia; f_equal; lia).
  rewrite E in Hb.
  change (2 ^ 24) with 16777216. change (2 ^ 23) with 8388608 in Hb.
  lia.
Qed.

Lemma pow2_pos (e : Z) : (0 < pow2 e)%Q.
Proof. apply Qpower_0_lt. reflexivity. Qed.

Lemma pow2_add (a b : Z) : (pow2 (a + b) == pow2 a * pow2 b)%Q.
Proof. apply Qpower_plus. discriminate. Qed.

Lemma pow2_nonneg (k : Z) : 0 <= k -> (pow2 k == inject_Z (2 ^ k))%Q.
Proof. intros Hk. unfold pow2. rewrite Zpower_Qpower by assumption. reflexivity. Qed.

(** Moving a power of two from the mantissa to the exponent. *)
Lemma scale_mantissa (n k e : Z) :
  0 <= k -> (inject_Z (n * 2 ^ k) * pow2 e == inject_Z n * pow2 (e + k))%Q.
Proof.
  intros Hk. rewrite inject_Z_mult, <- pow2_nonneg by assumption.
  rewrite (Z.add_comm e k), pow2_add. ring.
Qed.

Lemma to_Q_finite (s : bool) (m : positive) (e : Z) :
  B32.to_Q (S754_finite s m e) = (inject_Z (signed s m) * pow2 e)%Q.
Proof. reflexivity. Qed.

Lemma signed_abs (s : bool) (m : positive) :
  signed s m = (if s then -1 else 1) * Zpos m.
Proof. destruct s; reflexivity. Qed.

Lemma Qabs_inject (z : Z) : Qabs (inject_Z z) = inject_Z (Z.abs z).
Proof. reflexivity. Qed.

(** From the integer bound of the rounding lemmas to a relative error. *)
Lemma relative_error (s : bool) (m' mx : positive) (e' ex ez : Z) :
  ez <= ex -> ez <= e' ->
  2 ^ 24 * Z.abs (Zpos m' * 2 ^ (e' - ez) - Zpos mx * 2 ^ (ex - ez))
    <= Zpos mx * 2 ^ (ex - ez) ->
  (Qabs (B32.to_Q (S754_finite s m' e') - inject_Z (signed s mx) * pow2 ex)
   <= u * Qabs (inject_Z (signed s mx) * pow2 ex))%Q.
Proof.
  intros Hex He' Hint.
  rewrite to_Q_finite.
  set (A := Zpos m' * 2 ^ (e' - ez)) in *.
  set (B := Zpos mx * 2 ^ (ex - ez)) in *.
  set (sg := if s then -1 else 1).
  assert (EA : (inject_Z (signed s m') * pow2 e' == inject_Z (sg * A) * pow2 ez)%Q).
  { unfold A. rewrite signed_abs. fold sg.
    rewrite Z.mul_assoc, scale_mantissa by lia.
    replace (ez + (e' - ez)) with e' by lia. reflexivity. }
  assert (EB : (inject_Z (signed s mx) * pow2 ex == inject_Z (sg * B) * pow2 ez)%Q).
  { unfold B. rewrite signed_abs. fold sg.
    rewrite Z.mul_assoc, scale_mantissa by lia.
    replace (ez + (ex - ez)) with ex by lia. reflexivity. }
  rewrite EA, EB.
  assert (Hp := pow2_pos ez).
  assert (E1 : (inject_Z (sg * A) * pow2 ez - inject_Z (sg * B) * pow2 ez
                == inject_Z (sg * (A - B)) * pow2 ez)%Q).
  { rewrite !inject_Z_mult. unfold Zminus. rewrite inject_Z_plus, inject_Z_opp. ring. }
  rewrite E1, !Qabs_Qmult.
  assert (Hap : (Qabs (pow2 ez) == pow2 ez)%Q)
    by (apply Qabs_pos, Qlt_le_weak, Hp).
  rewrite Hap, !Qabs_inject.
  assert (HB : 0 < B).
  { unfold B. assert (0 < 2 ^ (ex - ez)) by (apply Z.pow_pos_nonneg; lia). nia. }
  assert (Hs1 : Z.abs (sg * (A - B)) = Z.abs (A - B)) by (unfold sg; destruct s; lia).
  assert (Hs2 : Z.abs (sg * B) = B) by (unfold sg; destruct s; lia).
  rewrite Hs1, Hs2.
  assert (Hq : (inject_Z (Z.abs (A - B)) <= u * inject_Z B)%Q).
  { unfold u. unfold Qle. cbn [Qnum Qden Qmult inject_Z].
    change (2 ^ 24) with 16777216 in Hint. lia. }
  setoid_replace (u * (inject_Z B * pow2 ez))%Q
    with ((u * inject_Z B) * pow2 ez)%Q by ring.
  apply Qmult_le_compat_r; [exact Hq | apply Qlt_le_weak, Hp].
Qed.

Lemma digits_24 (m : positive) : digits m = 24 <-> 8388608 <= Zpos m < 16777216.
Proof.
  split.
  - intros H. pose proof (digits_bounds m) as Hb. rewrite H in Hb. exact Hb.
  - intros H. apply digits_unique. exact H.
Qed.

Lemma digits_le (m : positive) (d : Z) :
  0 <= d -> Zpos m < 2 ^ d -> digits m <= d.
Proof.
  intros Hd Hm. pose proof (digits_bounds m) as Hb.
  destruct (Z.le_gt_cases (digits m) d) as [|Hgt]; [assumption|].
  exfalso. assert (2 ^ d <= 2 ^ (digits m - 1)) by (apply Z.pow_le_mono_r; lia).
  lia.
Qed.

Lemma digits_ge (m : positive) (d : Z) :
  2 ^ (d - 1) <= Zpos m -> d <= digits m.
Proof.
  intros Hm. pose proof (digits_bounds m) as Hb. pose proof (digits_pos m).
  destruct (Z.le_gt_cases d (digits m)) as [|Hgt]; [assumption|].
  exfalso. assert (2 ^ digits m <= 2 ^ (d - 1)) by (apply Z.pow_le_mono_r; lia).
  lia.
Qed.

(** *** Multiplication *)

Lemma mul_spec (sx : bool) (mx : positive) (ex : Z)
    (sy : bool) (my : positive) (ey : Z) :
  digits mx = 24 -> digits my = 24 ->
  -172 <= ex + ey <= 79 ->
  exists (m' : positive) (e' : Z),
    B32.mul (S754_finite sx mx ex) (S754_finite sy my ey)
      = S754_finite (xorb sx sy) m' e'
    /\ digits m' = 24
    /\ ex + ey + 23 <= e' <= ex + ey + 25
    /\ (Qabs (B32.to_Q (S754_finite (xorb sx sy) m' e')
              - B32.to_Q (S754_finite sx mx ex) * B32.to_Q (S754_finite sy my ey))
        <= u * Qabs (B32.to_Q (S754_finite sx mx ex)
                     * B32.to_Q (S754_finite sy my ey)))%Q.
Proof.
  intros Hdx Hdy He.
  apply digits_24 in Hdx, Hdy.
  unfold B32.mul, SFmul, B32.prec, B32.emax.
  set (p := (mx * my)%positive).
  assert (Hp : 2 ^ 46 <= Zpos p < 2 ^ 48).
  { unfold p. rewrite Pos2Z.inj_mul.
    change (2 ^ 46) with (8388608 * 8388608).
    change (2 ^ 48) with (16777216 * 16777216). nia. }
  assert (Hd : 47 <= digits p <= 48).
  { split; [apply digits_ge | apply digits_le]; lia. }
  destruct (binary_round_aux_spec (xorb sx sy) p (ex + ey) loc_Exact (Zpos p) 1)
    as (m' & e' & Hres & He' & Herr & Hcan & _).
  { lia. }
  { apply shr_inv_of_loc_Exact. lia. }
  { lia. }
  { lia. }
  exists m', e'.
  split; [exact Hres|]. split; [apply Hcan; lia|]. split; [lia|].
  assert (EV : (B32.to_Q (S754_finite sx mx ex) * B32.to_Q (S754_finite sy my ey)
               == inject_Z (signed (xorb sx sy) p) * pow2 (ex + ey))%Q).
  { rewrite !to_Q_finite, pow2_add.
    assert (Es : signed (xorb sx sy) p = signed sx mx * signed sy my)
      by (unfold p; destruct sx, sy; reflexivity).
    rewrite Es, inject_Z_mult. ring. }
  rewrite EV.
  apply (relative_error (xorb sx sy) m' p e' (ex + ey) (ex + ey)); [lia | lia |].
  replace (ex + ey - (ex + ey)) with 0 by lia.
  change (2 ^ 0) with 1. rewrite Z.mul_1_r.
  rewrite !Z.mul_1_r in Herr.
  pose proof (digits_bounds p) as Hb.
  set (n := Z.max (digits p - 24) 0) in *.
  assert (Hn : n = digits p - 24) by lia.
  assert (E : 2 ^ (digits p - 1) = 2 ^ 23 * 2 ^ n)
    by (rewrite <- Z.pow_add_r by lia; f_equal; lia).
  rewrite E in Hb.
  change (2 ^ 24) with 16777216. change (2 ^ 23) with 8388608 in Hb.
  lia.
Qed.

(** *** Addition *)

Lemma cond_Zopp_signed (s : bool) (m : positive) :
  cond_Zopp s (Zpos m) = signed s m.
Proof. destruct s; reflexivity. Qed.

Lemma add_spec (sx : bool) (mx : positive) (ex : Z)
    (sy : bool) (my : positive) (ey : Z) :
  Zpos mx < 2 ^ 24 -> Zpos my < 2 ^ 24 ->
  -126 <= ex <= 102 -> -126 <= ey <= 102 ->
  let x := S754_finite sx mx ex in
  let y := S754_finite sy my ey in
  (Qabs (B32.to_Q (B32.add x y) - (B32.to_Q x + B32.to_Q y))
   <= u * Qabs (B32.to_Q x + B32.to_Q y))%Q
  /\ (B32.add x y = S754_zero false
      \/ exists s m e, B32.add x y = S754_finite s m e /\ digits m = 24
                       /\ Z.min ex ey - 23 <= e <= Z.max ex ey + 2).
Proof.
  intros Hmx Hmy Hex Hey x y.
  unfold x, y, B32.add, SFadd, B32.prec, B32.emax.
  set (ez := Z.min ex ey).
  destruct (shl_align_spec mx ex ez) as [Hax _].
  destruct (shl_align_spec my ey ez) as [Hay _].
  replace (Z.max (ex - ez) 0) with (ex - ez) in Hax by lia.
  replace (Z.max (ey - ez) 0) with (ey - ez) in Hay by lia.
  rewrite !cond_Zopp_signed, !signed_abs, Hax, Hay.
  set (S := (if sx then -1 else 1) * (Zpos mx * 2 ^ (ex - ez))
            + (if sy then -1 else 1) * (Zpos my * 2 ^ (ey - ez))).
  assert (EV : (B32.to_Q (S754_finite sx mx ex) + B32.to_Q (S754_finite sy my ey)
               == inject_Z S * pow2 ez)%Q).
  { rewrite !to_Q_finite, !signed_abs. unfold S.
    rewrite inject_Z_plus, !Z.mul_assoc.
    rewrite Qmult_plus_distr_l.
    rewrite !scale_mantissa by lia.
    replace (ez + (ex - ez)) with ex by lia.
    replace (ez + (ey - ez)) with ey by lia. reflexivity. }
  rewrite EV.
  (* size of the aligned sum *)
  set (M := Z.max ex ey).
  assert (HS : Z.abs S < 2 ^ (25 + (M - ez))).
  { assert (Hpx : 0 < 2 ^ (ex - ez)) by (apply Z.pow_pos_nonneg; lia).
    assert (Hpy : 0 < 2 ^ (ey - ez)) by (apply Z.pow_pos_nonneg; lia).
    assert (Hlx : 2 ^ (ex - ez) <= 2 ^ (M - ez)) by (apply Z.pow_le_mono_r; lia).
    assert (Hly : 2 ^ (ey - ez) <= 2 ^ (M - ez)) by (apply Z.pow_le_mono_r; lia).
    replace (25 + (M - ez)) with (24 + 1 + (M - ez)) by lia.
    rewrite !Z.pow_add_r by lia. change (2 ^ 1) with 2.
    change (2 ^ 24) with 16777216 in *.
    unfold S. destruct sx, sy; nia. }
  destruct S as [|p|p] eqn:ES; cbn [binary_normalize].
  - (* exact cancellation *)
    split; [|left; reflexivity].
    assert (Hz : (inject_Z 0 * pow2 ez == 0)%Q)
      by (change (inject_Z 0) with 0%Q; ring).
    rewrite Hz. cbn [B32.to_Q].
    apply Qabs_Qle_condition. change (Qabs 0) with 0%Q.
    unfold u. split; unfold Qle; cbn; lia.
  - assert (Hd : 1 <= digits p <= 25 + (M - ez)).
    { split; [pose proof (digits_pos p); lia | apply digits_le; lia]. }
    destruct (binary_round_spec false p ez)
      as (m' & e' & ez' & Hres & Hcan & Hez1 & Hez2 & He' & Herr & _); [lia|].
    rewrite Hres. split.
    + apply (relative_error false m' p e' ez ez'); assumption.
    + right. exists false, m', e'. repeat split; try assumption; lia.
  - assert (Hd : 1 <= digits p <= 25 + (M - ez)).
    { split; [pose proof (digits_pos p); lia | apply digits_le; lia]. }
    destruct (binary_round_spec true p ez)
      as (m' & e' & ez' & Hres & Hcan & Hez1 & Hez2 & He' & Herr & _); [lia|].
    rewrite Hres. split.
    + apply (relative_error true m' p e' ez ez'); assumption.
    + right. exists true, m', e'. repeat split; try assumption; lia.
Qed.

(** *** Exact operations: doubling, halving by powers of two, integers *)

Lemma digits_double (m : positive) : digits m~0 = digits m + 1.
Proof. apply (digits_shift m 1 m~0); [lia | cbn; lia]. Qed.

(** Rounding an even 25-bit mantissa drops its last bit. *)
Lemma round_double (s : bool) (m : positive) (E : Z) :
  digits m = 24 -> -150 <= E <= 102 ->
  binary_round_aux 24 128 s (Zpos m~0) E loc_Exact = S754_finite s m (E + 1).
Proof.
  intros Hd HE.
  assert (Hd2 : digits m~0 = 25) by (rewrite digits_double; lia).
  destruct (binary_round_aux_spec s m~0 E loc_Exact (Zpos m~0) 1)
    as (m' & e' & Hres & He' & Herr & Hcan & _).
  { lia. }
  { apply shr_inv_of_loc_Exact. lia. }
  { rewrite Hd2. lia. }
  { rewrite Hd2. lia. }
  rewrite Hd2 in He', Herr, Hcan.
  specialize (Hcan ltac:(lia)).
  apply digits_24 in Hd, Hcan.
  replace (Z.max (25 - 24) 0) with 1 in * by lia.
  change (2 ^ 1) with 2 in Herr. rewrite !Z.mul_1_r in Herr.
  rewrite Hres.
  destruct He' as [-> | ->].
  - replace (E + 1 - E) with 1 in Herr by lia. change (2 ^ 1) with 2 in Herr.
    assert (m' = m) by lia. subst m'. reflexivity.
  - exfalso. replace (E + 1 + 1 - E) with 2 in Herr by lia.
    change (2 ^ 2) with 4 in Herr. lia.
Qed.

Lemma sub_double (m : positive) (e : Z) :
  digits m = 24 -> -150 <= e <= 102 ->
  B32.sub (S754_finite false m e) (B32.neg (S754_finite false m e))
  = S754_finite false m (e + 1).
Proof.
  intros Hd He.
  unfold B32.sub, B32.neg, SFsub, SFopp, B32.prec, B32.emax. cbn [negb].
  rewrite Z.min_id.
  destruct (shl_align_spec m e e) as [Hm _].
  replace (Z.max (e - e) 0) with 0 in Hm by lia.
  change (2 ^ 0) with 1 in Hm. rewrite Z.mul_1_r in Hm.
  cbn [cond_Zopp]. rewrite Hm.
  replace (Zpos m - - Zpos m) with (Zpos m~0) by lia.
  cbn [binary_normalize]. unfold binary_round.
  assert (Hd2 : digits m~0 = 25) by (rewrite digits_double; lia).
  fold (digits m~0). rewrite Hd2.
  rewrite (fexp_normal (25 + e)) by lia.
  destruct (shl_align_spec m~0 e (25 + e - 24)) as [Hz He2].
  replace (Z.max (e - (25 + e - 24)) 0) with 0 in Hz, He2 by lia.
  change (2 ^ 0) with 1 in Hz. rewrite Z.mul_1_r in Hz.
  destruct (shl_align m~0 e (25 + e - 24)) as [mz ez].
  cbn [fst snd] in Hz, He2.
  assert (mz = m~0%positive) by lia. subst mz.
  replace ez with e by lia.
  apply round_double; assumption.
Qed.

Lemma div_pow2 (m : positive) (e k : Z) :
  digits m = 24 -> -125 <= e - k <= 103 ->
  B32.div (S754_finite false m e) (S754_finite false 8388608 (k - 23))
  = S754_finite false m (e - k).
Proof.
  intros Hd He.
  unfold B32.div, SFdiv, SFdiv_core_binary, B32.prec, B32.emax.
  cbn [Zdigits2 xorb]. fold (digits m). rewrite Hd.
  change (Zpos (digits2_pos 8388608)) with 24.
  replace (24 + e - (24 + (k - 23))) with (e - (k - 23)) by lia.
  rewrite (fexp_normal (e - (k - 23))) by lia.
  replace (Z.min (e - (k - 23) - 24) (e - (k - 23))) with (e - (k - 23) - 24)
    by lia.
  replace (e - (k - 23) - (e - (k - 23) - 24)) with 24 by lia.
  rewrite Z.shiftl_mul_pow2 by lia.
  pose proof (Z_div_mod (Zpos m * 2 ^ 24) 8388608 eq_refl) as Hdm.
  destruct (Z.div_eucl (Zpos m * 2 ^ 24) 8388608) as [q r].
  change (2 ^ 24) with 16777216 in Hdm.
  assert (Hq : q = Zpos m~0) by lia.
  assert (Hr : r = 0) by lia.
  subst q r.
  change (new_location 8388608 0) with loc_Exact.
  rewrite round_double by (assumption || lia).
  f_equal. lia.
Qed.

Lemma of_Z_spec (c : Z) :
  0 < c < 2 ^ 24 ->
  exists (m : positive) (e : Z),
    B32.of_Z c = S754_finite false m e
    /\ digits m = 24 /\ -23 <= e <= 0
    /\ 2 ^ (e + 23) <= c
    /\ (B32.to_Q (S754_finite false m e) == inject_Z c)%Q.
Proof.
  intros Hc. destruct c as [|p|p]; [lia | | lia].
  unfold B32.of_Z, B32.prec, B32.emax. cbn [binary_normalize].
  pose proof (digits_pos p) as Hdp.
  assert (Hd : digits p <= 24) by (apply digits_le; lia).
  destruct (binary_round_spec false p 0)
    as (m' & e' & ez' & Hres & Hcan & _ & _ & _ & _ & Hex); [lia|].
  destruct (Hex Hd) as [Hm' He'].
  exists m', e'. split; [exact Hres|]. split; [exact Hcan|].
  split; [lia|]. split.
  - replace (e' + 23) with (digits p - 1) by lia.
    apply digits_bounds.
  - rewrite to_Q_finite. cbn [signed]. rewrite Hm', He'.
    rewrite scale_mantissa by lia.
    replace (0 - (24 - digits p) + (24 - digits p)) with 0 by lia.
    change (pow2 0) with 1%Q. ring.
Qed.

(** *** The transfer function of a bipolar range *)

Section Bipolar.

Variable mP : positive.
Variable eP : Z.
Variable N : Z.
Hypothesis HmP : digits mP = 24.
Hypothesis HeP : -100 <= eP <= 100.
Hypothesis HN : N = 16 \/ N = 18.

Local Abbreviation P := (S754_finite false mP eP).
Local Abbreviation NFS := (S754_finite true mP eP).
Local Abbreviation LSB := (bipolar_LSB P N).
Local Abbreviation vol := (bipolar_volts P N).

Lemma bipolar_LSB_eq : LSB = S754_finite false mP (eP + 1 - N).
Proof.
  unfold bipolar_LSB. rewrite sub_double by (assumption || lia).
  assert (E : B32.of_Z (2 ^ N) = S754_finite false 8388608 (N - 23))
    by (destruct HN as [-> | ->]; reflexivity).
  rewrite E, div_pow2 by (assumption || lia).
  f_equal.
Qed.

Lemma bipolar_vol_0 : vol 0 = NFS.
Proof. unfold bipolar_volts. rewrite bipolar_LSB_eq. reflexivity. Qed.

Lemma bipolar_LSB_value :
  (B32.to_Q LSB * inject_Z (2 ^ N) == 2 * B32.to_Q P)%Q.
Proof.
  rewrite bipolar_LSB_eq. rewrite !to_Q_finite. cbn [signed].
  rewrite <- pow2_nonneg by (destruct HN; lia).
  rewrite <- Qmult_assoc, <- pow2_add.
  replace (eP + 1 - N + N) with (eP + 1) by lia.
  rewrite pow2_add. change (pow2 1) with 2%Q. ring.
Qed.

Lemma bipolar_P_pos : (0 < B32.to_Q P)%Q.
Proof.
  rewrite to_Q_finite. cbn [signed].
  apply Qmult_lt_0_compat; [reflexivity | apply pow2_pos].
Qed.

(** The voltage of a code, up to the two roundings that produce it. *)
Lemma bipolar_vol_approx (c : Z) :
  0 <= c <= 2 ^ N - 1 ->
  exists X : Q,
    (Qabs (X - inject_Z c * B32.to_Q LSB) <= u * (inject_Z c * B32.to_Q LSB)
     /\ 0 <= X
     /\ Qabs (B32.to_Q (vol c) - (X - B32.to_Q P)) <= u * Qabs (X - B32.to_Q P))%Q
    /\ (vol c = S754_zero false
        \/ exists s m e, vol c = S754_finite s m e /\ digits m = 24).
Proof.
  intros Hc.
  assert (HLpos : (0 < B32.to_Q LSB)%Q).
  { rewrite bipolar_LSB_eq, to_Q_finite. cbn [signed].
    apply Qmult_lt_0_compat; [reflexivity | apply pow2_pos]. }
  destruct (Z.eq_dec c 0) as [-> | Hc0].
  - exists 0%Q. rewrite bipolar_vol_0. split; [split; [|split]|].
    + change (inject_Z 0) with 0%Q.
      apply Qabs_Qle_condition. unfold u. split; lra.
    + lra.
    + rewrite !to_Q_finite. cbn [signed].
      change (Zneg mP) with (- Zpos mP). rewrite inject_Z_opp.
      apply Qabs_Qle_condition.
      assert (Hp := bipolar_P_pos). rewrite to_Q_finite in Hp.
      cbn [signed] in Hp.
      assert (Ha : (Qabs (0 - inject_Z (Zpos mP) * pow2 eP)
                    == inject_Z (Zpos mP) * pow2 eP)%Q).
      { rewrite Qabs_neg by lra. ring. }
      rewrite Ha. unfold u. split; lra.
    + right. exists true, mP, eP. split; [reflexivity | assumption].
  - assert (Hc24 : 0 < c < 2 ^ 24).
    { assert (2 ^ N <= 2 ^ 24) by (apply Z.pow_le_mono_r; destruct HN; lia). lia. }
    destruct (of_Z_spec c Hc24) as (mc & ec & Hof & Hdc & Hec & Hclo & Hcv).
    assert (HecN : ec <= N - 24).
    { destruct (Z.le_gt_cases ec (N - 24)) as [|Hgt]; [assumption|].
      exfalso. assert (2 ^ N <= 2 ^ (ec + 23)) by (apply Z.pow_le_mono_r; destruct HN; lia).
      lia. }
    destruct (mul_spec false mc ec false mP (eP + 1 - N) Hdc HmP)
      as (mX & eX & Hmul & HdX & HeX & HerrX); [destruct HN; lia|].
    cbn [xorb] in Hmul, HerrX.
    unfold bipolar_volts. rewrite bipolar_LSB_eq, Hof, Hmul. cbn [B32.neg SFopp negb].
    exists (B32.to_Q (S754_finite false mX eX)).
    rewrite Hcv in HerrX.
    assert (Hcpos : (0 < inject_Z c)%Q)
      by (change 0%Q with (inject_Z 0); rewrite <- Zlt_Qlt; lia).
    assert (HLv : (0 < B32.to_Q (S754_finite false mP (eP + 1 - N)))%Q)
      by (rewrite <- bipolar_LSB_eq; exact HLpos).
    assert (Hprod : (0 < inject_Z c * B32.to_Q (S754_finite false mP (eP + 1 - N)))%Q)
      by (apply Qmult_lt_0_compat; assumption).
    rewrite (Qabs_pos (inject_Z c * _)) in HerrX by lra.
    apply digits_24 in HdX as HdX', HmP as HmP'.
    destruct (add_spec true mP eP false mX eX) as [Hadd Hcan];
      [change (2 ^ 24) with 16777216; lia
      | change (2 ^ 24) with 16777216; lia | lia | destruct HN; lia |].
    cbv zeta in Hadd, Hcan.
    split; [split; [exact HerrX | split]|].
    + rewrite to_Q_finite. cbn [signed].
      apply Qmult_le_0_compat; [discriminate | apply Qlt_le_weak, pow2_pos].
    + assert (E : (B32.to_Q (S754_finite false mX eX) - B32.to_Q (S754_finite false mP eP)
                   == B32.to_Q (S754_finite true mP eP) + B32.to_Q (S754_finite false mX eX))%Q).
      { rewrite !to_Q_finite. cbn [signed].
        change (Zneg mP) with (- Zpos mP). rewrite inject_Z_opp. ring. }
      rewrite E. exact Hadd.
    + destruct Hcan as [Hz | (s & m & e & Hf & Hd & _)];
        [left; exact Hz | right; exists s, m, e; split; assumption].
Qed.

(** Strictly increasing: the spacing [LSB] of the exact voltages is more
    than twice the error the two roundings can add. *)
Lemma bipolar_vol_increasing (c1 c2 : Z) :
  0 <= c1 -> c1 < c2 -> c2 <= 2 ^ N - 1 ->
  (B32.to_Q (vol c1) < B32.to_Q (vol c2))%Q.
Proof.
  intros H1 H12 H2.
  destruct (bipolar_vol_approx c1 ltac:(lia)) as (X1 & (HX1 & HX1pos & HF1) & _).
  destruct (bipolar_vol_approx c2 ltac:(lia)) as (X2 & (HX2 & HX2pos & HF2) & _).
  pose proof bipolar_P_pos as HP.
  pose proof bipolar_LSB_value as HL.
  set (Pq := B32.to_Q P) in *.
  set (L := B32.to_Q LSB) in *.
  set (F1 := B32.to_Q (vol c1)) in *.
  set (F2 := B32.to_Q (vol c2)) in *.
  assert (HC1 : (0 <= inject_Z c1)%Q)
    by (change 0%Q with (inject_Z 0); rewrite <- Zle_Qle; lia).
  assert (HC12 : (inject_Z c1 + 1 <= inject_Z c2)%Q).
  { change 1%Q with (inject_Z 1). rewrite <- inject_Z_plus, <- Zle_Qle. lia. }
  assert (HC2 : (inject_Z c2 + 1 <= inject_Z (2 ^ N))%Q).
  { change 1%Q with (inject_Z 1). rewrite <- inject_Z_plus, <- Zle_Qle. lia. }
  assert (HK : (128 * 1024 <= inject_Z (2 ^ N) * 2)%Q /\ (inject_Z (2 ^ N) <= 262144)%Q).
  { destruct HN as [-> | ->]; split; unfold Qle; cbn; lia. }
  assert (HLpos : (0 < L)%Q) by nra.
  assert (HT1 : (0 <= inject_Z c1 * L)%Q) by nra.
  assert (HT12 : (inject_Z c1 * L + L <= inject_Z c2 * L)%Q) by nra.
  assert (HT2 : (inject_Z c2 * L + L <= 2 * Pq)%Q) by nra.
  assert (HLP : (Pq <= 131072 * L)%Q) by nra.
  clear HC1 HC12 HC2 HL.
  set (T1 := (inject_Z c1 * L)%Q) in *.
  set (T2 := (inject_Z c2 * L)%Q) in *.
  clearbody T1 T2 F1 F2 L Pq.
  apply Qabs_Qle_condition in HX1, HX2.
  assert (HB1 : (Qabs (X1 - Pq) <= 3 * Pq)%Q)
    by (apply Qabs_Qle_condition; unfold u in *; split; lra).
  assert (HB2 : (Qabs (X2 - Pq) <= 3 * Pq)%Q)
    by (apply Qabs_Qle_condition; unfold u in *; split; lra).
  assert (HG1 : (Qabs (F1 - (X1 - Pq)) <= u * (3 * Pq))%Q).
  { eapply Qle_trans; [exact HF1|]. apply Qmult_le_l; [reflexivity | exact HB1]. }
  assert (HG2 : (Qabs (F2 - (X2 - Pq)) <= u * (3 * Pq))%Q).
  { eapply Qle_trans; [exact HF2|]. apply Qmult_le_l; [reflexivity | exact HB2]. }
  apply Qabs_Qle_condition in HG1, HG2.
  unfold u in *. lra.
Qed.

End Bipolar.

Lemma pow2_ge_1 (k : Z) : 0 <= k -> (1 <= pow2 k)%Q.
Proof.
  intros Hk. rewrite pow2_nonneg by assumption.
  change 1%Q with (inject_Z 1). rewrite <- Zle_Qle.
  assert (0 < 2 ^ k) by (apply Z.pow_pos_nonneg; lia). lia.
Qed.

Lemma pow2_step (a b : Z) : a < b -> (2 * pow2 a <= pow2 b)%Q.
Proof.
  intros Hab. replace b with (a + 1 + (b - a - 1)) by lia.
  rewrite !pow2_add. change (pow2 1) with 2%Q.
  pose proof (pow2_pos a). pose proof (pow2_ge_1 (b - a - 1) ltac:(lia)).
  nra.
Qed.

(** Among positive floats with 24-bit mantissas the order of the values is
    the order of the pairs (exponent, mantissa). *)
Lemma canonical_order (ma mb : positive) (ea eb : Z) :
  digits ma = 24 -> digits mb = 24 ->
  (inject_Z (Zpos ma) * pow2 ea < inject_Z (Zpos mb) * pow2 eb)%Q ->
  ea < eb \/ (ea = eb /\ Zpos ma < Zpos mb).
Proof.
  intros Ha Hb Hlt. apply digits_24 in Ha, Hb.
  assert (Ha1 : (8388608 <= inject_Z (Zpos ma))%Q)
    by (change 8388608%Q with (inject_Z 8388608); rewrite <- Zle_Qle; lia).
  assert (Hb1 : (inject_Z (Zpos mb) + 1 <= 16777216)%Q).
  { change 16777216%Q with (inject_Z 16777216). change 1%Q with (inject_Z 1).
    rewrite <- inject_Z_plus, <- Zle_Qle. lia. }
  pose proof (pow2_pos ea). pose proof (pow2_pos eb).
  destruct (Z.lt_trichotomy ea eb) as [Hl | [He | Hg]].
  - left. assumption.
  - right. split; [assumption|]. subst eb.
    rewrite Zlt_Qlt. nra.
  - exfalso. pose proof (pow2_step eb ea Hg). nra.
Qed.

(** On zeros and floats with 24-bit mantissas, [<] is the order of the
    values. *)
Lemma SFltb_of_value_lt (a b : spec_float) :
  zero_or_canonical a -> zero_or_canonical b ->
  (B32.to_Q a < B32.to_Q b)%Q -> SFltb a b = true.
Proof.
  intros Ha Hb Hlt. apply SFltb_key.
  assert (Hsign : forall s m e,
            (s = true -> (B32.to_Q (S754_finite s m e) < 0)%Q) /\
            (s = false -> (0 < B32.to_Q (S754_finite s m e))%Q)).
  { intros s m e. rewrite to_Q_finite. pose proof (pow2_pos e).
    assert (0 < inject_Z (Zpos m))%Q by reflexivity.
    split; intros ->; cbn [signed].
    - change (Zneg m) with (- Zpos m). rewrite inject_Z_opp. nra.
    - nra. }
  destruct Ha as [[sa ->] | (sa & ma & ea & -> & Hda)],
           Hb as [[sb ->] | (sb & mb & eb & -> & Hdb)];
    (split; [discriminate | split; [discriminate|]]).
  - cbn [B32.to_Q] in Hlt. lra.
  - destruct (Hsign sb mb eb) as [Hn Hp]. destruct sb; cbn [key key_lt].
    + exfalso. specialize (Hn eq_refl).
      change (B32.to_Q (S754_zero sa)) with 0%Q in Hlt. lra.
    + destruct sa; cbn; lia.
  - destruct (Hsign sa ma ea) as [Hn Hp]. destruct sa; cbn [key key_lt].
    + destruct sb; cbn; lia.
    + exfalso. specialize (Hp eq_refl).
      change (B32.to_Q (S754_zero sb)) with 0%Q in Hlt. lra.
  - destruct (Hsign sa ma ea) as [Hna Hpa]. destruct (Hsign sb mb eb) as [Hnb Hpb].
    destruct sa, sb; cbn [key key_lt];
      try specialize (Hna eq_refl); try specialize (Hpa eq_refl);
      try specialize (Hnb eq_refl); try specialize (Hpb eq_refl).
    + (* both negative *)
      rewrite !to_Q_finite in Hlt. cbn [signed] in Hlt.
      change (Zneg ma) with (- Zpos ma) in Hlt.
      change (Zneg mb) with (- Zpos mb) in Hlt.
      rewrite !inject_Z_opp in Hlt.
      destruct (canonical_order mb ma eb ea Hdb Hda) as [H | [H1 H2]]; [lra | lia | lia].
    + lia.
    + exfalso. lra.
    + rewrite !to_Q_finite in Hlt. cbn [signed] in Hlt.
      destruct (canonical_order ma mb ea eb Hda Hdb Hlt) as [H | [H1 H2]]; lia.
Qed.

(** ** Bipolar ranges *)

Lemma bipolar_multiplier (code : Z) :
  snd (adsxRangeMultiplier spec_float code) = true ->
  exists (mm : positive) (em : Z),
    fst (adsxRangeMultiplier spec_float code) = S754_finite false mm em
    /\ digits mm = 24 /\ -24 <= em <= -22.
Proof.
  intros Hb. pose proof (bipolar_selectors code Hb) as Hsel.
  cbv zeta in Hsel.
  rewrite <- (adsxRangeMultiplier_land (F:=spec_float) code).
  destruct Hsel as [-> | [-> | [-> | [-> | ->]]]];
    [exists 12582912%positive, (-22) | exists 10485760%positive, (-22)
    | exists 12582912%positive, (-23) | exists 10485760%positive, (-23)
    | exists 10485760%positive, (-24)];
    (split; [reflexivity | split; [reflexivity | lia]]).
Qed.

Lemma volts_is_bipolar (cfg : Config spec_float) (g : Globals spec_float)
    (code : Z) :
  bits_ok (ADSX_BITS cfg) ->
  snd (adsxRangeMultiplier spec_float (g_range_code g)) = true ->
  0 <= code <= 2 ^ ADSX_BITS cfg - 1 ->
  adsxCodeToVolts cfg g code
  = bipolar_volts
      (B32.mul (fst (adsxRangeMultiplier spec_float (g_range_code g)))
               (g_vref_volts g))
      (ADSX_BITS cfg) code.
Proof.
  intros Hbits Hb Hc.
  rewrite (adsxCodeToVolts_unclamped cfg Hbits)
    by (apply in_range_not_clamped; [assumption | lia]).
  unfold transfer. rewrite Hb. reflexivity.
Qed.

(** C8. For a bipolar range and a reference voltage that is a normal
    binary32 number between 2^-76 and 2^121 (4.096 is one), code 0 converts
    to [-(multiplier * reference)], exactly, and the voltage is strictly
    increasing in the code over [0, 2^N - 1]: as a number, and under the
    [<] of the floats. *)
Theorem bipolar_zero_and_monotone
    (cfg : Config spec_float) (g : Globals spec_float)
    (m : positive) (e : Z) :
  bits_ok (ADSX_BITS cfg) ->
  snd (adsxRangeMultiplier spec_float (g_range_code g)) = true ->
  g_vref_volts g = S754_finite false m e ->
  2 ^ 23 <= Zpos m < 2 ^ 24 ->
  -99 <= e <= 97 ->
  adsxCodeToVolts cfg g 0
  = f_neg (f_mul (fst (adsxRangeMultiplier spec_float (g_range_code g)))
                 (g_vref_volts g))
  /\ forall c1 c2 : Z,
       0 <= c1 -> c1 < c2 -> c2 <= 2 ^ ADSX_BITS cfg - 1 ->
       (B32.to_Q (adsxCodeToVolts cfg g c1)
        < B32.to_Q (adsxCodeToVolts cfg g c2))%Q
       /\ SFltb (adsxCodeToVolts cfg g c1) (adsxCodeToVolts cfg g c2) = true.
Proof.
  intros Hbits Hb Hv Hm He.
  destruct (bipolar_multiplier _ Hb) as (mm & em & Hmult & Hdmm & Hem).
  assert (Hdm : digits m = 24) by (apply digits_24; exact Hm).
  destruct (mul_spec false mm em false m e Hdmm Hdm)
    as (mP & eP & HP & HdP & HeP & _); [lia|].
  cbn [xorb] in HP.
  assert (Hpow : 0 < 2 ^ ADSX_BITS cfg - 1)
    by (destruct Hbits as [-> | ->]; lia).
  assert (Hvol : forall c, 0 <= c <= 2 ^ ADSX_BITS cfg - 1 ->
            adsxCodeToVolts cfg g c
            = bipolar_volts (S754_finite false mP eP) (ADSX_BITS cfg) c).
  { intros c Hc. rewrite volts_is_bipolar by assumption.
    rewrite Hmult, Hv, HP. reflexivity. }
  assert (HeP' : -100 <= eP <= 100) by lia.
  split.
  - rewrite Hvol by lia.
    rewrite (bipolar_vol_0 mP eP (ADSX_BITS cfg) HdP HeP' Hbits).
    rewrite Hmult, Hv.
    change (f_mul (S754_finite false mm em) (S754_finite false m e))
      with (B32.mul (S754_finite false mm em) (S754_finite false m e)).
    rewrite HP. reflexivity.
  - intros c1 c2 H1 H12 H2.
    rewrite (Hvol c1), (Hvol c2) by lia.
    pose proof (bipolar_vol_increasing mP eP (ADSX_BITS cfg) HdP HeP' Hbits
                  c1 c2 H1 H12 H2) as Hlt.
    split; [exact Hlt|].
    apply SFltb_of_value_lt; [| | exact Hlt].
    + destruct (bipolar_vol_approx mP eP (ADSX_BITS cfg) HdP HeP' Hbits c1
                  ltac:(lia)) as (_ & _ & [Hz | Hf]).
      * left. exists false. exact Hz.
      * right. exact Hf.
    + destruct (bipolar_vol_approx mP eP (ADSX_BITS cfg) HdP HeP' Hbits c2
                  ltac:(lia)) as (_ & _ & [Hz | Hf]).
      * left. exists false. exact Hz.
      * right. exact Hf.
Qed.

(** ** The reference voltage *)

Section Vref.

Context {F : Type} {FA : FloatArith F}.
Variable miso : nat -> Z.
Variable cfg : Config F.

Lemma adsxSetVrefVolts_vref (v : F) (st : State F) :
  g_vref_volts (globals (snd (adsxSetVrefVolts v st)))
  = if f_gt v (f_dec 0 1) then v else g_vref_volts (globals st).
Proof.
  rewrite globals_adsxSetVrefVolts.
  destruct (f_gt v (f_dec 0 1)); reflexivity.
Qed.

Lemma setup_vref (st : State F) :
  g_vref_volts (globals (snd (setup miso cfg st)))
  = if f_gt (f_dec 4096 3) (f_dec 0 1) then f_dec 4096 3
    else g_vref_volts (globals st).
Proof.
  rewrite setup_globals. unfold globals_after_setup.
  destruct (fit_succeeds cfg), (f_gt (f_dec 4096 3) (f_dec 0 1));
    reflexivity.
Qed.

(** Every function other than [adsxSetVrefVolts] and [setup], which calls
    it, leaves [g_vref_volts] as it was. *)
Lemma call_keeps_vref (op : Operation F) (st : State F) :
  (forall v, op <> Call_adsxSetVrefVolts v) ->
  op <> Call_setup ->
  g_vref_volts (globals (call miso cfg op st)) = g_vref_volts (globals st).
Proof.
  intros Hv Hs. destruct op; cbn [call].
  - destruct (xfer32_spec miso cfg b0 b1 b2 b3 st) as (_ & _ & ->).
    reflexivity.
  - unfold frameNOP.
    destruct (xfer32_spec miso cfg 0 0 0 0 st) as (_ & _ & ->).
    reflexivity.
  - rewrite globals_writeRegHWord. reflexivity.
  - exfalso. exact (Hv vref_volts eq_refl).
  - rewrite globals_adsxSetRange. reflexivity.
  - destruct (adsxReadCodeRaw32_spec miso cfg st) as (_ & _ & ->).
    reflexivity.
  - destruct (adsxReadCodeNbits_spec miso cfg st) as (_ & _ & ->).
    reflexivity.
  - rewrite globals_adsxReadAveragedVolts. reflexivity.
  - exfalso. exact (Hs eq_refl).
  - rewrite globals_loop. reflexivity.
Qed.

Lemma call_vref_positive (op : Operation F) (st : State F) :
  vref_positive (globals st) = true ->
  vref_positive (globals (call miso cfg op st)) = true.
Proof.
  intros Hpos. unfold vref_positive in *.
  destruct op;
    try (rewrite call_keeps_vref by (intros; discriminate); exact Hpos).
  - cbn [call]. rewrite adsxSetVrefVolts_vref.
    destruct (f_gt vref_volts (f_dec 0 1)) eqn:Hgt; assumption.
  - cbn [call]. rewrite setup_vref.
    destruct (f_gt (f_dec 4096 3) (f_dec 0 1)) eqn:Hgt; assumption.
Qed.

Lemma calls_vref_positive (ops : list (Operation F)) :
  forall st : State F,
    vref_positive (globals st) = true ->
    vref_positive (globals (calls miso cfg ops st)) = true.
Proof.
  induction ops as [|op ops IH]; intros st Hpos.
  - exact Hpos.
  - cbn [calls fold_left]. apply IH. apply call_vref_positive. exact Hpos.
Qed.

End Vref.

(** The literal [0.0f]. *)
Lemma zero_literal : B32.dec 0 1 = S754_zero false.
Proof. reflexivity. Qed.

(** C10. The reference voltage stays strictly positive: [adsxSetVrefVolts]
    stores its argument only when it is greater than zero and otherwise
    leaves the stored value alone; no other function writes it, except that
    [setup] calls [adsxSetVrefVolts(4.096f)]; so after any sequence of calls
    from the initial state the stored value is greater than zero. *)
Theorem vref_stays_positive
    (miso : nat -> Z) (cfg : Config spec_float) :
  (forall (v : spec_float) (st : State spec_float),
     g_vref_volts (globals (snd (adsxSetVrefVolts v st)))
     = if SFltb (S754_zero false) v then v else g_vref_volts (globals st))
  /\ (forall (op : Operation spec_float) (st : State spec_float),
        (forall v, op <> Call_adsxSetVrefVolts v) ->
        op <> Call_setup ->
        g_vref_volts (globals (call miso cfg op st))
        = g_vref_volts (globals st))
  /\ (forall ops : list (Operation spec_float),
        SFltb (S754_zero false)
          (g_vref_volts (globals (calls miso cfg ops (initial_state cfg))))
        = true).
Proof.
  split; [|split].
  - intros v st. rewrite (adsxSetVrefVolts_vref v st). reflexivity.
  - intros op st. apply call_keeps_vref.
  - intros ops.
    exact (calls_vref_positive miso cfg ops (initial_state cfg) eq_refl).
Qed.

(** ** Exact arithmetic: the fit reproduces its two points *)

Module ExactFacts.

Lemma ne_true (a b : Qc) : Exact.ne a b = true -> a <> b.
Proof.
  unfold Exact.ne. intros H Hab. subst b.
  rewrite Qeq_bool_refl in H. discriminate.
Qed.

Lemma round_trip (a1 m1 a2 m2 : Qc) :
  m2 <> m1 ->
  let slope := ((a2 - a1) / (m2 - m1))%Qc in
  let offset := (a1 - slope * m1)%Qc in
  (offset + slope * m1 = a1 /\ offset + slope * m2 = a2)%Qc.
Proof.
  intros Hne slope offset. unfold offset, slope.
  assert (Hd : (m2 - m1 <> 0)%Qc).
  { intros H. apply Hne.
    transitivity ((m2 - m1) + m1)%Qc; [ring | rewrite H; ring]. }
  split; field; exact Hd.
Qed.

End ExactFacts.

(** ** Rounding in the fit and in the correction *)

(** *** Division *)

(** The location [SFdiv_core_binary] computes from the remainder places
    the quotient as [shr] expects. *)
Lemma new_location_inv (q r d : Z) :
  0 <= q -> 0 < d -> 0 <= r < d ->
  shr_inv (q * d + r) d (shr_record_of_loc q (new_location d r)).
Proof.
  intros Hq Hd Hr. unfold shr_inv, new_location, new_location_even,
    new_location_odd.
  destruct (Z.even d) eqn:Hev; destruct (Z.eqb_spec r 0) as [-> | Hr0].
  - cbn [shr_record_of_loc shr_m shr_r shr_s].
    replace (q * d + 0 - q * d) with 0 by lia.
    split; [lia | split; [lia | split; bool_arith]].
  - destruct (Z.compare_spec (2 * r) d);
      cbn [shr_record_of_loc shr_m shr_r shr_s];
      replace (q * d + r - q * d) with r by lia;
      (split; [lia | split; [lia | split; bool_arith]]).
  - cbn [shr_record_of_loc shr_m shr_r shr_s].
    replace (q * d + 0 - q * d) with 0 by lia.
    split; [lia | split; [lia | split; bool_arith]].
  - assert (Hodd : 2 * r <> d).
    { intros E. rewrite <- E, Z.even_mul in Hev. discriminate. }
    destruct (Z.compare_spec (2 * r + 1) d);
      cbn [shr_record_of_loc shr_m shr_r shr_s];
      replace (q * d + r - q * d) with r by lia;
      (split; [lia | split; [lia | split; bool_arith]]).
Qed.

(** From the integer bound to a relative error, for a value [X / W]. *)
Lemma relative_error_frac (s : bool) (m' : positive) (e' ez X W : Z) :
  ez <= e' -> 0 < W -> 0 < X ->
  2 ^ 24 * Z.abs (Zpos m' * 2 ^ (e' - ez) * W - X) <= X ->
  let v := (inject_Z ((if s then -1 else 1) * X) / inject_Z W * pow2 ez)%Q in
  (Qabs (B32.to_Q (S754_finite s m' e') - v) <= u * Qabs v)%Q.
Proof.
  intros He' HW HX Hint v. unfold v.
  rewrite to_Q_finite.
  set (A := Zpos m' * 2 ^ (e' - ez)) in *.
  set (sg := if s then -1 else 1).
  assert (HWq : (0 < inject_Z W)%Q)
    by (change 0%Q with (inject_Z 0); rewrite <- Zlt_Qlt; lia).
  set (k := (/ inject_Z W * pow2 ez)%Q).
  assert (Hk : (0 < k)%Q).
  { unfold k. apply Qmult_lt_0_compat; [apply Qinv_lt_0_compat, HWq | apply pow2_pos]. }
  assert (EA : (inject_Z (signed s m') * pow2 e' == inject_Z (sg * (A * W)) * k)%Q).
  { unfold A, k. rewrite signed_abs. fold sg.
    transitivity (inject_Z (sg * Zpos m' * 2 ^ (e' - ez)) * pow2 ez)%Q.
    - rewrite scale_mantissa by lia.
      replace (ez + (e' - ez)) with e' by lia. reflexivity.
    - replace (sg * (Zpos m' * 2 ^ (e' - ez) * W))
        with (sg * Zpos m' * 2 ^ (e' - ez) * W) by ring.
      rewrite (inject_Z_mult _ W). field. lra. }
  assert (EV : (inject_Z (sg * X) / inject_Z W * pow2 ez == inject_Z (sg * X) * k)%Q).
  { unfold k. field. lra. }
  rewrite EA, EV.
  assert (E1 : (inject_Z (sg * (A * W)) * k - inject_Z (sg * X) * k
                == inject_Z (sg * (A * W - X)) * k)%Q).
  { rewrite !inject_Z_mult. unfold Zminus.
    rewrite inject_Z_plus, inject_Z_opp, inject_Z_mult. ring. }
  rewrite E1, !Qabs_Qmult.
  assert (Hak : (Qabs k == k)%Q) by (apply Qabs_pos, Qlt_le_weak, Hk).
  rewrite Hak, !Qabs_inject.
  assert (Hs1 : Z.abs (sg * (A * W - X)) = Z.abs (A * W - X))
    by (unfold sg; destruct s; lia).
  assert (Hs2 : Z.abs (sg * X) = X) by (unfold sg; destruct s; lia).
  rewrite Hs1, Hs2.
  assert (Hq : (inject_Z (Z.abs (A * W - X)) <= u * inject_Z X)%Q).
  { unfold u. unfold Qle. cbn [Qnum Qden Qmult inject_Z].
    change (2 ^ 24) with 16777216 in Hint. lia. }
  setoid_replace (u * (inject_Z X * k))%Q with ((u * inject_Z X) * k)%Q by ring.
  apply Qmult_le_compat_r; [exact Hq | apply Qlt_le_weak, Hk].
Qed.

Lemma div_spec (sx : bool) (mx : positive) (ex : Z)
    (sy : bool) (my : positive) (ey : Z) :
  digits mx = 24 -> digits my = 24 ->
  -125 <= ex - ey <= 126 ->
  exists (m' : positive) (e' : Z),
    B32.div (S754_finite sx mx ex) (S754_finite sy my ey)
      = S754_finite (xorb sx sy) m' e'
    /\ digits m' = 24
    /\ ex - ey - 24 <= e' <= ex - ey - 22
    /\ (Qabs (B32.to_Q (S754_finite (xorb sx sy) m' e')
              - B32.to_Q (S754_finite sx mx ex) / B32.to_Q (S754_finite sy my ey))
        <= u * Qabs (B32.to_Q (S754_finite sx mx ex)
                     / B32.to_Q (S754_finite sy my ey)))%Q.
Proof.
  intros Hdx Hdy He.
  unfold B32.div, SFdiv, SFdiv_core_binary, B32.prec, B32.emax.
  cbn [Zdigits2]. fold (digits mx). fold (digits my). rewrite Hdx, Hdy.
  replace (24 + ex - (24 + ey)) with (ex - ey) by lia.
  rewrite (fexp_normal (ex - ey)) by lia.
  replace (Z.min (ex - ey - 24) (ex - ey)) with (ex - ey - 24) by lia.
  replace (ex - ey - (ex - ey - 24)) with 24 by lia.
  rewrite Z.shiftl_mul_pow2 by lia.
  apply digits_24 in Hdx as Hbx, Hdy as Hby.
  set (X := Zpos mx * 2 ^ 24).
  pose proof (Z_div_mod X (Zpos my) eq_refl) as Hdm.
  destruct (Z.div_eucl X (Zpos my)) as [q r].
  destruct Hdm as [HXqr Hr].
  change (2 ^ 24) with 16777216 in X.
  assert (Hq : 8388608 <= q < 33554432) by (unfold X in HXqr; nia).
  destruct q as [|qp|qp]; [lia | | lia].
  assert (Hdq : 24 <= digits qp <= 25).
  { split; [apply digits_ge | apply digits_le]; 
      try change (2 ^ (24 - 1)) with 8388608;
      try change (2 ^ 25) with 33554432; lia. }
  destruct (binary_round_aux_spec (xorb sx sy) qp (ex - ey - 24)
              (new_location (Zpos my) r) X (Zpos my))
    as (m' & e' & Hres & He' & Herr & Hcan & _).
  { lia. }
  { replace X with (Zpos qp * Zpos my + r) by lia.
    apply new_location_inv; lia. }
  { lia. }
  { lia. }
  exists m', e'.
  split; [exact Hres|]. split; [apply Hcan; lia|].
  split; [lia|].
  assert (HX0 : 0 < X) by (unfold X; lia).
  assert (EV : (B32.to_Q (S754_finite sx mx ex) / B32.to_Q (S754_finite sy my ey)
               == inject_Z ((if xorb sx sy then -1 else 1) * X)
                  / inject_Z (Zpos my) * pow2 (ex - ey - 24))%Q).
  { rewrite !to_Q_finite, !signed_abs. unfold X.
    assert (Hmy : ~ (inject_Z (Zpos my) == 0)%Q) by discriminate.
    assert (Hpy := pow2_pos ey).
    replace ex with ((ex - ey - 24) + 24 + ey) at 1 by lia.
    rewrite !pow2_add. change (pow2 24) with 16777216%Q.
    rewrite !inject_Z_mult. change (inject_Z 16777216) with 16777216%Q.
    assert (Es : (inject_Z (if xorb sx sy then -1 else 1)
                  == inject_Z (if sx then -1 else 1) / inject_Z (if sy then -1 else 1))%Q)
      by (destruct sx, sy; reflexivity).
    rewrite Es. field. repeat split; try lra. destruct sy; discriminate. }
  rewrite EV.
  apply relative_error_frac; [lia | lia | exact HX0 |].
  set (n := Z.max (digits qp - 24) 0) in *.
  assert (Hn : n = digits qp - 24) by lia.
  pose proof (digits_bounds qp) as Hb.
  assert (E : 2 ^ (digits qp - 1) = 2 ^ 23 * 2 ^ n)
    by (rewrite <- Z.pow_add_r by lia; f_equal; lia).
  rewrite E in Hb.
  assert (Hpn : 0 < 2 ^ n) by (apply Z.pow_pos_nonneg; lia).
  change (2 ^ 24) with 16777216. change (2 ^ 23) with 8388608 in Hb.
  nia.
Qed.

(** *** Operations on zeros and normal numbers *)

Lemma close_refl (v r : Q) : (r == v)%Q -> close v r.
Proof.
  intros E. unfold close. rewrite E.
  setoid_replace (v - v)%Q with 0%Q by ring.
  change (Qabs 0) with 0%Q.
  pose proof (Qabs_nonneg v). unfold u. lra.
Qed.

#[local] Instance close_wd : Proper (Qeq ==> Qeq ==> iff) close.
Proof. intros v v' Ev r r' Er. unfold close. rewrite Ev, Er. reflexivity. Qed.

Lemma good_weaken (lo hi lo' hi' : Z) (x : spec_float) :
  lo' <= lo -> hi <= hi' -> good lo hi x -> good lo' hi' x.
Proof.
  intros Hl Hh [Hz | (s & m & e & E & Hd & He)]; [left; exact Hz|].
  right. exists s, m, e. repeat split; try assumption; lia.
Qed.

Lemma normal_good (lo hi : Z) (x : spec_float) :
  normal_in lo hi x -> good lo hi x.
Proof. intros H. right. exact H. Qed.

Lemma to_Q_neg (x : spec_float) : (B32.to_Q (B32.neg x) == - B32.to_Q x)%Q.
Proof.
  destruct x as [s|s| |s m e]; cbn [B32.neg SFopp B32.to_Q]; try reflexivity.
  destruct s; cbn [negb].
  - change (Zneg m) with (- Zpos m). rewrite inject_Z_opp. ring.
  - change (Zneg m) with (- Zpos m). rewrite inject_Z_opp. ring.
Qed.

Lemma good_neg (lo hi : Z) (x : spec_float) :
  good lo hi x -> good lo hi (B32.neg x).
Proof.
  intros [[s ->] | (s & m & e & -> & Hd & He)].
  - left. exists (negb s). reflexivity.
  - right. exists (negb s), m, e. repeat split; assumption || lia.
Qed.

Lemma add_good (lo hi : Z) (x y : spec_float) :
  -126 <= lo -> hi <= 102 ->
  good lo hi x -> good lo hi y ->
  close (B32.to_Q x + B32.to_Q y) (B32.to_Q (B32.add x y))
  /\ good (lo - 23) (hi + 2) (B32.add x y).
Proof.
  intros Hlo Hhi [[sx ->] | (sx & mx & ex & -> & Hdx & Hex)]
                 [[sy ->] | (sy & my & ey & -> & Hdy & Hey)].
  - split.
    + apply close_refl. destruct sx, sy; reflexivity.
    + left. destruct sx, sy; eexists; reflexivity.
  - split.
    + apply close_refl. cbn [B32.add SFadd B32.to_Q]. ring.
    + right. exists sy, my, ey. repeat split; assumption || lia.
  - split.
    + apply close_refl. cbn [B32.add SFadd B32.to_Q]. ring.
    + right. exists sx, mx, ex. repeat split; assumption || lia.
  - apply digits_24 in Hdx as Hbx, Hdy as Hby.
    destruct (add_spec sx mx ex sy my ey) as [Hc Hg];
      [change (2 ^ 24) with 16777216; lia
      | change (2 ^ 24) with 16777216; lia | lia | lia |].
    cbv zeta in Hc, Hg. split; [exact Hc|].
    destruct Hg as [Hz | (s & m & e & E & Hd & He)].
    + left. exists false. exact Hz.
    + right. exists s, m, e. repeat split; assumption || lia.
Qed.

Lemma sub_as_add (lo hi : Z) (x y : spec_float) :
  good lo hi x -> good lo hi y -> B32.sub x y = B32.add x (B32.neg y).
Proof.
  intros [[sx ->] | (sx & mx & ex & -> & _)]
         [[sy ->] | (sy & my & ey & -> & _)];
    unfold B32.sub, B32.add, B32.neg, SFsub, SFadd, SFopp.
  - destruct sx, sy; reflexivity.
  - reflexivity.
  - reflexivity.
  - f_equal. destruct sy; cbn [negb cond_Zopp]; lia.
Qed.

Lemma sub_good (lo hi : Z) (x y : spec_float) :
  -126 <= lo -> hi <= 102 ->
  good lo hi x -> good lo hi y ->
  close (B32.to_Q x - B32.to_Q y) (B32.to_Q (B32.sub x y))
  /\ good (lo - 23) (hi + 2) (B32.sub x y).
Proof.
  intros Hlo Hhi Hx Hy.
  rewrite (sub_as_add lo hi x y Hx Hy).
  destruct (add_good lo hi x (B32.neg y) Hlo Hhi Hx (good_neg _ _ _ Hy))
    as [Hc Hg].
  split; [|exact Hg].
  rewrite to_Q_neg in Hc.
  setoid_replace (B32.to_Q x - B32.to_Q y)%Q
    with (B32.to_Q x + - B32.to_Q y)%Q by ring.
  exact Hc.
Qed.

Lemma mul_good (lx hx ly hy : Z) (x y : spec_float) :
  -172 <= lx + ly -> hx + hy <= 79 ->
  good lx hx x -> good ly hy y ->
  close (B32.to_Q x * B32.to_Q y) (B32.to_Q (B32.mul x y))
  /\ good (lx + ly + 23) (hx + hy + 25) (B32.mul x y).
Proof.
  intros Hlo Hhi [[sx ->] | (sx & mx & ex & -> & Hdx & Hex)]
                 [[sy ->] | (sy & my & ey & -> & Hdy & Hey)].
  - split; [apply close_refl; cbn [B32.mul SFmul B32.to_Q]; ring|].
    left. eexists. reflexivity.
  - split; [apply close_refl; cbn [B32.mul SFmul B32.to_Q]; ring|].
    left. eexists. reflexivity.
  - split; [apply close_refl; cbn [B32.mul SFmul B32.to_Q]; ring|].
    left. eexists. reflexivity.
  - destruct (mul_spec sx mx ex sy my ey Hdx Hdy)
      as (m' & e' & E & Hd & He & Hc); [lia|].
    rewrite E. split; [exact Hc|].
    right. exists (xorb sx sy), m', e'. repeat split; assumption || lia.
Qed.

Lemma div_good (lx hx ly hy : Z) (x y : spec_float) :
  -125 <= lx - hy -> hx - ly <= 126 ->
  good lx hx x -> normal_in ly hy y ->
  close (B32.to_Q x / B32.to_Q y) (B32.to_Q (B32.div x y))
  /\ good (lx - hy - 24) (hx - ly - 22) (B32.div x y).
Proof.
  intros Hlo Hhi [[sx ->] | (sx & mx & ex & -> & Hdx & Hex)]
                 (sy & my & ey & -> & Hdy & Hey).
  - split.
    + apply close_refl. cbn [B32.div SFdiv]. 
      change (B32.to_Q (S754_zero (xorb sx sy))) with 0%Q.
      change (B32.to_Q (S754_zero sx)) with 0%Q.
      unfold Qdiv. ring.
    + left. eexists. reflexivity.
  - destruct (div_spec sx mx ex sy my ey Hdx Hdy)
      as (m' & e' & E & Hd & He & Hc); [lia|].
    rewrite E. split; [exact Hc|].
    right. exists (xorb sx sy), m', e'. repeat split; assumption || lia.
Qed.

Lemma normal_nonzero (lo hi : Z) (x : spec_float) :
  normal_in lo hi x -> ~ (B32.to_Q x == 0)%Q.
Proof.
  intros (s & m & e & -> & _ & _). rewrite to_Q_finite.
  pose proof (pow2_pos e) as Hp.
  assert (Hm : (0 < inject_Z (Zpos m))%Q) by reflexivity.
  destruct s; cbn [signed].
  - change (Zneg m) with (- Zpos m). rewrite inject_Z_opp. nra.
  - nra.
Qed.

Lemma good_nonzero (lo hi : Z) (x : spec_float) :
  good lo hi x -> ~ (B32.to_Q x == 0)%Q -> normal_in lo hi x.
Proof.
  intros [[s ->] | Hn] Hnz; [|exact Hn].
  exfalso. apply Hnz. reflexivity.
Qed.

Lemma close_nonzero (v r : Q) : close v r -> ~ (v == 0)%Q -> ~ (r == 0)%Q.
Proof.
  unfold close. intros Hc Hv Hr. rewrite Hr in Hc.
  setoid_replace (0 - v)%Q with (- v)%Q in Hc by ring.
  rewrite Qabs_opp in Hc.
  assert (Hpos : (0 < Qabs v)%Q).
  { destruct (Qlt_le_dec 0 (Qabs v)) as [|Hle]; [assumption|].
    exfalso. apply Hv.
    pose proof (Qabs_nonneg v) as Hn.
    assert (E : (Qabs v == 0)%Q) by lra.
    revert E. apply Qabs_case; intros; lra. }
  unfold u in Hc. lra.
Qed.

(** Floats with 24-bit mantissas and different exponents are ordered by
    the exponents. *)
Lemma canonical_exp_lt (ma mb : positive) (ea eb : Z) :
  digits ma = 24 -> digits mb = 24 -> ea < eb ->
  (inject_Z (Zpos ma) * pow2 ea < inject_Z (Zpos mb) * pow2 eb)%Q.
Proof.
  intros Ha Hb Hlt. apply digits_24 in Ha, Hb.
  assert (Ha1 : (inject_Z (Zpos ma) + 1 <= 16777216)%Q).
  { change 16777216%Q with (inject_Z 16777216). change 1%Q with (inject_Z 1).
    rewrite <- inject_Z_plus, <- Zle_Qle. lia. }
  assert (Hb1 : (8388608 <= inject_Z (Zpos mb))%Q)
    by (change 8388608%Q with (inject_Z 8388608); rewrite <- Zle_Qle; lia).
  pose proof (pow2_pos ea). pose proof (pow2_pos eb).
  pose proof (pow2_step ea eb Hlt). nra.
Qed.

(** The value determines a zero or normal float up to the sign of zero;
    [!=] sees this: floats that compare different have different values. *)
Lemma ne_values (lo hi : Z) (x y : spec_float) :
  good lo hi x -> good lo hi y ->
  B32.ne x y = true -> ~ (B32.to_Q x == B32.to_Q y)%Q.
Proof.
  intros Hx Hy Hne Heq.
  unfold B32.ne in Hne. apply negb_true_iff in Hne.
  assert (Hsign : forall s m e,
            (s = true -> (B32.to_Q (S754_finite s m e) < 0)%Q) /\
            (s = false -> (0 < B32.to_Q (S754_finite s m e))%Q)).
  { intros s m e. rewrite to_Q_finite. pose proof (pow2_pos e).
    assert (0 < inject_Z (Zpos m))%Q by reflexivity.
    split; intros ->; cbn [signed].
    - change (Zneg m) with (- Zpos m). rewrite inject_Z_opp. nra.
    - nra. }
  destruct Hx as [[sx ->] | (sx & mx & ex & -> & Hdx & _)],
           Hy as [[sy ->] | (sy & my & ey & -> & Hdy & _)].
  - discriminate Hne.
  - destruct (Hsign sy my ey) as [Hn Hp].
    change (B32.to_Q (S754_zero sx)) with 0%Q in Heq.
    destruct sy; [specialize (Hn eq_refl) | specialize (Hp eq_refl)]; lra.
  - destruct (Hsign sx mx ex) as [Hn Hp].
    change (B32.to_Q (S754_zero sy)) with 0%Q in Heq.
    destruct sx; [specialize (Hn eq_refl) | specialize (Hp eq_refl)]; lra.
  - destruct (Hsign sx mx ex) as [Hnx Hpx], (Hsign sy my ey) as [Hny Hpy].
    assert (Hs : sx = sy).
    { destruct sx, sy; try reflexivity; exfalso;
        try specialize (Hnx eq_refl); try specialize (Hpx eq_refl);
        try specialize (Hny eq_refl); try specialize (Hpy eq_refl); lra. }
    subst sy.
    assert (Hv : (inject_Z (Zpos mx) * pow2 ex == inject_Z (Zpos my) * pow2 ey)%Q).
    { rewrite !to_Q_finite in Heq. destruct sx; cbn [signed] in Heq.
      - change (Zneg mx) with (- Zpos mx) in Heq.
        change (Zneg my) with (- Zpos my) in Heq.
        rewrite !inject_Z_opp in Heq. lra.
      - exact Heq. }
    assert (He : ex = ey).
    { destruct (Z.lt_trichotomy ex ey) as [Hl | [He | Hg]]; [|assumption|].
      - pose proof (canonical_exp_lt mx my ex ey Hdx Hdy Hl). lra.
      - pose proof (canonical_exp_lt my mx ey ex Hdy Hdx Hg). lra. }
    subst ey.
    assert (Hm : mx = my).
    { pose proof (pow2_pos ex) as Hp.
      assert (E : (inject_Z (Zpos mx) == inject_Z (Zpos my))%Q) by nra.
      apply (proj1 (inject_Z_injective _ _)) in E. injection E. auto. }
    subst my.
    unfold SFeqb, SFcompare in Hne.
    rewrite Z.compare_refl in Hne.
    change (Pos.compare_cont Eq mx mx) with (Pos.compare mx mx) in Hne.
    rewrite Pos.compare_refl in Hne.
    destruct sx; discriminate Hne.
Qed.

(** ** Error of the fitted model at the calibration points *)

Lemma Qabs_split (x a b : Q) :
  (x == a + b)%Q -> (Qabs x <= Qabs a + Qabs b)%Q.
Proof. intros ->. apply Qabs_triangle. Qed.

Lemma close_scale (v r k : Q) : close v r -> close (v * k) (r * k).
Proof.
  unfold close. intros H.
  setoid_replace (r * k - v * k)%Q with ((r - v) * k)%Q by ring.
  rewrite !Qabs_Qmult.
  pose proof (Qabs_nonneg k) as Hk.
  setoid_replace (u * (Qabs v * Qabs k))%Q with ((u * Qabs v) * Qabs k)%Q
    by ring.
  apply Qmult_le_compat_r; assumption.
Qed.

(** Each rounded operation of the fit and of the correction is within one
    relative unit of its exact result; together they bring the first point
    back within three units and the second within five, measured on the
    magnitudes involved.  Here [dA], [dM], [s], [p1], [p2], [off], [r1],
    [r2] are the values the sketch computes. *)
Lemma round_trip_error (A1 A2 M1 M2 dA dM s p1 p2 off r1 r2 : Q) :
  close (A2 - A1) dA -> close (M2 - M1) dM -> ~ (dM == 0)%Q ->
  close (dA / dM) s ->
  close (s * M1) p1 -> close (s * M2) p2 ->
  close (A1 - p1) off ->
  close (off + p1) r1 -> close (off + p2) r2 ->
  (Qabs (r1 - A1) <= (3 # 16777216) * (Qabs A1 + Qabs (s * M1)))%Q
  /\ (Qabs (r2 - A2)
      <= (5 # 16777216)
         * (Qabs A1 + Qabs A2 + Qabs (s * M1) + Qabs (s * M2)))%Q.
Proof.
  intros HdA HdM Hnz Hs Hp1 Hp2 Hoff Hr1 Hr2.
  (* the slope times the rounded difference of the measured values *)
  assert (Hw : close dA (s * dM)).
  { apply (close_scale _ _ dM) in Hs.
    assert (E : (dA / dM * dM == dA)%Q) by (field; exact Hnz).
    rewrite E in Hs. exact Hs. }
  (* the part of the slope's product lost with the rounding of [dM] *)
  assert (Hlost : (Qabs (s * (M2 - M1) - s * dM)
                   <= u * (Qabs (s * M1) + Qabs (s * M2)))%Q).
  { apply (close_scale _ _ s) in HdM. unfold close in HdM.
    setoid_replace (s * (M2 - M1) - s * dM)%Q
      with (- (dM * s - (M2 - M1) * s))%Q by ring.
    rewrite Qabs_opp.
    assert (T : (Qabs ((M2 - M1) * s) <= Qabs (s * M2) + Qabs (- (s * M1)))%Q)
      by (apply Qabs_split; ring).
    rewrite Qabs_opp in T. unfold u in *. lra. }
  unfold close in HdA, Hw, Hp1, Hp2, Hoff, Hr1, Hr2.
  pose proof (Qabs_nonneg A1) as nA1. pose proof (Qabs_nonneg A2) as nA2.
  pose proof (Qabs_nonneg (s * M1)) as nz1.
  pose proof (Qabs_nonneg (s * M2)) as nz2.
  assert (TdA : (Qabs (A2 - A1) <= Qabs A2 + Qabs (- A1))%Q)
    by (apply Qabs_split; ring).
  rewrite Qabs_opp in TdA.
  assert (TdA' : (Qabs dA <= Qabs (A2 - A1) + Qabs (dA - (A2 - A1)))%Q)
    by (apply Qabs_split; ring).
  assert (Tp1 : (Qabs p1 <= Qabs (s * M1) + Qabs (p1 - s * M1))%Q)
    by (apply Qabs_split; ring).
  assert (Tp2 : (Qabs p2 <= Qabs (s * M2) + Qabs (p2 - s * M2))%Q)
    by (apply Qabs_split; ring).
  assert (Tap : (Qabs (A1 - p1) <= Qabs A1 + Qabs (- p1))%Q)
    by (apply Qabs_split; ring).
  rewrite Qabs_opp in Tap.
  assert (Toff : (Qabs off <= Qabs (A1 - p1) + Qabs (off - (A1 - p1)))%Q)
    by (apply Qabs_split; ring).
  assert (To1 : (Qabs (off + p1) <= Qabs A1 + Qabs (off - (A1 - p1)))%Q)
    by (apply Qabs_split; ring).
  assert (To2 : (Qabs (off + p2) <= Qabs off + Qabs p2)%Q)
    by apply Qabs_triangle.
  assert (T1 : (Qabs (r1 - A1)
                <= Qabs (r1 - (off + p1)) + Qabs (off - (A1 - p1)))%Q)
    by (apply Qabs_split; ring).
  assert (T2a : (Qabs (r2 - A2)
                 <= Qabs (r2 - (off + p2))
                    + Qabs ((off - (A1 - p1)) + (p2 - s * M2)
                            + (s * M1 - p1)
                            + (s * (M2 - M1) - s * dM)
                            + (s * dM - dA) + (dA - (A2 - A1))))%Q)
    by (apply Qabs_split; ring).
  assert (T2b : (Qabs ((off - (A1 - p1)) + (p2 - s * M2)
                       + (s * M1 - p1)
                       + (s * (M2 - M1) - s * dM)
                       + (s * dM - dA) + (dA - (A2 - A1)))
                 <= Qabs (off - (A1 - p1)) + Qabs (p2 - s * M2)
                    + Qabs (s * M1 - p1)
                    + Qabs (s * (M2 - M1) - s * dM)
                    + Qabs (s * dM - dA) + Qabs (dA - (A2 - A1)))%Q).
  { repeat (eapply Qle_trans;
            [apply Qabs_triangle | apply Qplus_le_compat; [|apply Qle_refl]]).
    apply Qle_refl. }
  assert (Tm : (Qabs (s * M1 - p1) == Qabs (p1 - s * M1))%Q).
  { setoid_replace (s * M1 - p1)%Q with (- (p1 - s * M1))%Q by ring.
    apply Qabs_opp. }
  unfold u in *. split; lra.
Qed.

Lemma in_range_good (lo hi : Z) (x : spec_float) :
  in_range lo hi x = true -> good lo hi x.
Proof.
  destruct x as [s|s| |s m e]; cbn [in_range]; try discriminate.
  - intros _. left. exists s. reflexivity.
  - intros H. apply andb_prop in H. destruct H as [H H3].
    apply andb_prop in H. destruct H as [H1 H2].
    right. exists s, m, e. split; [reflexivity|]. lia.
Qed.

Lemma good_finite (lo hi : Z) (x : spec_float) :
  good lo hi x -> B32.is_finite x = true.
Proof. intros [[s ->] | (s & m & e & -> & _)]; reflexivity. Qed.

(** The fit and the correction in binary32, on calibration points that are
    zero or of magnitude from 2^-25 up to 32 V: nothing overflows or
    underflows, and the corrected measured values are the actual values up
    to a few units of rounding. *)
Lemma fit_error (A1 M1 A2 M2 : spec_float) :
  good (-48) (-19) A1 -> good (-48) (-19) M1 ->
  good (-48) (-19) A2 -> good (-48) (-19) M2 ->
  B32.ne M2 M1 = true ->
  let s := B32.div (B32.sub A2 A1) (B32.sub M2 M1) in
  let off := B32.sub A1 (B32.mul s M1) in
  let r1 := B32.add off (B32.mul s M1) in
  let r2 := B32.add off (B32.mul s M2) in
  B32.is_finite r1 = true /\ B32.is_finite r2 = true
  /\ (Qabs (B32.to_Q r1 - B32.to_Q A1)
      <= (3 # 16777216)
         * (Qabs (B32.to_Q A1) + Qabs (B32.to_Q s * B32.to_Q M1)))%Q
  /\ (Qabs (B32.to_Q r2 - B32.to_Q A2)
      <= (5 # 16777216)
         * (Qabs (B32.to_Q A1) + Qabs (B32.to_Q A2)
            + Qabs (B32.to_Q s * B32.to_Q M1)
            + Qabs (B32.to_Q s * B32.to_Q M2)))%Q.
Proof.
  intros gA1 gM1 gA2 gM2 Hne s off r1 r2.
  destruct (sub_good (-48) (-19) A2 A1) as [cdA gdA]; try assumption; try lia.
  destruct (sub_good (-48) (-19) M2 M1) as [cdM gdM]; try assumption; try lia.
  assert (Hnz : ~ (B32.to_Q (B32.sub M2 M1) == 0)%Q).
  { apply (close_nonzero _ _ cdM).
    pose proof (ne_values _ _ _ _ gM2 gM1 Hne) as Hv. lra. }
  pose proof (good_nonzero _ _ _ gdM Hnz) as ndM.
  destruct (div_good (-48 - 23) (-19 + 2) (-48 - 23) (-19 + 2)
              (B32.sub A2 A1) (B32.sub M2 M1)) as [cs gs];
    try assumption; try lia.
  fold s in cs, gs.
  apply (good_weaken _ _ (-78) 32) in gs; try lia.
  destruct (mul_good (-78) 32 (-48) (-19) s M1) as [cp1 gp1];
    try assumption; try lia.
  destruct (mul_good (-78) 32 (-48) (-19) s M2) as [cp2 gp2];
    try assumption; try lia.
  apply (good_weaken _ _ (-103) 38) in gp1; try lia.
  apply (good_weaken _ _ (-103) 38) in gp2; try lia.
  destruct (sub_good (-103) 38 A1 (B32.mul s M1)) as [coff goff];
    try assumption; try lia.
  { apply (good_weaken (-48) (-19)); [lia | lia | assumption]. }
  fold off in coff, goff.
  apply (good_weaken _ _ (-126) 40) in goff; try lia.
  apply (good_weaken _ _ (-126) 40) in gp1; try lia.
  apply (good_weaken _ _ (-126) 40) in gp2; try lia.
  destruct (add_good (-126) 40 off (B32.mul s M1)) as [cr1 gr1];
    try assumption; try lia.
  destruct (add_good (-126) 40 off (B32.mul s M2)) as [cr2 gr2];
    try assumption; try lia.
  fold r1 in cr1, gr1. fold r2 in cr2, gr2.
  split; [exact (good_finite _ _ _ gr1)|].
  split; [exact (good_finite _ _ _ gr2)|].
  exact (round_trip_error _ _ _ _ _ _ _ _ _ _ _ _
           cdA cdM Hnz cs cp1 cp2 coff cr1 cr2).
Qed.

(** C5, as the sketch has it.  In exact arithmetic the fitted model maps
    the first measured value to the first actual value and the second to
    the second, whenever the measured values differ.  In the binary32
    arithmetic of the sketch the calibration points it ships with come back
    within 1e-5; and any calibration points that are zero or of magnitude
    from 2^-25 up to 32 V, with different measured values, come back as
    finite numbers within 3 * 2^-24 (first point) and 5 * 2^-24 (second
    point) of the magnitudes of the actual values and of the slope times
    the measured values. *)
Theorem fit_round_trip :
  (forall (miso : nat -> Z) (cfg : Config Qc) (st0 : State Qc),
     ADSX_ENABLE_TWO_POINT_CAL cfg = true ->
     f_ne (ADSX_CAL_P2_MEASURED cfg) (ADSX_CAL_P1_MEASURED cfg) = true ->
     let g := globals (snd (setup miso cfg st0)) in
     apply_cal g (ADSX_CAL_P1_MEASURED cfg) = ADSX_CAL_P1_ACTUAL cfg
     /\ apply_cal g (ADSX_CAL_P2_MEASURED cfg) = ADSX_CAL_P2_ACTUAL cfg)
  /\ (forall (miso : nat -> Z) (st0 : State spec_float),
        let cfg := Examples.cfg_cal in
        let g := globals (snd (setup miso cfg st0)) in
        (Qabs (B32.to_Q (apply_cal g (ADSX_CAL_P1_MEASURED cfg))
               - B32.to_Q (ADSX_CAL_P1_ACTUAL cfg)) <= 1 # 100000)%Q
        /\ (Qabs (B32.to_Q (apply_cal g (ADSX_CAL_P2_MEASURED cfg))
                  - B32.to_Q (ADSX_CAL_P2_ACTUAL cfg)) <= 1 # 100000)%Q)
  /\ (forall (miso : nat -> Z) (cfg : Config spec_float)
             (st0 : State spec_float),
        ADSX_ENABLE_TWO_POINT_CAL cfg = true ->
        in_range (-48) (-19) (ADSX_CAL_P1_ACTUAL cfg) = true ->
        in_range (-48) (-19) (ADSX_CAL_P1_MEASURED cfg) = true ->
        in_range (-48) (-19) (ADSX_CAL_P2_ACTUAL cfg) = true ->
        in_range (-48) (-19) (ADSX_CAL_P2_MEASURED cfg) = true ->
        f_ne (ADSX_CAL_P2_MEASURED cfg) (ADSX_CAL_P1_MEASURED cfg) = true ->
        let g := globals (snd (setup miso cfg st0)) in
        let slope := B32.to_Q (g_cal_slope g) in
        let A1 := B32.to_Q (ADSX_CAL_P1_ACTUAL cfg) in
        let M1 := B32.to_Q (ADSX_CAL_P1_MEASURED cfg) in
        let A2 := B32.to_Q (ADSX_CAL_P2_ACTUAL cfg) in
        let M2 := B32.to_Q (ADSX_CAL_P2_MEASURED cfg) in
        let r1 := apply_cal g (ADSX_CAL_P1_MEASURED cfg) in
        let r2 := apply_cal g (ADSX_CAL_P2_MEASURED cfg) in
        B32.is_finite r1 = true /\ B32.is_finite r2 = true
        /\ (Qabs (B32.to_Q r1 - A1)
            <= (3 # 16777216) * (Qabs A1 + Qabs (slope * M1)))%Q
        /\ (Qabs (B32.to_Q r2 - A2)
            <= (5 # 16777216)
               * (Qabs A1 + Qabs A2 + Qabs (slope * M1)
                  + Qabs (slope * M2)))%Q).
Proof.
  split; [|split].
  - intros miso cfg st0 Hflag Hne g.
    assert (Hfit : fit_succeeds cfg = true)
      by (unfold fit_succeeds; rewrite Hflag, Hne; reflexivity).
    destruct (fit_result miso cfg st0 Hfit) as (_ & Hs & Ho).
    fold g in Hs, Ho. unfold apply_cal. rewrite Ho, Hs.
    apply ExactFacts.round_trip. apply ExactFacts.ne_true. exact Hne.
  - intros miso st0 cfg g.
    assert (Hfit : fit_succeeds cfg = true) by reflexivity.
    destruct (fit_result miso cfg st0 Hfit) as (_ & Hs & Ho).
    fold g in Hs, Ho. unfold apply_cal. rewrite Ho, Hs.
    split; vm_compute; discriminate.
  - intros miso cfg st0 Hflag H1 H2 H3 H4 Hne g slope A1 M1 A2 M2 r1 r2.
    assert (Hfit : fit_succeeds cfg = true)
      by (unfold fit_succeeds; rewrite Hflag, Hne; reflexivity).
    destruct (fit_result miso cfg st0 Hfit) as (_ & Hs & Ho).
    fold g in Hs, Ho.
    unfold r1, r2, slope, apply_cal. rewrite Ho, Hs.
    unfold fitted_offset, fitted_slope.
    apply in_range_good in H1, H2, H3, H4.
    exact (fit_error _ _ _ _ H1 H2 H3 H4 Hne).
Qed.

(** ** Where the sketch differs from its description *)

(** C3 fails on the sketch: with calibration enabled and the active range
    (2.5x bipolar) different from the calibration range (3x bipolar), the
    averaged read returns the raw voltage, not the corrected one. *)
Lemma range_mismatch_skips_correction_cex :
  ADSX_ENABLE_TWO_POINT_CAL Examples.cfg_mismatch = true
  /\ g_cal_enabled (globals Examples.st_mismatch) = true
  /\ g_range_code (globals Examples.st_mismatch)
     <> ADSX_CAL_RANGE_CODE Examples.cfg_mismatch
  /\ fst (adsxReadAveragedVolts Examples.dev_C0 Examples.cfg_mismatch
            Examples.st_mismatch)
     <> apply_cal (globals Examples.st_mismatch)
          (volts_raw_of Examples.dev_C0 Examples.cfg_mismatch
             Examples.st_mismatch).
Proof.
  split; [reflexivity|]. split; [vm_compute; reflexivity|].
  split; vm_compute; discriminate.
Qed.

(** C4 fails on the sketch: the codes 32768 and 32769 average to 32768.5;
    the sketch converts code 32768, which is 0 V in the 3x bipolar range,
    and not the average itself, which the transfer function would put
    187.5 microvolts higher. *)
Lemma averaged_code_is_truncated_cex :
  sample_code Examples.dev_two_codes Examples.cfg_shipped 0 = 32768
  /\ sample_code Examples.dev_two_codes Examples.cfg_shipped 8 = 32769
  /\ (B32.to_Q (avg_code_of Examples.dev_two_codes Examples.cfg_shipped
                  Examples.st_two_averages) == 65537 # 2)%Q
  /\ fst (adsxReadAveragedVolts Examples.dev_two_codes Examples.cfg_shipped
            Examples.st_two_averages)
     = S754_zero false
  /\ fst (adsxReadAveragedVolts Examples.dev_two_codes Examples.cfg_shipped
            Examples.st_two_averages)
     <> transfer Examples.cfg_shipped (globals Examples.st_two_averages)
          (avg_code_of Examples.dev_two_codes Examples.cfg_shipped
             Examples.st_two_averages).
Proof.
  split; [vm_compute; reflexivity|]. split; [vm_compute; reflexivity|].
  split; [vm_compute; reflexivity|]. split; [vm_compute; reflexivity|].
  vm_compute; discriminate.
Qed.

(** C5 fails on the sketch.  With the points (0.1, 10.0) and (0.3, 10.001)
    the fitted model takes neither measured value back to its actual value
    within 1e-5; with actual values at the two ends of the float range the
    slope overflows and the model returns NaN. *)
Lemma fit_round_trip_cex :
  f_ne (ADSX_CAL_P2_MEASURED Examples.cfg_close_points)
       (ADSX_CAL_P1_MEASURED Examples.cfg_close_points) = true
  /\ (1 # 100000 <
      Qabs (B32.to_Q (apply_cal (globals Examples.st_close_points)
                        (ADSX_CAL_P1_MEASURED Examples.cfg_close_points))
            - B32.to_Q (ADSX_CAL_P1_ACTUAL Examples.cfg_close_points)))%Q
  /\ (1 # 100000 <
      Qabs (B32.to_Q (apply_cal (globals Examples.st_close_points)
                        (ADSX_CAL_P2_MEASURED Examples.cfg_close_points))
            - B32.to_Q (ADSX_CAL_P2_ACTUAL Examples.cfg_close_points)))%Q
  /\ f_ne (ADSX_CAL_P2_MEASURED Examples.cfg_huge_points)
          (ADSX_CAL_P1_MEASURED Examples.cfg_huge_points) = true
  /\ apply_cal (globals Examples.st_huge_points)
       (ADSX_CAL_P1_MEASURED Examples.cfg_huge_points) = S754_nan.
Proof.
  repeat split; vm_compute; reflexivity.
Qed.

(** ** The theorems at concrete inputs *)

Lemma adsxCodeToVolts_transfer_function_witness :
  bits_ok (ADSX_BITS Examples.cfg_shipped)
  /\ 0 <= 40000 <= 2 ^ ADSX_BITS Examples.cfg_shipped - 1
  /\ adsxCodeToVolts Examples.cfg_shipped Examples.g_shipped 40000
     = transfer Examples.cfg_shipped Examples.g_shipped (B32.of_Z 40000).
Proof.
  assert (Hb : bits_ok (ADSX_BITS Examples.cfg_shipped))
    by (left; reflexivity).
  assert (Hc : 0 <= 40000 <= 2 ^ ADSX_BITS Examples.cfg_shipped - 1)
    by (cbn; lia).
  split; [exact Hb|]. split; [exact Hc|].
  exact (adsxCodeToVolts_transfer_function Examples.cfg_shipped
           Examples.g_shipped 40000 Hb Hc).
Defined.

Lemma adsxCodeToVolts_clamps_witness :
  bits_ok (ADSX_BITS Examples.cfg_shipped)
  /\ 2 ^ ADSX_BITS Examples.cfg_shipped - 1 < 70000
  /\ adsxCodeToVolts Examples.cfg_shipped Examples.g_shipped 70000
     = adsxCodeToVolts Examples.cfg_shipped Examples.g_shipped
         (2 ^ ADSX_BITS Examples.cfg_shipped - 1).
Proof.
  assert (Hb : bits_ok (ADSX_BITS Examples.cfg_shipped))
    by (left; reflexivity).
  assert (Hc : 2 ^ ADSX_BITS Examples.cfg_shipped - 1 < 70000)
    by (cbn; lia).
  split; [exact Hb|]. split; [exact Hc|].
  exact (proj1 (adsxCodeToVolts_clamps Examples.cfg_shipped
                  Examples.g_shipped 70000 Hb Hc)).
Defined.

Lemma acquired_code_in_range_witness :
  bits_ok (ADSX_BITS Examples.cfg_shipped)
  /\ (fst (adsxReadCodeNbits Examples.dev_C0 Examples.cfg_shipped Examples.st_shipped)
      >? ADSX_CODE_MASK (ADSX_BITS Examples.cfg_shipped)) = false.
Proof.
  assert (Hb : bits_ok (ADSX_BITS Examples.cfg_shipped))
    by (left; reflexivity).
  split; [exact Hb|].
  exact (proj1 (proj2 (acquired_code_in_range (F:=spec_float)
                         Examples.dev_C0 Examples.cfg_shipped Examples.st_shipped Hb))).
Defined.

Lemma two_point_fit_model_witness :
  ADSX_ENABLE_TWO_POINT_CAL Examples.cfg_cal = true
  /\ f_ne (ADSX_CAL_P2_MEASURED Examples.cfg_cal)
          (ADSX_CAL_P1_MEASURED Examples.cfg_cal) = true
  /\ g_cal_enabled
       (globals (snd (setup Examples.dev_C0 Examples.cfg_cal
                        (initial_state Examples.cfg_cal)))) = true.
Proof.
  assert (Hf : ADSX_ENABLE_TWO_POINT_CAL Examples.cfg_cal = true)
    by reflexivity.
  assert (Hn : f_ne (ADSX_CAL_P2_MEASURED Examples.cfg_cal)
                    (ADSX_CAL_P1_MEASURED Examples.cfg_cal) = true)
    by (vm_compute; reflexivity).
  split; [exact Hf|]. split; [exact Hn|].
  exact (proj1 (two_point_fit_model Examples.dev_C0 Examples.cfg_cal
                  (initial_state Examples.cfg_cal) Hf Hn)).
Defined.

Lemma degenerate_fit_disables_calibration_witness :
  f_ne (ADSX_CAL_P2_MEASURED Examples.cfg_degenerate)
       (ADSX_CAL_P1_MEASURED Examples.cfg_degenerate) = false
  /\ g_cal_enabled
       (globals (snd (setup Examples.dev_C0 Examples.cfg_degenerate
                        (initial_state Examples.cfg_degenerate)))) = false.
Proof.
  assert (Hn : f_ne (ADSX_CAL_P2_MEASURED Examples.cfg_degenerate)
                    (ADSX_CAL_P1_MEASURED Examples.cfg_degenerate) = false)
    by (vm_compute; reflexivity).
  split; [exact Hn|].
  exact (proj1 (degenerate_fit_disables_calibration Examples.dev_C0
                  Examples.cfg_degenerate
                  (initial_state Examples.cfg_degenerate) Hn)).
Defined.

Lemma range_mismatch_returns_raw_witness :
  g_range_code (globals Examples.st_mismatch)
  <> ADSX_CAL_RANGE_CODE Examples.cfg_mismatch
  /\ fst (adsxReadAveragedVolts Examples.dev_C0 Examples.cfg_mismatch
            Examples.st_mismatch)
     = volts_raw_of Examples.dev_C0 Examples.cfg_mismatch
         Examples.st_mismatch.
Proof.
  assert (Hn : g_range_code (globals Examples.st_mismatch)
               <> ADSX_CAL_RANGE_CODE Examples.cfg_mismatch)
    by (vm_compute; discriminate).
  split; [exact Hn|].
  exact (proj1 (range_mismatch_returns_raw Examples.dev_C0
                  Examples.cfg_mismatch Examples.st_mismatch Hn)).
Defined.

Lemma averaging_truncates_then_converts_witness :
  cal_applies Examples.cfg_shipped (globals Examples.st_two_averages) = false
  /\ fst (adsxReadAveragedVolts Examples.dev_two_codes Examples.cfg_shipped
            Examples.st_two_averages)
     = S754_zero false.
Proof.
  assert (Hc : cal_applies Examples.cfg_shipped (globals Examples.st_two_averages)
               = false) by reflexivity.
  split; [exact Hc|].
  rewrite (averaging_truncates_then_converts Examples.dev_two_codes Examples.cfg_shipped
             Examples.st_two_averages Hc).
  vm_compute. reflexivity.
Defined.

Lemma fit_round_trip_witness :
  ADSX_ENABLE_TWO_POINT_CAL Examples.cfg_cal_exact = true
  /\ f_ne (ADSX_CAL_P2_MEASURED Examples.cfg_cal_exact)
          (ADSX_CAL_P1_MEASURED Examples.cfg_cal_exact) = true
  /\ apply_cal
       (globals (snd (setup Examples.dev_C0 Examples.cfg_cal_exact
                        (initial_state Examples.cfg_cal_exact))))
       (ADSX_CAL_P1_MEASURED Examples.cfg_cal_exact)
     = ADSX_CAL_P1_ACTUAL Examples.cfg_cal_exact
  /\ ADSX_ENABLE_TWO_POINT_CAL Examples.cfg_cal = true
  /\ in_range (-48) (-19) (ADSX_CAL_P1_ACTUAL Examples.cfg_cal) = true
  /\ in_range (-48) (-19) (ADSX_CAL_P1_MEASURED Examples.cfg_cal) = true
  /\ in_range (-48) (-19) (ADSX_CAL_P2_ACTUAL Examples.cfg_cal) = true
  /\ in_range (-48) (-19) (ADSX_CAL_P2_MEASURED Examples.cfg_cal) = true
  /\ f_ne (ADSX_CAL_P2_MEASURED Examples.cfg_cal)
          (ADSX_CAL_P1_MEASURED Examples.cfg_cal) = true
  /\ B32.is_finite
       (apply_cal
          (globals (snd (setup Examples.dev_C0 Examples.cfg_cal
                           (initial_state Examples.cfg_cal))))
          (ADSX_CAL_P1_MEASURED Examples.cfg_cal)) = true.
Proof.
  assert (Hf : ADSX_ENABLE_TWO_POINT_CAL Examples.cfg_cal_exact = true)
    by reflexivity.
  assert (Hn : f_ne (ADSX_CAL_P2_MEASURED Examples.cfg_cal_exact)
                    (ADSX_CAL_P1_MEASURED Examples.cfg_cal_exact) = true)
    by (vm_compute; reflexivity).
  assert (Hf' : ADSX_ENABLE_TWO_POINT_CAL Examples.cfg_cal = true)
    by reflexivity.
  assert (I1 : in_range (-48) (-19) (ADSX_CAL_P1_ACTUAL Examples.cfg_cal)
               = true) by (vm_compute; reflexivity).
  assert (I2 : in_range (-48) (-19) (ADSX_CAL_P1_MEASURED Examples.cfg_cal)
               = true) by (vm_compute; reflexivity).
  assert (I3 : in_range (-48) (-19) (ADSX_CAL_P2_ACTUAL Examples.cfg_cal)
               = true) by (vm_compute; reflexivity).
  assert (I4 : in_range (-48) (-19) (ADSX_CAL_P2_MEASURED Examples.cfg_cal)
               = true) by (vm_compute; reflexivity).
  assert (Hn' : f_ne (ADSX_CAL_P2_MEASURED Examples.cfg_cal)
                     (ADSX_CAL_P1_MEASURED Examples.cfg_cal) = true)
    by (vm_compute; reflexivity).
  split; [exact Hf|]. split; [exact Hn|].
  split; [exact (proj1 (proj1 fit_round_trip Examples.dev_C0
                          Examples.cfg_cal_exact
                          (initial_state Examples.cfg_cal_exact) Hf Hn))|].
  split; [exact Hf'|]. split; [exact I1|]. split; [exact I2|].
  split; [exact I3|]. split; [exact I4|]. split; [exact Hn'|].
  exact (proj1 (proj2 (proj2 fit_round_trip) Examples.dev_C0 Examples.cfg_cal
                  (initial_state Examples.cfg_cal) Hf' I1 I2 I3 I4 Hn')).
Defined.

Lemma bipolar_zero_and_monotone_witness :
  bits_ok (ADSX_BITS Examples.cfg_shipped)
  /\ snd (adsxRangeMultiplier spec_float
            (g_range_code Examples.g_shipped)) = true
  /\ g_vref_volts Examples.g_shipped = S754_finite false 8589935 (-21)
  /\ 2 ^ 23 <= 8589935 < 2 ^ 24
  /\ -99 <= -21 <= 97
  /\ SFltb (adsxCodeToVolts Examples.cfg_shipped Examples.g_shipped 100)
           (adsxCodeToVolts Examples.cfg_shipped Examples.g_shipped 101)
     = true.
Proof.
  assert (Hb : bits_ok (ADSX_BITS Examples.cfg_shipped))
    by (left; reflexivity).
  assert (Hp : snd (adsxRangeMultiplier spec_float
                      (g_range_code Examples.g_shipped)) = true)
    by reflexivity.
  assert (Hv : g_vref_volts Examples.g_shipped
               = S754_finite false 8589935 (-21)) by reflexivity.
  assert (Hm : 2 ^ 23 <= 8589935 < 2 ^ 24) by (cbn; lia).
  assert (He : -99 <= -21 <= 97) by lia.
  split; [exact Hb|]. split; [exact Hp|]. split; [exact Hv|].
  split; [exact Hm|]. split; [exact He|].
  apply (proj2 (bipolar_zero_and_monotone Examples.cfg_shipped
                  Examples.g_shipped 8589935 (-21) Hb Hp Hv Hm He) 100 101);
    cbn; lia.
Defined.

(** * Further properties of the sketch *)

(** ** The SPI frame *)

(** Bits put next to each other add up. *)
Lemma lor_mul_add (q y k : Z) :
  0 <= k -> 0 <= y < 2 ^ k -> Z.lor (q * 2 ^ k) y = q * 2 ^ k + y.
Proof.
  intros Hk Hy.
  assert (Hland : Z.land (q * 2 ^ k) y = 0).
  { apply Z.bits_inj'. intros n Hn.
    rewrite Z.land_spec, Z.bits_0.
    destruct (Z.lt_ge_cases n k) as [Hlt | Hge].
    - rewrite Z.mul_pow2_bits_low by lia. reflexivity.
    - destruct (Z.eq_dec y 0) as [-> | Hy0].
      + rewrite Z.bits_0. apply andb_false_r.
      + rewrite (Z.bits_above_log2 y n); [apply andb_false_r | lia |].
        apply Z.lt_le_trans with k; [|assumption].
        apply Z.log2_lt_pow2; lia. }
  rewrite <- Z.lxor_lor by assumption.
  symmetry. apply Z.add_nocarry_lxor. assumption.
Qed.

Lemma byte_range (z : Z) : 0 <= z mod 256 < 256.
Proof. apply Z.mod_pos_bound. lia. Qed.

Lemma word_at_sum (miso : nat -> Z) (k : nat) :
  word_at miso k
  = (miso k mod 256) * 2 ^ 24 + (miso (S k) mod 256) * 2 ^ 16
    + (miso (S (S k)) mod 256) * 2 ^ 8 + miso (S (S (S k))) mod 256.
Proof.
  unfold word_at.
  pose proof (byte_range (miso k)) as H0.
  pose proof (byte_range (miso (S k))) as H1.
  pose proof (byte_range (miso (S (S k)))) as H2.
  pose proof (byte_range (miso (S (S (S k))))) as H3.
  set (r0 := miso k mod 256) in *. set (r1 := miso (S k) mod 256) in *.
  set (r2 := miso (S (S k)) mod 256) in *.
  set (r3 := miso (S (S (S k))) mod 256) in *.
  rewrite !Z.shiftl_mul_pow2 by lia.
  replace (r0 * 2 ^ 24) with (r0 * 2 ^ 0 * 2 ^ 24) by ring.
  rewrite (lor_mul_add (r0 * 2 ^ 0) (r1 * 2 ^ 16) 24) by lia.
  replace (r0 * 2 ^ 0 * 2 ^ 24 + r1 * 2 ^ 16)
    with ((r0 * 2 ^ 8 + r1) * 2 ^ 16) by ring.
  rewrite (lor_mul_add (r0 * 2 ^ 8 + r1) (r2 * 2 ^ 8) 16) by lia.
  replace ((r0 * 2 ^ 8 + r1) * 2 ^ 16 + r2 * 2 ^ 8)
    with ((r0 * 2 ^ 16 + r1 * 2 ^ 8 + r2) * 2 ^ 8) by ring.
  rewrite (lor_mul_add _ r3 8) by lia.
  ring.
Qed.

(** X1. [xfer32] returns the four received bytes as one big-endian word. *)
Theorem xfer32_word_big_endian {F : Type} (miso : nat -> Z) (cfg : Config F)
    (b0 b1 b2 b3 : Z) (st : State F) :
  let r := fun i : nat => miso (i + spi_clock st)%nat mod 256 in
  let w := fst (xfer32 miso cfg b0 b1 b2 b3 st) in
  w = r 0%nat * 2 ^ 24 + r 1%nat * 2 ^ 16 + r 2%nat * 2 ^ 8 + r 3%nat
  /\ 0 <= w < 2 ^ 32
  /\ Z.shiftr w 24 = r 0%nat
  /\ Z.land (Z.shiftr w 16) 0xFF = r 1%nat
  /\ Z.land (Z.shiftr w 8) 0xFF = r 2%nat
  /\ Z.land w 0xFF = r 3%nat.
Proof.
  intros r w.
  assert (Hw : w = r 0%nat * 2 ^ 24 + r 1%nat * 2 ^ 16 + r 2%nat * 2 ^ 8
                   + r 3%nat).
  { unfold w. rewrite (proj1 (xfer32_spec miso cfg b0 b1 b2 b3 st)).
    rewrite word_at_sum. reflexivity. }
  pose proof (byte_range (miso (0 + spi_clock st)%nat)) as H0.
  pose proof (byte_range (miso (1 + spi_clock st)%nat)) as H1.
  pose proof (byte_range (miso (2 + spi_clock st)%nat)) as H2.
  pose proof (byte_range (miso (3 + spi_clock st)%nat)) as H3.
  fold (r 0%nat) in H0. fold (r 1%nat) in H1. fold (r 2%nat) in H2.
  fold (r 3%nat) in H3.
  split; [exact Hw|].
  change 0xFF with (Z.ones 8).
  rewrite !Z.land_ones, !Z.shiftr_div_pow2 by lia.
  rewrite Hw.
  change (2 ^ 32) with 4294967296. change (2 ^ 24) with 16777216.
  change (2 ^ 16) with 65536. change (2 ^ 8) with 256.
  repeat split; try lia;
    repeat match goal with
           | |- context [?a / ?b] => 
               let q := fresh "q" in
               pose proof (Z.div_mod a b ltac:(lia));
               pose proof (Z.mod_pos_bound a b ltac:(lia));
               set (q := a / b) in *
           | |- context [?a mod ?b] =>
               let q := fresh "q" in
               pose proof (Z.div_mod a b ltac:(lia));
               pose proof (Z.mod_pos_bound a b ltac:(lia));
               set (q := a mod b) in *
           end; lia.
Qed.

(** ** The conversion code inside the frame *)

(** X2. The code [adsxReadCodeNbits] returns is read off the first bytes of
    the second frame: both of the first two for a 16-bit part, and the two
    top bits of the third as well for an 18-bit part. *)
Theorem adsxReadCodeNbits_bytes {F : Type} (miso : nat -> Z) (cfg : Config F)
    (st : State F) :
  let r := fun i : nat => miso (4 + i + spi_clock st)%nat mod 256 in
  let code := fst (adsxReadCodeNbits miso cfg st) in
  (ADSX_BITS cfg = 16 -> code = 256 * r 0%nat + r 1%nat)
  /\ (ADSX_BITS cfg = 18 ->
      code = 1024 * r 0%nat + 4 * r 1%nat + r 2%nat / 64).
Proof.
  intros r code.
  assert (Hc : code = Z.land (Z.shiftr
                 (r 0%nat * 2 ^ 24 + r 1%nat * 2 ^ 16 + r 2%nat * 2 ^ 8
                  + r 3%nat) (ADSX_CODE_SHIFT (ADSX_BITS cfg)))
                 (ADSX_CODE_MASK (ADSX_BITS cfg))).
  { unfold code. rewrite (proj1 (adsxReadCodeNbits_spec miso cfg st)).
    unfold sample_code. rewrite word_at_sum. reflexivity. }
  pose proof (byte_range (miso (4 + 0 + spi_clock st)%nat)) as H0.
  pose proof (byte_range (miso (4 + 1 + spi_clock st)%nat)) as H1.
  pose proof (byte_range (miso (4 + 2 + spi_clock st)%nat)) as H2.
  pose proof (byte_range (miso (4 + 3 + spi_clock st)%nat)) as H3.
  fold (r 0%nat) in H0. fold (r 1%nat) in H1. fold (r 2%nat) in H2.
  fold (r 3%nat) in H3.
  rewrite Hc. clear Hc.
  split; intros ->.
  - change (ADSX_CODE_SHIFT 16) with 16.
    change (ADSX_CODE_MASK 16) with (Z.ones 16).
    rewrite Z.land_ones, Z.shiftr_div_pow2 by lia.
    change (2 ^ 24) with 16777216. change (2 ^ 16) with 65536.
    change (2 ^ 8) with 256.
    generalize (r 0%nat) (r 1%nat) (r 2%nat) (r 3%nat) H0 H1 H2 H3.
    clear. intros a b c d Ha Hb Hc Hd.
    assert (E : (a * 16777216 + b * 65536 + c * 256 + d) / 65536
                = a * 256 + b).
    { symmetry. apply (Z.div_unique _ _ _ (c * 256 + d)); lia. }
    rewrite E. rewrite Z.mod_small; lia.
  - change (ADSX_CODE_SHIFT 18) with 14.
    change (ADSX_CODE_MASK 18) with (Z.ones 18).
    rewrite Z.land_ones, Z.shiftr_div_pow2 by lia.
    change (2 ^ 24) with 16777216. change (2 ^ 16) with 65536.
    change (2 ^ 8) with 256. change (2 ^ 14) with 16384.
    change (2 ^ 18) with 262144.
    generalize (r 0%nat) (r 1%nat) (r 2%nat) (r 3%nat) H0 H1 H2 H3.
    clear. intros a b c d Ha Hb Hc Hd.
    pose proof (Z.div_mod c 64 ltac:(lia)) as Hq.
    pose proof (Z.mod_pos_bound c 64 ltac:(lia)) as Hr.
    set (q := c / 64) in *. set (m := c mod 64) in *.
    assert (E : (a * 16777216 + b * 65536 + c * 256 + d) / 16384
                = a * 1024 + b * 4 + q).
    { symmetry. apply (Z.div_unique _ _ _ (m * 256 + d)); lia. }
    rewrite E. rewrite Z.mod_small; lia.
Qed.

(** ** The accumulator *)

Lemma sum_codes_bounds {F : Type} (miso : nat -> Z) (cfg : Config F)
    (k clock : nat) :
  bits_ok (ADSX_BITS cfg) ->
  0 <= sum_codes miso cfg k clock
    <= Z.of_nat k * (2 ^ ADSX_BITS cfg - 1).
Proof.
  intros Hb. revert clock. induction k as [|k IH]; intros clock.
  - cbn [sum_codes]. lia.
  - cbn [sum_codes].
    pose proof (sample_code_range miso cfg clock Hb) as Hs.
    specialize (IH (8 + clock)%nat). lia.
Qed.

(** X3. The 32-bit accumulator of [adsxReadAveragedVolts] holds the plain
    sum of the codes, without wrapping, for every averaging count a
    [uint16_t] can hold on a 16-bit part and up to 16384 on an 18-bit
    part. *)
Theorem accumulator_does_not_wrap {F : Type} (miso : nat -> Z)
    (cfg : Config F) (st : State F) :
  bits_ok (ADSX_BITS cfg) ->
  g_num_averages (globals st) <= 65535 ->
  (ADSX_BITS cfg = 18 -> g_num_averages (globals st) <= 16384) ->
  let n := averaging_count (globals st) in
  fst (accumulate miso cfg (Z.to_nat n) 0 st)
  = sum_codes miso cfg (Z.to_nat n) (spi_clock st)
  /\ 0 <= sum_codes miso cfg (Z.to_nat n) (spi_clock st)
       <= n * (2 ^ ADSX_BITS cfg - 1)
  /\ n * (2 ^ ADSX_BITS cfg - 1) < 2 ^ 32.
Proof.
  intros Hb H16 H18 n.
  assert (Hn : 1 <= n <= 65535 /\ (ADSX_BITS cfg = 18 -> n <= 16384)).
  { unfold n, averaging_count.
    destruct (Z.ltb_spec (g_num_averages (globals st)) 1); split; lia. }
  pose proof (sum_codes_bounds miso cfg (Z.to_nat n) (spi_clock st) Hb) as Hs.
  rewrite Z2Nat.id in Hs by lia.
  assert (Hlt : n * (2 ^ ADSX_BITS cfg - 1) < 2 ^ 32).
  { destruct Hn as [Hn Hn18].
    destruct Hb as [E | E]; rewrite E in *.
    - change (2 ^ 16 - 1) with 65535. change (2 ^ 32) with 4294967296. nia.
    - specialize (Hn18 eq_refl).
      change (2 ^ 18 - 1) with 262143. change (2 ^ 32) with 4294967296. nia. }
  split; [|split; assumption].
  destruct (accumulate_spec miso cfg (Z.to_nat n) 0 st) as (Hv & _ & _);
    [lia|].
  rewrite Hv, Z.add_0_l. apply Z.mod_small. lia.
Qed.

Lemma spi_clock_adsxReadAveragedVolts {F : Type} {FA : FloatArith F}
    (miso : nat -> Z) (cfg : Config F) (st : State F) :
  spi_clock (snd (adsxReadAveragedVolts miso cfg st))
  = (8 * Z.to_nat (Z.max 1 (g_num_averages (globals st)))
     + spi_clock st)%nat.
Proof.
  rewrite adsxReadAveragedVolts_eq. cbn [snd].
  assert (E : averaging_count (globals st)
              = Z.max 1 (g_num_averages (globals st))).
  { unfold averaging_count.
    destruct (Z.ltb_spec (g_num_averages (globals st)) 1); lia. }
  rewrite E.
  apply (accumulate_spec miso cfg
           (Z.to_nat (Z.max 1 (g_num_averages (globals st)))) 0 st).
  lia.
Qed.

(** X4. [adsxReadAveragedVolts] takes [g_num_averages] samples and at least
    one: it exchanges eight bytes per sample, the discarded frame and the
    frame with the code, and changes none of the globals. *)
Theorem adsxReadAveragedVolts_sample_count {F : Type} {FA : FloatArith F}
    (miso : nat -> Z) (cfg : Config F) (st : State F) :
  let st' := snd (adsxReadAveragedVolts miso cfg st) in
  spi_clock st'
  = (8 * Z.to_nat (Z.max 1 (g_num_averages (globals st))) + spi_clock st)%nat
  /\ (8 + spi_clock st <= spi_clock st')%nat
  /\ globals st' = globals st.
Proof.
  intros st'. unfold st'.
  rewrite spi_clock_adsxReadAveragedVolts.
  split; [reflexivity|]. split; [lia|].
  apply globals_adsxReadAveragedVolts.
Qed.

(** ** Range selectors *)

(** X5. [adsxRangeMultiplier] looks at the low four bits of the selector
    only; the range is bipolar exactly for the selectors 0 to 4; a unipolar
    selector 8 to 11 has the multiplier of the bipolar selector eight
    below it; and the selectors the device does not define (5, 6, 7 and 12
    to 15) are taken as unipolar 1.25 x VREF. *)
Theorem adsxRangeMultiplier_selectors {F : Type} {FA : FloatArith F}
    (code : Z) :
  let c := Z.land code 0xF in
  adsxRangeMultiplier F code = adsxRangeMultiplier F c
  /\ (snd (adsxRangeMultiplier F code) = true <-> c <= 4)
  /\ (c <= 3 ->
      fst (adsxRangeMultiplier F (c + 8)) = fst (adsxRangeMultiplier F code))
  /\ (5 <= c <= 7 \/ 12 <= c ->
      adsxRangeMultiplier F code
      = adsxRangeMultiplier F ADSX_RANGE_UNIPOLAR_1P25X).
Proof.
  intros c.
  assert (Hc : 0 <= c < 16).
  { unfold c. change 0xF with (Z.ones 4). rewrite Z.land_ones by lia.
    apply Z.mod_pos_bound. lia. }
  rewrite <- (adsxRangeMultiplier_land code). fold c.
  split; [reflexivity|].
  assert (Hcases : c = 0 \/ c = 1 \/ c = 2 \/ c = 3 \/ c = 4 \/ c = 5
                   \/ c = 6 \/ c = 7 \/ c = 8 \/ c = 9 \/ c = 10 \/ c = 11
                   \/ c = 12 \/ c = 13 \/ c = 14 \/ c = 15) by lia.
  clear Hc. generalize dependent c. intros c Hcases.
  repeat (destruct Hcases as [-> | Hcases]); try subst c;
    (split; [split; [intros H; try discriminate H; lia
                    | intros H; try lia; reflexivity]
            | split; [intros H; try lia; reflexivity
                     | intros H; try lia; reflexivity]]).
Qed.

(** ** The reference voltage *)

(** X6. Which arguments [adsxSetVrefVolts] accepts in binary32.  A positive
    number and plus infinity are stored; a NaN, a zero of either sign, a
    negative number and minus infinity leave everything as it was. *)
Theorem adsxSetVrefVolts_accepts (v : spec_float) (st : State spec_float) :
  match v with
  | S754_finite false _ _ | S754_infinity false =>
      globals (snd (adsxSetVrefVolts v st)) = with_vref v (globals st)
      /\ g_vref_volts (globals (snd (adsxSetVrefVolts v st))) = v
  | _ => snd (adsxSetVrefVolts v st) = st
  end.
Proof.
  unfold adsxSetVrefVolts.
  change (f_dec 0 1) with (B32.dec 0 1). rewrite zero_literal.
  change (f_gt v (S754_zero false)) with (SFltb (S754_zero false) v).
  destruct v as [s | s | | s m e]; try destruct s;
    cbn [SFltb SFcompare]; try reflexivity; split; reflexivity.
Qed.

(** ** Bytes on the bus *)

Create Rewrite HintDb sketch_clock.

Section Clock.

Context {F : Type} {FA : FloatArith F}.
Variable miso : nat -> Z.
Variable cfg : Config F.

Lemma spi_clock_emit (e : Event F) (st : State F) :
  spi_clock (snd (emit e st)) = spi_clock st.
Proof. reflexivity. Qed.

Lemma spi_clock_assign (f : Globals F -> Globals F) (st : State F) :
  spi_clock (snd (assign f st)) = spi_clock st.
Proof. reflexivity. Qed.

Lemma spi_clock_digitalWrite (pin : Z) (high : bool) (st : State F) :
  spi_clock (snd (digitalWrite pin high st)) = spi_clock st.
Proof. reflexivity. Qed.

Lemma spi_clock_pinModeOutput (pin : Z) (st : State F) :
  spi_clock (snd (pinModeOutput pin st)) = spi_clock st.
Proof. reflexivity. Qed.

Lemma spi_clock_adsxSetVrefVolts (v : F) (st : State F) :
  spi_clock (snd (adsxSetVrefVolts v st)) = spi_clock st.
Proof. unfold adsxSetVrefVolts. destruct (f_gt v (f_dec 0 1)); reflexivity. Qed.

Lemma spi_clock_adsxSetRange (range_code : Z) (b : bool) (st : State F) :
  spi_clock (snd (adsxSetRange miso cfg range_code b st))
  = (12 + spi_clock st)%nat.
Proof. reflexivity. Qed.

Hint Rewrite @snd_gets @fst_gets @snd_ret @fst_ret @spi_clock_emit
  @spi_clock_assign @spi_clock_delay @spi_clock_digitalWrite
  @spi_clock_pinModeOutput @spi_clock_adsxSetRange
  @spi_clock_adsxSetVrefVolts : sketch_clock.

Lemma spi_clock_setup (st : State F) :
  spi_clock (snd (setup miso cfg st)) = (12 + spi_clock st)%nat.
Proof.
  unfold setup. run_binds.
  destruct (PIN_RST cfg >=? 0), (ADSX_ENABLE_TWO_POINT_CAL cfg),
    (f_ne (ADSX_CAL_P2_MEASURED cfg) (ADSX_CAL_P1_MEASURED cfg));
    run_binds; autorewrite with sketch_clock;
    try match goal with
        | |- context [if negb ?b then _ else _] => destruct b; cbn [negb]
        end;
    autorewrite with sketch_clock; reflexivity.
Qed.

Lemma spi_clock_loop (st : State F) :
  spi_clock (snd (loop miso cfg st))
  = (8 * Z.to_nat (Z.max 1 (g_num_averages (globals st)))
     + spi_clock st)%nat.
Proof.
  unfold loop. run_binds.
  rewrite spi_clock_delay, !spi_clock_emit.
  apply spi_clock_adsxReadAveragedVolts.
Qed.

Lemma loops_step (k : nat) (st : State F) :
  loops miso cfg (S k) st = loops miso cfg k (snd (loop miso cfg st)).
Proof.
  cbn [loops]. unfold bind at 1. destruct (loop miso cfg st). reflexivity.
Qed.

Lemma loops_spec (k : nat) (st : State F) :
  globals (snd (loops miso cfg k st)) = globals st
  /\ spi_clock (snd (loops miso cfg k st))
     = (8 * Z.to_nat (Z.max 1 (g_num_averages (globals st))) * k
        + spi_clock st)%nat.
Proof.
  revert st. induction k as [|k IH]; intros st.
  - split; [reflexivity|]. cbn [loops ret snd]. lia.
  - rewrite loops_step.
    destruct (IH (snd (loop miso cfg st))) as [Hg Hc].
    rewrite Hg, Hc, globals_loop, spi_clock_loop.
    split; [reflexivity | lia].
Qed.

Lemma run_eq (k : nat) :
  run miso cfg k
  = snd (loops miso cfg k (snd (setup miso cfg (initial_state cfg)))).
Proof.
  unfold run. rewrite bind_eq. reflexivity.
Qed.

End Clock.

(** X7. What the sketch runs with.  After [setup()] and any number of
    passes of [loop()] the range selector is the low four bits of its
    initial value, the internal reference of 4.096 V is selected, the
    averaging count is the initial one, and calibration is enabled exactly
    when it is compiled in and the measured values differ; 12 bytes have
    been exchanged by [setup()] and eight per sample by each pass. *)
Theorem run_configuration {F : Type} {FA : FloatArith F} (miso : nat -> Z)
    (cfg : Config F) (k : nat) :
  let g := globals (run miso cfg k) in
  g_range_code g = Z.land (init_range_code cfg) 0xF
  /\ g_useInternalRef g = true
  /\ g_vref_volts g = f_dec 4096 3
  /\ g_num_averages g = init_num_averages cfg
  /\ g_cal_enabled g
     = ADSX_ENABLE_TWO_POINT_CAL cfg
       && f_ne (ADSX_CAL_P2_MEASURED cfg) (ADSX_CAL_P1_MEASURED cfg)
  /\ spi_clock (run miso cfg k)
     = (12 + 8 * Z.to_nat (Z.max 1 (init_num_averages cfg)) * k)%nat.
Proof.
  intros g. unfold g. rewrite run_eq.
  destruct (loops_spec miso cfg k (snd (setup miso cfg (initial_state cfg))))
    as [Hg Hc].
  rewrite Hg, Hc, spi_clock_setup, setup_globals.
  unfold globals_after_setup, fit_succeeds.
  destruct (f_gt (f_dec 4096 3) (f_dec 0 1)),
    (ADSX_ENABLE_TWO_POINT_CAL cfg),
    (f_ne (ADSX_CAL_P2_MEASURED cfg) (ADSX_CAL_P1_MEASURED cfg));
    cbn; repeat split; lia.
Qed.

(** ** The correction as an interpolation *)

(** X8. In exact arithmetic the calibrated reading is the straight line
    through the two calibration points, evaluated at the raw reading. *)
Theorem calibrated_read_interpolates (miso : nat -> Z) (cfg : Config Qc)
    (st0 : State Qc) :
  ADSX_ENABLE_TWO_POINT_CAL cfg = true ->
  f_ne (ADSX_CAL_P2_MEASURED cfg) (ADSX_CAL_P1_MEASURED cfg) = true ->
  Z.land (g_range_code (globals st0)) 0xF = ADSX_CAL_RANGE_CODE cfg ->
  let st := snd (setup miso cfg st0) in
  (fst (adsxReadAveragedVolts miso cfg st)
   = ADSX_CAL_P1_ACTUAL cfg
     + (ADSX_CAL_P2_ACTUAL cfg - ADSX_CAL_P1_ACTUAL cfg)
       * (volts_raw_of miso cfg st - ADSX_CAL_P1_MEASURED cfg)
       / (ADSX_CAL_P2_MEASURED cfg - ADSX_CAL_P1_MEASURED cfg))%Qc.
Proof.
  intros Hflag Hne Hrange st.
  assert (Hfit : fit_succeeds cfg = true)
    by (unfold fit_succeeds; rewrite Hflag, Hne; reflexivity).
  destruct (fit_result miso cfg st0 Hfit) as (Hen & Hs & Ho).
  fold st in Hen, Hs, Ho.
  assert (Hr : g_range_code (globals st) = ADSX_CAL_RANGE_CODE cfg).
  { unfold st. rewrite setup_globals. unfold globals_after_setup.
    rewrite Hfit.
    destruct (f_gt (f_dec 4096 3) (f_dec 0 1)); exact Hrange. }
  rewrite read_calibrated.
  - unfold apply_cal. rewrite Ho, Hs.
    unfold fitted_offset, fitted_slope.
    change (@f_add Qc exact) with Qcplus.
    change (@f_sub Qc exact) with Qcminus.
    change (@f_mul Qc exact) with Qcmult.
    change (@f_div Qc exact) with Qcdiv.
    apply ExactFacts.ne_true in Hne.
    assert (Hd : (ADSX_CAL_P2_MEASURED cfg - ADSX_CAL_P1_MEASURED cfg)%Qc
                 <> 0%Qc).
    { intros H. apply Hne.
      transitivity ((ADSX_CAL_P2_MEASURED cfg - ADSX_CAL_P1_MEASURED cfg)
                    + ADSX_CAL_P1_MEASURED cfg)%Qc;
        [ring | rewrite H; ring]. }
    field. exact Hd.
  - unfold cal_applies. rewrite Hflag, Hen, Hr, Z.eqb_refl. reflexivity.
Qed.

(** ** Register writes *)

Lemma mosi_bytes_app {F : Type} (new old : list (Event F)) :
  mosi_bytes (new ++ old) = mosi_bytes old ++ mosi_bytes new.
Proof.
  induction new as [|e new IH]; cbn [app mosi_bytes].
  - rewrite app_nil_r. reflexivity.
  - destruct e; try exact IH. rewrite IH, app_assoc. reflexivity.
Qed.

(** X9. [writeRegHWord] sends the opcode 0xD0, the register address and the
    data, high byte first, in one frame, and then waits for the conversion
    the frame has started. *)
Theorem writeRegHWord_frame {F : Type} (miso : nat -> Z) (cfg : Config F)
    (addr data : Z) (st : State F) :
  0 <= data < 2 ^ 16 ->
  let st' := snd (writeRegHWord miso cfg addr data st) in
  mosi_bytes (trace st')
  = mosi_bytes (trace st) ++ [0xD0; addr; data / 256; data mod 256]
  /\ 256 * (data / 256) + data mod 256 = data
  /\ 0 <= data / 256 < 256
  /\ hd_error (trace st') = Some (EvDelayMicroseconds ADSX_TCONV_US)
  /\ spi_clock st' = (4 + spi_clock st)%nat.
Proof.
  intros Hd st'.
  assert (Hhi : Z.shiftr data 8 mod 256 = data / 256).
  { rewrite Z.shiftr_div_pow2 by lia. change (2 ^ 8) with 256.
    apply Z.mod_small. change (2 ^ 16) with 65536 in Hd.
    split; [apply Z.div_pos; lia | apply Z.div_lt_upper_bound; lia]. }
  assert (Hlo : Z.land data 0xFF mod 256 = data mod 256).
  { change 0xFF with (Z.ones 8). rewrite Z.land_ones by lia.
    change (2 ^ 8) with 256. apply Z.mod_mod. lia. }
  split; [|split; [|split; [|split]]].
  - unfold st'.
    change (trace (snd (writeRegHWord miso cfg addr data st)))
      with ([EvDelayMicroseconds ADSX_TCONV_US;
             EvDigitalWrite (PIN_CS cfg) true;
             EvSpiTransfer (Z.land data 0xFF mod 256)
               (miso (S (S (S (spi_clock st)))) mod 256);
             EvSpiTransfer (Z.shiftr data 8 mod 256)
               (miso (S (S (spi_clock st))) mod 256);
             EvSpiTransfer addr (miso (S (spi_clock st)) mod 256);
             EvSpiTransfer 0xD0 (miso (spi_clock st) mod 256);
             EvDigitalWrite (PIN_CS cfg) false] ++ trace st).
    rewrite mosi_bytes_app. cbn [mosi_bytes app].
    rewrite Hhi, Hlo. reflexivity.
  - pose proof (Z.div_mod data 256 ltac:(lia)). lia.
  - change (2 ^ 16) with 65536 in Hd.
    split; [apply Z.div_pos; lia | apply Z.div_lt_upper_bound; lia].
  - reflexivity.
  - reflexivity.
Qed.

Lemma range_sel_byte (range_code : Z) (b : bool) :
  let data := Z.lor (Z.land range_code 0x000F)
                    (if b then ADSX_INTREF_ENABLE else ADSX_INTREF_DISABLE) in
  data = Z.land range_code 0xF + (if b then 0 else 64)
  /\ Z.shiftr data 8 mod 256 = 0
  /\ Z.land data 0xFF mod 256 = data
  /\ Z.land data 0xF = Z.land range_code 0xF
  /\ Z.testbit data 6 = negb b.
Proof.
  intros data. unfold data.
  assert (Hc : 0 <= Z.land range_code 0xF < 16).
  { change 0xF with (Z.ones 4). rewrite Z.land_ones by lia.
    apply Z.mod_pos_bound. lia. }
  assert (Hcases : exists c, Z.land range_code 0xF = c /\
            (c = 0 \/ c = 1 \/ c = 2 \/ c = 3 \/ c = 4 \/ c = 5
             \/ c = 6 \/ c = 7 \/ c = 8 \/ c = 9 \/ c = 10 \/ c = 11
             \/ c = 12 \/ c = 13 \/ c = 14 \/ c = 15))
    by (eexists; split; [reflexivity | lia]).
  destruct Hcases as (c & -> & Hcases).
  repeat (destruct Hcases as [-> | Hcases]); try subst c;
    destruct b; repeat split; reflexivity.
Qed.

Lemma trace_adsxSetRange {F : Type} (miso : nat -> Z) (cfg : Config F)
    (range_code : Z) (useInternalRef : bool) (st : State F) :
  trace (snd (adsxSetRange miso cfg range_code useInternalRef st))
  = adsxSetRange_events miso cfg range_code useInternalRef (spi_clock st)
    ++ trace st.
Proof. reflexivity. Qed.

(** X10. [adsxSetRange] writes the RANGE_SEL register (address 0x14) with
    the low four bits of the selector and, in bit 6, the INTREF_DIS flag
    (set when the internal reference is not used), then sends two NOP
    frames; the selector and the flag it records in the globals are the
    ones it has written to the device. *)
Theorem adsxSetRange_register {F : Type} (miso : nat -> Z) (cfg : Config F)
    (range_code : Z) (useInternalRef : bool) (st : State F) :
  let st' := snd (adsxSetRange miso cfg range_code useInternalRef st) in
  let w := Z.land range_code 0xF + (if useInternalRef then 0 else 64) in
  mosi_bytes (trace st')
  = mosi_bytes (trace st)
    ++ [0xD0; ADSX_REG_RANGE_SEL; 0; w; 0; 0; 0; 0; 0; 0; 0; 0]
  /\ g_range_code (globals st') = Z.land w 0xF
  /\ 0 <= g_range_code (globals st') <= 15
  /\ g_useInternalRef (globals st') = negb (Z.testbit w 6)
  /\ g_useInternalRef (globals st') = useInternalRef
  /\ spi_clock st' = (12 + spi_clock st)%nat.
Proof.
  intros st' w.
  destruct (range_sel_byte range_code useInternalRef)
    as (Hd & Hhi & Hlo & Hnib & Hbit).
  cbv zeta in Hd, Hhi, Hlo, Hnib, Hbit.
  set (data := Z.lor (Z.land range_code 0x000F)
                 (if useInternalRef then ADSX_INTREF_ENABLE
                  else ADSX_INTREF_DISABLE)) in *.
  fold w in Hd.
  assert (Hg : globals st'
               = with_range (Z.land range_code 0xF) useInternalRef
                   (globals st)) by reflexivity.
  assert (Hc : 0 <= Z.land range_code 0xF < 16).
  { change 0xF with (Z.ones 4). rewrite Z.land_ones by lia.
    apply Z.mod_pos_bound. lia. }
  split; [|split; [|split; [|split; [|split]]]].
  - unfold st'. rewrite trace_adsxSetRange, mosi_bytes_app.
    unfold adsxSetRange_events, frame_events. fold data.
    cbn [mosi_bytes app].
    rewrite Hhi, Hlo, Hd. reflexivity.
  - rewrite Hg. cbn [with_range g_range_code]. rewrite <- Hd. symmetry. exact Hnib.
  - rewrite Hg. cbn [with_range g_range_code]. lia.
  - rewrite Hg. cbn [with_range g_useInternalRef]. rewrite <- Hd, Hbit.
    destruct useInternalRef; reflexivity.
  - rewrite Hg. reflexivity.
  - reflexivity.
Qed.

(** ** The events of each function *)

Section Traces.

Context {F : Type} {FA : FloatArith F}.
Variable miso : nat -> Z.
Variable cfg : Config F.

Lemma trace_adsxReadCodeNbits (st : State F) :
  trace (snd (adsxReadCodeNbits miso cfg st))
  = adsxReadCodeNbits_events miso cfg (spi_clock st) ++ trace st.
Proof. reflexivity. Qed.

Lemma trace_setup (st : State F) :
  trace (snd (setup miso cfg st))
  = setup_events miso cfg (globals st) (spi_clock st) ++ trace st.
Proof.
  destruct st as [g clock tr]. destruct g as [rc ir vr na en sl off].
  unfold setup_events, setup, adsxSetVrefVolts, fitted_offset, fitted_slope.
  cbn [globals spi_clock trace g_range_code].
  destruct (PIN_RST cfg >=? 0), (ADSX_ENABLE_TWO_POINT_CAL cfg),
    (f_ne (ADSX_CAL_P2_MEASURED cfg) (ADSX_CAL_P1_MEASURED cfg)),
    (f_gt (f_dec 4096 3) (f_dec 0 1));
    cbv [bind emit assign gets ret delay digitalWrite pinModeOutput
         adsxSetRange writeRegHWord frameNOP xfer32 SPI_transfer
         delayMicroseconds snd fst globals spi_clock trace
         with_vref with_range with_cal_enabled with_cal_slope
         with_cal_offset g_range_code g_useInternalRef g_vref_volts
         g_num_averages g_cal_enabled g_cal_slope g_cal_offset
         adsxSetRange_events frame_events app];
    try destruct (Z.land rc 15 =? ADSX_CAL_RANGE_CODE cfg);
    reflexivity.
Qed.

Lemma bus_from_app (cs : Z) (b : Bus) (new old : list (Event F)) :
  bus_from cs b (new ++ old)
  = match bus_from cs b old with
    | Some b' => bus_from cs b' new
    | None => None
    end.
Proof.
  induction new as [|e new IH]; cbn [app bus_from].
  - destruct (bus_from cs b old); reflexivity.
  - rewrite IH. destruct (bus_from cs b old); reflexivity.
Qed.

Lemma bus_frame (b0 b1 b2 b3 : Z) (clock : nat) (x : bool) :
  bus_from (PIN_CS cfg)
    {| bus_begun := x; bus_in_transaction := true; bus_cs_low := false;
       bus_frame_bytes := 0 |}
    (frame_events miso cfg b0 b1 b2 b3 clock)
  = Some {| bus_begun := x; bus_in_transaction := true;
            bus_cs_low := false; bus_frame_bytes := 0 |}.
Proof.
  unfold frame_events. cbn [bus_from bus_step].
  rewrite !Z.eqb_refl. reflexivity.
Qed.

Lemma frame_pins (b0 b1 b2 b3 : Z) (clock : nat) :
  forallb (pin_allowed cfg) (frame_events miso cfg b0 b1 b2 b3 clock) = true.
Proof.
  unfold frame_events. cbn [forallb pin_allowed].
  rewrite !Z.eqb_refl. reflexivity.
Qed.

Lemma routine_nil : routine cfg [].
Proof. repeat split. Qed.

Lemma routine_app (a b : list (Event F)) :
  routine cfg a -> routine cfg b -> routine cfg (a ++ b).
Proof.
  intros (Ha1 & Ha2 & Ha3) (Hb1 & Hb2 & Hb3). unfold routine.
  rewrite bus_from_app, Hb1, Ha1, forallb_app, Ha2, Hb2, existsb_app,
    Ha3, Hb3.
  repeat split.
Qed.

Lemma routine_read (clock : nat) :
  routine cfg (adsxReadCodeNbits_events miso cfg clock).
Proof.
  unfold routine, adsxReadCodeNbits_events. split; [|split].
  - rewrite !bus_from_app. cbn [bus_from bus_step bus_at bus_begun
      bus_in_transaction bus_cs_low bus_frame_bytes andb negb].
    rewrite bus_frame. cbn [bus_from bus_step]. rewrite bus_frame.
    reflexivity.
  - rewrite !forallb_app, !frame_pins. reflexivity.
  - reflexivity.
Qed.

Lemma routine_set_range (range_code : Z) (b : bool) (clock : nat) :
  routine cfg (adsxSetRange_events miso cfg range_code b clock).
Proof.
  unfold routine, adsxSetRange_events. split; [|split].
  - rewrite !bus_from_app. cbn [bus_from bus_step bus_at bus_begun
      bus_in_transaction bus_cs_low bus_frame_bytes andb negb].
    rewrite bus_frame. cbn [bus_from bus_step bus_begun
      bus_in_transaction bus_cs_low bus_frame_bytes andb negb].
    rewrite bus_frame. cbn [bus_from bus_step]. rewrite bus_frame.
    reflexivity.
  - rewrite !forallb_app, !frame_pins. reflexivity.
  - reflexivity.
Qed.

Lemma accumulate_routine (k : nat) (acc : Z) (st : State F) :
  exists new,
    trace (snd (accumulate miso cfg k acc st)) = new ++ trace st
    /\ routine cfg new.
Proof.
  revert acc st. induction k as [|k IH]; intros acc st.
  - exists []. split; [reflexivity | apply routine_nil].
  - rewrite accumulate_step.
    destruct (IH ((acc + fst (adsxReadCodeNbits miso cfg st)) mod 2 ^ 32)
                (snd (delay 1 (snd (adsxReadCodeNbits miso cfg st)))))
      as (new & Ht & Hr).
    exists (new ++ [EvDelay 1]
            ++ adsxReadCodeNbits_events miso cfg (spi_clock st)).
    split.
    + rewrite Ht.
      change (trace (snd (delay 1 (snd (adsxReadCodeNbits miso cfg st)))))
        with (EvDelay 1 :: trace (snd (adsxReadCodeNbits miso cfg st))).
      rewrite trace_adsxReadCodeNbits, <- !app_assoc. reflexivity.
    + apply routine_app; [exact Hr|].
      apply routine_app; [repeat split | apply routine_read].
Qed.

Lemma loop_routine (st : State F) :
  exists new,
    trace (snd (loop miso cfg st)) = new ++ trace st /\ routine cfg new.
Proof.
  unfold loop. run_binds.
  change (trace (snd (delay 2000 ?s))) with (EvDelay 2000 :: trace s).
  rewrite !trace_emit, adsxReadAveragedVolts_eq. cbn [snd fst].
  destruct (accumulate_routine
              (Z.to_nat (averaging_count (globals st))) 0 st)
    as (new & Ht & Hr).
  rewrite Ht.
  eexists (_ :: _ :: _ :: new). split; [reflexivity|].
  change (?a :: ?b :: ?c :: new) with ([a; b; c] ++ new).
  apply routine_app; [repeat split | exact Hr].
Qed.

Lemma loops_routine (k : nat) (st : State F) :
  exists new,
    trace (snd (loops miso cfg k st)) = new ++ trace st /\ routine cfg new.
Proof.
  revert st. induction k as [|k IH]; intros st.
  - exists []. split; [reflexivity | apply routine_nil].
  - rewrite loops_step.
    destruct (IH (snd (loop miso cfg st))) as (new & Ht & Hr).
    destruct (loop_routine st) as (new' & Ht' & Hr').
    exists (new ++ new'). split.
    + rewrite Ht, Ht', app_assoc. reflexivity.
    + apply routine_app; assumption.
Qed.

Lemma run_trace (k : nat) :
  exists new,
    trace (run miso cfg k)
    = new ++ setup_events miso cfg (initial_globals cfg) O
    /\ routine cfg new.
Proof.
  rewrite run_eq.
  destruct (loops_routine k (snd (setup miso cfg (initial_state cfg))))
    as (new & Ht & Hr).
  exists new. split; [|exact Hr].
  rewrite Ht, trace_setup. cbn [initial_state globals spi_clock trace].
  rewrite app_nil_r. reflexivity.
Qed.

End Traces.

(** ** The whole run *)

Lemma setup_events_bus {F : Type} {FA : FloatArith F} (miso : nat -> Z)
    (cfg : Config F) (g : Globals F) (clock : nat) (x : bool) :
  PIN_RST cfg <> PIN_CS cfg ->
  bus_from (PIN_CS cfg) (bus_at x) (setup_events miso cfg g clock)
  = Some (bus_at true).
Proof.
  intros Hpins. apply Z.eqb_neq in Hpins.
  unfold setup_events.
  rewrite !bus_from_app.
  assert (H1 : @bus_from F (PIN_CS cfg) (bus_at x)
                 [EvDigitalWrite (PIN_CS cfg) true;
                  EvPinModeOutput (PIN_CS cfg);
                  EvDelay 2000; EvSerialBegin 115200]
               = Some (bus_at x)).
  { cbn [bus_from bus_step]. rewrite Z.eqb_refl. reflexivity. }
  rewrite H1. cbv beta iota.
  assert (H2 : @bus_from F (PIN_CS cfg) (bus_at x)
                 (if PIN_RST cfg >=? 0
                  then [EvDigitalWrite (PIN_RST cfg) true; EvDelay 1;
                        EvDigitalWrite (PIN_RST cfg) false;
                        EvDigitalWrite (PIN_RST cfg) true;
                        EvPinModeOutput (PIN_RST cfg)]
                  else [])
               = Some (bus_at x)).
  { destruct (PIN_RST cfg >=? 0); [|reflexivity].
    cbn [bus_from bus_step]. rewrite !Hpins. reflexivity. }
  rewrite H2. cbv beta iota.
  change (@bus_from F (PIN_CS cfg) (bus_at x) [EvSpiBegin; EvDelay 20])
    with (Some (bus_at true)).
  cbv beta iota.
  rewrite (proj1 (routine_set_range miso cfg (g_range_code g) true clock)).
  cbv beta iota.
  destruct (ADSX_ENABLE_TWO_POINT_CAL cfg);
    [destruct (f_ne (ADSX_CAL_P2_MEASURED cfg) (ADSX_CAL_P1_MEASURED cfg));
     [destruct (negb (Z.land (g_range_code g) 0xF
                      =? ADSX_CAL_RANGE_CODE cfg))|]|];
    reflexivity.
Qed.

Lemma setup_events_pins {F : Type} {FA : FloatArith F} (miso : nat -> Z)
    (cfg : Config F) (g : Globals F) (clock : nat) :
  forallb (pin_allowed cfg) (setup_events miso cfg g clock) = true.
Proof.
  unfold setup_events.
  rewrite !forallb_app.
  rewrite (proj1 (proj2 (routine_set_range miso cfg (g_range_code g) true
                           clock))).
  assert (H2 : forallb (@pin_allowed F cfg)
                 (if PIN_RST cfg >=? 0
                  then [EvDigitalWrite (PIN_RST cfg) true; EvDelay 1;
                        EvDigitalWrite (PIN_RST cfg) false;
                        EvDigitalWrite (PIN_RST cfg) true;
                        EvPinModeOutput (PIN_RST cfg)]
                  else [])
               = true).
  { destruct (PIN_RST cfg >=? 0) eqn:E; [|reflexivity].
    rewrite Z.geb_leb in E.
    cbn [forallb pin_allowed]. rewrite !Z.eqb_refl, !E.
    rewrite !orb_true_r. reflexivity. }
  rewrite H2.
  cbn [forallb pin_allowed]. rewrite !Z.eqb_refl.
  destruct (ADSX_ENABLE_TWO_POINT_CAL cfg);
    [destruct (f_ne (ADSX_CAL_P2_MEASURED cfg) (ADSX_CAL_P1_MEASURED cfg));
     [destruct (negb (Z.land (g_range_code g) 0xF
                      =? ADSX_CAL_RANGE_CODE cfg))|]|];
    reflexivity.
Qed.

Lemma setup_events_warning {F : Type} {FA : FloatArith F} (miso : nat -> Z)
    (cfg : Config F) (g : Globals F) (clock : nat) :
  existsb is_range_warning (setup_events miso cfg g clock)
  = ADSX_ENABLE_TWO_POINT_CAL cfg
    && f_ne (ADSX_CAL_P2_MEASURED cfg) (ADSX_CAL_P1_MEASURED cfg)
    && negb (Z.land (g_range_code g) 0xF =? ADSX_CAL_RANGE_CODE cfg).
Proof.
  unfold setup_events.
  rewrite !existsb_app.
  rewrite (proj2 (proj2 (routine_set_range miso cfg (g_range_code g) true
                           clock))).
  assert (H2 : existsb is_range_warning
                 (if PIN_RST cfg >=? 0
                  then [EvDigitalWrite (PIN_RST cfg) true; EvDelay 1;
                        EvDigitalWrite (PIN_RST cfg) false;
                        EvDigitalWrite (PIN_RST cfg) true;
                        EvPinModeOutput (PIN_RST cfg)]
                  else [] : list (Event F))
               = false)
    by (destruct (PIN_RST cfg >=? 0); reflexivity).
  rewrite H2.
  destruct (ADSX_ENABLE_TWO_POINT_CAL cfg);
    [destruct (f_ne (ADSX_CAL_P2_MEASURED cfg) (ADSX_CAL_P1_MEASURED cfg));
     [destruct (negb (Z.land (g_range_code g) 0xF
                      =? ADSX_CAL_RANGE_CODE cfg))|]|];
    reflexivity.
Qed.

(** The discipline is a real constraint: a byte sent before chip select
    goes low is refused. *)
Lemma bus_refuses_byte_with_chip_select_high :
  bus_after 10
    [EvSpiTransfer 0 0; EvSpiBeginTransaction; EvSpiBegin
     : Event spec_float]
  = None.
Proof. reflexivity. Qed.

(** X11. The sketch keeps the discipline of the bus.  Over [setup()] and any
    number of passes of [loop()], with the reset pin not the chip select
    pin: transactions are opened after [SPI.begin()] and never nested, chip
    select falls only inside a transaction and rises after exactly four
    bytes, no byte is exchanged with chip select high, and at the end no
    transaction is left open. *)
Theorem run_bus_discipline {F : Type} {FA : FloatArith F} (miso : nat -> Z)
    (cfg : Config F) (k : nat) :
  PIN_RST cfg <> PIN_CS cfg ->
  bus_after (PIN_CS cfg) (trace (run miso cfg k)) = Some (bus_at true).
Proof.
  intros Hpins.
  destruct (run_trace miso cfg k) as (new & Ht & Hr & _).
  rewrite Ht. unfold bus_after.
  rewrite bus_from_app, setup_events_bus by assumption.
  exact Hr.
Qed.

(** X12. Over [setup()] and any number of passes of [loop()] the sketch
    configures and drives no pin but chip select and, when one is
    configured ([PIN_RST >= 0]), the reset pin. *)
Theorem run_drives_its_pins_only {F : Type} {FA : FloatArith F}
    (miso : nat -> Z) (cfg : Config F) (k : nat) :
  forallb (pin_allowed cfg) (trace (run miso cfg k)) = true.
Proof.
  destruct (run_trace miso cfg k) as (new & Ht & _ & Hr & _).
  rewrite Ht, forallb_app, Hr, setup_events_pins. reflexivity.
Qed.

(** X13. The warning about the calibration range is printed exactly when a
    model has been fitted (calibration compiled in, measured values
    different) and the low four bits of the initial range selector are not
    the calibration range; [loop()] never prints it. *)
Theorem range_warning_printed_iff {F : Type} {FA : FloatArith F}
    (miso : nat -> Z) (cfg : Config F) (k : nat) :
  existsb is_range_warning (trace (run miso cfg k))
  = ADSX_ENABLE_TWO_POINT_CAL cfg
    && f_ne (ADSX_CAL_P2_MEASURED cfg) (ADSX_CAL_P1_MEASURED cfg)
    && negb (Z.land (init_range_code cfg) 0xF =? ADSX_CAL_RANGE_CODE cfg).
Proof.
  destruct (run_trace miso cfg k) as (new & Ht & _ & _ & Hr).
  rewrite Ht, existsb_app, Hr, setup_events_warning. reflexivity.
Qed.

(** ** Unipolar ranges *)

Section Unipolar.

Variable mP : positive.
Variable eP : Z.
Variable N : Z.
Hypothesis HmP : digits mP = 24.
Hypothesis HeP : -100 <= eP <= 100.
Hypothesis HN : N = 16 \/ N = 18.

Local Abbreviation P := (S754_finite false mP eP).
Local Abbreviation LSB := (unipolar_LSB P N).
Local Abbreviation vol := (unipolar_volts P N).

Lemma unipolar_LSB_eq : LSB = S754_finite false mP (eP - N).
Proof.
  unfold unipolar_LSB. rewrite zero_literal.
  change (B32.sub P (S754_zero false)) with P.
  assert (E : B32.of_Z (2 ^ N) = S754_finite false 8388608 (N - 23))
    by (destruct HN as [-> | ->]; reflexivity).
  rewrite E, div_pow2 by (assumption || lia).
  reflexivity.
Qed.

Lemma unipolar_vol_0 : vol 0 = S754_zero false.
Proof. unfold unipolar_volts. rewrite unipolar_LSB_eq. reflexivity. Qed.

Lemma unipolar_LSB_value :
  (B32.to_Q LSB * inject_Z (2 ^ N) == B32.to_Q P)%Q.
Proof.
  rewrite unipolar_LSB_eq. rewrite !to_Q_finite. cbn [signed].
  rewrite <- pow2_nonneg by (destruct HN; lia).
  rewrite <- Qmult_assoc, <- pow2_add.
  replace (eP - N + N) with eP by lia. reflexivity.
Qed.

Lemma unipolar_P_pos : (0 < B32.to_Q P)%Q.
Proof.
  rewrite to_Q_finite. cbn [signed].
  apply Qmult_lt_0_compat; [reflexivity | apply pow2_pos].
Qed.

(** The voltage of a code is the product [code * LSB], rounded once. *)
Lemma unipolar_vol_approx (c : Z) :
  0 <= c <= 2 ^ N - 1 ->
  (Qabs (B32.to_Q (vol c) - inject_Z c * B32.to_Q LSB)
   <= u * (inject_Z c * B32.to_Q LSB))%Q
  /\ zero_or_canonical (vol c).
Proof.
  intros Hc.
  assert (HLpos : (0 < B32.to_Q LSB)%Q).
  { rewrite unipolar_LSB_eq, to_Q_finite. cbn [signed].
    apply Qmult_lt_0_compat; [reflexivity | apply pow2_pos]. }
  destruct (Z.eq_dec c 0) as [-> | Hc0].
  - rewrite unipolar_vol_0. split.
    + change (inject_Z 0) with 0%Q. change (B32.to_Q (S754_zero false)) with 0%Q.
      apply Qabs_Qle_condition. unfold u. split; lra.
    + left. exists false. reflexivity.
  - assert (Hc24 : 0 < c < 2 ^ 24).
    { assert (2 ^ N <= 2 ^ 24)
        by (apply Z.pow_le_mono_r; destruct HN; lia). lia. }
    destruct (of_Z_spec c Hc24) as (mc & ec & Hof & Hdc & Hec & Hclo & Hcv).
    assert (HecN : ec <= N - 24).
    { destruct (Z.le_gt_cases ec (N - 24)) as [|Hgt]; [assumption|].
      exfalso.
      assert (2 ^ N <= 2 ^ (ec + 23))
        by (apply Z.pow_le_mono_r; destruct HN; lia).
      lia. }
    destruct (mul_spec false mc ec false mP (eP - N) Hdc HmP)
      as (mX & eX & Hmul & HdX & HeX & HerrX); [destruct HN; lia|].
    cbn [xorb] in Hmul, HerrX.
    unfold unipolar_volts. rewrite unipolar_LSB_eq, Hof, Hmul, zero_literal.
    change (B32.add (S754_zero false) (S754_finite false mX eX))
      with (S754_finite false mX eX).
    rewrite Hcv in HerrX.
    assert (Hcpos : (0 < inject_Z c)%Q)
      by (change 0%Q with (inject_Z 0); rewrite <- Zlt_Qlt; lia).
    assert (HLv : (0 < B32.to_Q (S754_finite false mP (eP - N)))%Q)
      by (rewrite <- unipolar_LSB_eq; exact HLpos).
    assert (Hprod : (0 < inject_Z c * B32.to_Q (S754_finite false mP (eP - N)))%Q)
      by (apply Qmult_lt_0_compat; assumption).
    rewrite (Qabs_pos (inject_Z c * _)) in HerrX by lra.
    split; [exact HerrX|].
    right. exists false, mX, eX. split; [reflexivity | assumption].
Qed.

(** Strictly increasing: one rounding cannot make up for a step of [LSB]. *)
Lemma unipolar_vol_increasing (c1 c2 : Z) :
  0 <= c1 -> c1 < c2 -> c2 <= 2 ^ N - 1 ->
  (B32.to_Q (vol c1) < B32.to_Q (vol c2))%Q.
Proof.
  intros H1 H12 H2.
  destruct (unipolar_vol_approx c1 ltac:(lia)) as (HX1 & _).
  destruct (unipolar_vol_approx c2 ltac:(lia)) as (HX2 & _).
  pose proof unipolar_P_pos as HP.
  pose proof unipolar_LSB_value as HL.
  set (Pq := B32.to_Q P) in *.
  set (L := B32.to_Q LSB) in *.
  set (F1 := B32.to_Q (vol c1)) in *.
  set (F2 := B32.to_Q (vol c2)) in *.
  assert (HC1 : (0 <= inject_Z c1)%Q)
    by (change 0%Q with (inject_Z 0); rewrite <- Zle_Qle; lia).
  assert (HC12 : (inject_Z c1 + 1 <= inject_Z c2)%Q).
  { change 1%Q with (inject_Z 1). rewrite <- inject_Z_plus, <- Zle_Qle. lia. }
  assert (HC2 : (inject_Z c2 + 1 <= inject_Z (2 ^ N))%Q).
  { change 1%Q with (inject_Z 1). rewrite <- inject_Z_plus, <- Zle_Qle. lia. }
  assert (HK : (1 <= inject_Z (2 ^ N))%Q /\ (inject_Z (2 ^ N) <= 262144)%Q).
  { destruct HN as [-> | ->]; split; unfold Qle; cbn; lia. }
  assert (HLpos : (0 < L)%Q) by nra.
  assert (HT1 : (0 <= inject_Z c1 * L)%Q) by nra.
  assert (HT12 : (inject_Z c1 * L + L <= inject_Z c2 * L)%Q) by nra.
  assert (HT2 : (inject_Z c2 * L <= 262144 * L)%Q) by nra.
  clear HC1 HC12 HC2 HL.
  set (T1 := (inject_Z c1 * L)%Q) in *.
  set (T2 := (inject_Z c2 * L)%Q) in *.
  clearbody T1 T2 F1 F2 L Pq.
  apply Qabs_Qle_condition in HX1, HX2.
  unfold u in *. lra.
Qed.

End Unipolar.

(** The multiplier of every selector is a normal number between 1/2 and 4. *)
Lemma multiplier_normal (code : Z) :
  exists (mm : positive) (em : Z),
    fst (adsxRangeMultiplier spec_float code) = S754_finite false mm em
    /\ digits mm = 24 /\ -24 <= em <= -22.
Proof.
  rewrite <- (adsxRangeMultiplier_land (F:=spec_float) code).
  assert (Hc : 0 <= Z.land code 0xF < 16).
  { change 0xF with (Z.ones 4). rewrite Z.land_ones by lia.
    apply Z.mod_pos_bound. lia. }
  assert (Hcases : exists c, Z.land code 0xF = c /\
            (c = 0 \/ c = 1 \/ c = 2 \/ c = 3 \/ c = 4 \/ c = 5
             \/ c = 6 \/ c = 7 \/ c = 8 \/ c = 9 \/ c = 10 \/ c = 11
             \/ c = 12 \/ c = 13 \/ c = 14 \/ c = 15))
    by (eexists; split; [reflexivity | lia]).
  destruct Hcases as (c & -> & Hcases).
  repeat (destruct Hcases as [-> | Hcases]); try subst c;
    eexists; eexists;
    (split; [vm_compute; reflexivity | split; [reflexivity | lia]]).
Qed.

Lemma volts_is_unipolar (cfg : Config spec_float) (g : Globals spec_float)
    (code : Z) :
  bits_ok (ADSX_BITS cfg) ->
  snd (adsxRangeMultiplier spec_float (g_range_code g)) = false ->
  0 <= code <= 2 ^ ADSX_BITS cfg - 1 ->
  adsxCodeToVolts cfg g code
  = unipolar_volts
      (B32.mul (fst (adsxRangeMultiplier spec_float (g_range_code g)))
               (g_vref_volts g))
      (ADSX_BITS cfg) code.
Proof.
  intros Hbits Hb Hc.
  rewrite (adsxCodeToVolts_unclamped cfg Hbits)
    by (apply in_range_not_clamped; [assumption | lia]).
  unfold transfer. rewrite Hb. reflexivity.
Qed.

(** X14. For a unipolar range and a reference voltage that is a normal
    binary32 number between 2^-76 and 2^121, code 0 converts to 0 V exactly
    and the voltage is strictly increasing in the code over [0, 2^N - 1]:
    as a number, and under the [<] of the floats. *)
Theorem unipolar_zero_and_monotone
    (cfg : Config spec_float) (g : Globals spec_float)
    (m : positive) (e : Z) :
  bits_ok (ADSX_BITS cfg) ->
  snd (adsxRangeMultiplier spec_float (g_range_code g)) = false ->
  g_vref_volts g = S754_finite false m e ->
  2 ^ 23 <= Zpos m < 2 ^ 24 ->
  -99 <= e <= 97 ->
  adsxCodeToVolts cfg g 0 = S754_zero false
  /\ forall c1 c2 : Z,
       0 <= c1 -> c1 < c2 -> c2 <= 2 ^ ADSX_BITS cfg - 1 ->
       (B32.to_Q (adsxCodeToVolts cfg g c1)
        < B32.to_Q (adsxCodeToVolts cfg g c2))%Q
       /\ SFltb (adsxCodeToVolts cfg g c1) (adsxCodeToVolts cfg g c2) = true.
Proof.
  intros Hbits Hb Hv Hm He.
  destruct (multiplier_normal (g_range_code g)) as (mm & em & Hmult & Hdmm & Hem).
  assert (Hdm : digits m = 24) by (apply digits_24; exact Hm).
  destruct (mul_spec false mm em false m e Hdmm Hdm)
    as (mP & eP & HP & HdP & HeP & _); [lia|].
  cbn [xorb] in HP.
  assert (Hpow : 0 < 2 ^ ADSX_BITS cfg - 1)
    by (destruct Hbits as [-> | ->]; lia).
  assert (Hvol : forall c, 0 <= c <= 2 ^ ADSX_BITS cfg - 1 ->
            adsxCodeToVolts cfg g c
            = unipolar_volts (S754_finite false mP eP) (ADSX_BITS cfg) c).
  { intros c Hc. rewrite volts_is_unipolar by assumption.
    rewrite Hmult, Hv, HP. reflexivity. }
  assert (HeP' : -100 <= eP <= 100) by lia.
  split.
  - rewrite Hvol by lia.
    apply (unipolar_vol_0 mP eP (ADSX_BITS cfg) HdP HeP' Hbits).
  - intros c1 c2 H1 H12 H2.
    rewrite (Hvol c1), (Hvol c2) by lia.
    pose proof (unipolar_vol_increasing mP eP (ADSX_BITS cfg) HdP HeP' Hbits
                  c1 c2 H1 H12 H2) as Hlt.
    split; [exact Hlt|].
    apply SFltb_of_value_lt; [| | exact Hlt].
    + apply (unipolar_vol_approx mP eP (ADSX_BITS cfg) HdP HeP' Hbits c1).
      lia.
    + apply (unipolar_vol_approx mP eP (ADSX_BITS cfg) HdP HeP' Hbits c2).
      lia.
Qed.

(** ** The transfer function in binary32 against the exact one *)

Lemma Qabs_scaled (s d b : Q) :
  (Qabs s <= 1)%Q -> (Qabs d <= b)%Q -> (Qabs (s * d) <= b)%Q.
Proof.
  intros Hs Hd. rewrite Qabs_Qmult.
  pose proof (Qabs_nonneg s). pose proof (Qabs_nonneg d).
  nra.
Qed.

Section FullScale.

Variable mP : positive.
Variable eP : Z.
Variable N : Z.
Hypothesis HmP : digits mP = 24.
Hypothesis HeP : -100 <= eP <= 100.
Hypothesis HN : N = 16 \/ N = 18.

(** The exact full scale [Pq] that [P] is the rounding of. *)
Variable Pq : Q.
Hypothesis HPq : (0 < Pq)%Q.
Hypothesis HP : close Pq (B32.to_Q (S754_finite false mP eP)).

Local Abbreviation P := (S754_finite false mP eP).
Local Abbreviation K := (inject_Z (2 ^ N)).

Lemma K_bounds : (65536 <= K)%Q /\ (K <= 262144)%Q.
Proof. destruct HN as [-> | ->]; split; unfold Qle; cbn; lia. Qed.

Lemma code_fraction (c : Z) :
  0 <= c <= 2 ^ N - 1 ->
  (0 <= inject_Z c / K)%Q /\ (inject_Z c / K + / K <= 1)%Q.
Proof.
  intros Hc. pose proof K_bounds as [HK1 HK2].
  assert (HC1 : (0 <= inject_Z c)%Q)
    by (change 0%Q with (inject_Z 0); rewrite <- Zle_Qle; lia).
  assert (HC2 : (inject_Z c + 1 <= K)%Q).
  { change 1%Q with (inject_Z 1). rewrite <- inject_Z_plus, <- Zle_Qle. lia. }
  assert (HKi : (0 < / K)%Q) by (apply Qinv_lt_0_compat; lra).
  assert (HKK : (K * / K == 1)%Q) by (apply Qmult_inv_r; lra).
  unfold Qdiv. split.
  - apply Qmult_le_0_compat; lra.
  - setoid_replace (inject_Z c * / K + / K)%Q
      with ((inject_Z c + 1) * / K)%Q by ring.
    rewrite <- HKK. apply Qmult_le_compat_r; lra.
Qed.

Lemma unipolar_within (c : Z) :
  0 <= c <= 2 ^ N - 1 ->
  (0 <= B32.to_Q (unipolar_volts P N c) < B32.to_Q P)%Q
  /\ (Qabs (B32.to_Q (unipolar_volts P N c) - inject_Z c * (Pq / K))
      <= (5 # 16777216) * Pq)%Q.
Proof.
  intros Hc.
  destruct (unipolar_vol_approx mP eP N HmP HeP HN c Hc) as (HX & _).
  pose proof (unipolar_LSB_value mP eP N HmP HeP HN) as HL.
  pose proof (unipolar_P_pos mP eP) as HPpos.
  pose proof K_bounds as [HK1 HK2].
  destruct (code_fraction c Hc) as [Ht0 Ht1].
  assert (HKi : (0 < / K)%Q) by (apply Qinv_lt_0_compat; lra).
  assert (HKiu : (1 <= 262144 * / K)%Q).
  { assert (HKK : (K * / K == 1)%Q) by (apply Qmult_inv_r; lra).
    rewrite <- HKK. apply Qmult_le_compat_r; lra. }
  unfold close in HP.
  rewrite (Qabs_pos Pq) in HP by lra.
  set (Pv := B32.to_Q P) in *.
  set (L := B32.to_Q (unipolar_LSB P N)) in *.
  set (V := B32.to_Q (unipolar_volts P N c)) in *.
  set (t := (inject_Z c / K)%Q) in *.
  assert (EL : (L == Pv / K)%Q) by (rewrite <- HL; field; lra).
  assert (ET : (inject_Z c * L == t * Pv)%Q)
    by (rewrite EL; unfold t; field; lra).
  assert (ETq : (inject_Z c * (Pq / K) == t * Pq)%Q)
    by (unfold t; field; lra).
  rewrite ET in HX. rewrite ETq.
  assert (HtP : (0 <= t * Pv)%Q) by (apply Qmult_le_0_compat; lra).
  assert (HtP1 : (t * Pv + Pv * / K <= Pv)%Q).
  { setoid_replace (t * Pv + Pv * / K)%Q with ((t + 1 / K) * Pv)%Q
      by (unfold Qdiv; ring).
    setoid_replace Pv with (1 * Pv)%Q at 2 by ring.
    apply Qmult_le_compat_r; [|lra].
    unfold Qdiv. rewrite ?Qmult_1_l. exact Ht1. }
  assert (HPK : (Pv <= 262144 * (Pv * / K))%Q).
  { setoid_replace (262144 * (Pv * / K))%Q with ((262144 * / K) * Pv)%Q
      by ring.
    setoid_replace Pv with (1 * Pv)%Q at 1 by ring.
    apply Qmult_le_compat_r; lra. }
  assert (Hd : (Qabs (t * (Pv - Pq)) <= u * Pq)%Q).
  { apply Qabs_scaled; [|exact HP].
    apply Qabs_Qle_condition. split; lra. }
  clearbody V. apply Qabs_Qle_condition in HX, HP, Hd.
  unfold u in *.
  split; [split|]; [lra | lra |].
  apply Qabs_Qle_condition. split; lra.
Qed.

Lemma bipolar_within (c : Z) :
  0 <= c <= 2 ^ N - 1 ->
  (B32.to_Q (B32.neg P) <= B32.to_Q (bipolar_volts P N c) < B32.to_Q P)%Q
  /\ (Qabs (B32.to_Q (bipolar_volts P N c)
            - (- Pq + inject_Z c * ((Pq - - Pq) / K)))
      <= (5 # 16777216) * Pq)%Q.
Proof.
  intros Hc.
  destruct (bipolar_vol_approx mP eP N HmP HeP HN c Hc)
    as (X & (HX & HXpos & HV) & _).
  pose proof (bipolar_LSB_value mP eP N HmP HeP HN) as HL.
  pose proof (bipolar_P_pos mP eP) as HPpos.
  pose proof K_bounds as [HK1 HK2].
  destruct (code_fraction c Hc) as [Ht0 Ht1].
  assert (HKi : (0 < / K)%Q) by (apply Qinv_lt_0_compat; lra).
  assert (HKiu : (1 <= 262144 * / K)%Q).
  { assert (HKK : (K * / K == 1)%Q) by (apply Qmult_inv_r; lra).
    rewrite <- HKK. apply Qmult_le_compat_r; lra. }
  assert (Hlow : (B32.to_Q (B32.neg P) <= B32.to_Q (bipolar_volts P N c))%Q).
  { change (B32.neg P) with (S754_finite true mP eP).
    destruct (Z.eq_dec c 0) as [-> | Hc0].
    - rewrite (bipolar_vol_0 mP eP N HmP HeP HN). apply Qle_refl.
    - apply Qlt_le_weak.
      rewrite <- (bipolar_vol_0 mP eP N HmP HeP HN).
      apply (bipolar_vol_increasing mP eP N HmP HeP HN); lia. }
  unfold close in HP.
  rewrite (Qabs_pos Pq) in HP by lra.
  set (Pv := B32.to_Q P) in *.
  set (L := B32.to_Q (bipolar_LSB P N)) in *.
  set (V := B32.to_Q (bipolar_volts P N c)) in *.
  set (t := (inject_Z c / K)%Q) in *.
  assert (EL : (L == 2 * Pv / K)%Q) by (rewrite <- HL; field; lra).
  assert (ET : (inject_Z c * L == 2 * (t * Pv))%Q)
    by (rewrite EL; unfold t; field; lra).
  assert (ETq : (inject_Z c * ((Pq - - Pq) / K) == 2 * (t * Pq))%Q)
    by (unfold t; field; lra).
  rewrite ET in HX. rewrite ETq.
  assert (HtP : (0 <= t * Pv)%Q) by (apply Qmult_le_0_compat; lra).
  assert (HtP1 : (t * Pv + Pv * / K <= Pv)%Q).
  { setoid_replace (t * Pv + Pv * / K)%Q with ((t + 1 / K) * Pv)%Q
      by (unfold Qdiv; ring).
    setoid_replace Pv with (1 * Pv)%Q at 2 by ring.
    apply Qmult_le_compat_r; [|lra].
    unfold Qdiv. rewrite ?Qmult_1_l. exact Ht1. }
  assert (HPK : (Pv <= 262144 * (Pv * / K))%Q).
  { setoid_replace (262144 * (Pv * / K))%Q with ((262144 * / K) * Pv)%Q
      by ring.
    setoid_replace Pv with (1 * Pv)%Q at 1 by ring.
    apply Qmult_le_compat_r; lra. }
  assert (Hd : (Qabs ((2 * t - 1) * (Pv - Pq)) <= u * Pq)%Q).
  { apply Qabs_scaled; [|exact HP].
    apply Qabs_Qle_condition. split; lra. }
  apply Qabs_Qle_condition in HX, HP, Hd.
  assert (HB : (Qabs (X - Pv) <= 2 * Pv)%Q)
    by (apply Qabs_Qle_condition; unfold u in *; split; lra).
  assert (HV' : (Qabs (V - (X - Pv)) <= u * (2 * Pv))%Q).
  { eapply Qle_trans; [exact HV|].
    apply Qmult_le_l; [reflexivity | exact HB]. }
  clearbody V. apply Qabs_Qle_condition in HV'.
  unfold u in *.
  split; [split|]; [exact Hlow | lra |].
  apply Qabs_Qle_condition. split; lra.
Qed.

End FullScale.

Lemma full_scale_normal (g : Globals spec_float) (m : positive) (e : Z) :
  g_vref_volts g = S754_finite false m e ->
  2 ^ 23 <= Zpos m < 2 ^ 24 ->
  -99 <= e <= 97 ->
  let mult := fst (adsxRangeMultiplier spec_float (g_range_code g)) in
  exists (mP : positive) (eP : Z),
    B32.mul mult (g_vref_volts g) = S754_finite false mP eP
    /\ digits mP = 24 /\ -100 <= eP <= 100
    /\ (0 < B32.to_Q mult * B32.to_Q (g_vref_volts g))%Q
    /\ close (B32.to_Q mult * B32.to_Q (g_vref_volts g))
             (B32.to_Q (S754_finite false mP eP)).
Proof.
  intros Hv Hm He mult.
  destruct (multiplier_normal (g_range_code g))
    as (mm & em & Hmult & Hdmm & Hem).
  assert (Hdm : digits m = 24) by (apply digits_24; exact Hm).
  destruct (mul_spec false mm em false m e Hdmm Hdm)
    as (mP & eP & HP & HdP & HeP & Herr); [lia|].
  cbn [xorb] in HP, Herr.
  exists mP, eP. unfold mult. rewrite Hmult, Hv, HP.
  split; [reflexivity|]. split; [exact HdP|]. split; [lia|]. split.
  - rewrite !to_Q_finite. cbn [signed].
    pose proof (pow2_pos em). pose proof (pow2_pos e).
    assert (0 < inject_Z (Zpos mm))%Q by reflexivity.
    assert (0 < inject_Z (Zpos m))%Q by reflexivity.
    apply Qmult_lt_0_compat; apply Qmult_lt_0_compat; assumption.
  - exact Herr.
Qed.

Lemma clamp_code (cfg : Config spec_float) (g : Globals spec_float)
    (code : Z) :
  bits_ok (ADSX_BITS cfg) ->
  0 <= code ->
  exists c, 0 <= c <= 2 ^ ADSX_BITS cfg - 1
            /\ adsxCodeToVolts cfg g code = adsxCodeToVolts cfg g c.
Proof.
  intros Hbits Hc.
  destruct (Z.le_gt_cases code (2 ^ ADSX_BITS cfg - 1)) as [Hle | Hgt].
  - exists code. split; [lia | reflexivity].
  - exists (2 ^ ADSX_BITS cfg - 1). split.
    + destruct Hbits as [-> | ->]; lia.
    + rewrite (adsxCodeToVolts_clamped cfg Hbits).
      * rewrite (adsxCodeToVolts_unclamped cfg Hbits).
        -- rewrite (mask_is_pow2_minus_1 _ Hbits). reflexivity.
        -- apply in_range_not_clamped; [assumption | lia].
      * rewrite (mask_is_pow2_minus_1 _ Hbits).
        rewrite Z.gtb_ltb. apply Z.ltb_lt. lia.
Qed.

(** X15. Whatever the code, also above the largest one, the voltage
    [adsxCodeToVolts] returns in binary32 lies in the range it computes:
    from [NFS] (minus full scale, or 0 for a unipolar range) up to but never
    reaching the positive full scale [PFS = multiplier * reference].  The
    reference voltage is a normal binary32 number between 2^-76 and
    2^121. *)
Theorem adsxCodeToVolts_within_full_scale
    (cfg : Config spec_float) (g : Globals spec_float)
    (m : positive) (e : Z) (code : Z) :
  bits_ok (ADSX_BITS cfg) ->
  g_vref_volts g = S754_finite false m e ->
  2 ^ 23 <= Zpos m < 2 ^ 24 ->
  -99 <= e <= 97 ->
  0 <= code ->
  let PFS := f_mul (fst (adsxRangeMultiplier spec_float (g_range_code g)))
                   (g_vref_volts g) in
  let NFS := if snd (adsxRangeMultiplier spec_float (g_range_code g))
             then f_neg PFS else f_dec 0 1 in
  (B32.to_Q NFS <= B32.to_Q (adsxCodeToVolts cfg g code) < B32.to_Q PFS)%Q.
Proof.
  intros Hbits Hv Hm He Hcode PFS NFS.
  destruct (full_scale_normal g m e Hv Hm He)
    as (mP & eP & HP & HdP & HeP & HPq & Hclose).
  destruct (clamp_code cfg g code Hbits Hcode) as (c & Hc & ->).
  unfold NFS, PFS.
  change (f_mul (fst (adsxRangeMultiplier spec_float (g_range_code g)))
                (g_vref_volts g))
    with (B32.mul (fst (adsxRangeMultiplier spec_float (g_range_code g)))
                  (g_vref_volts g)).
  destruct (snd (adsxRangeMultiplier spec_float (g_range_code g))) eqn:Hb.
  - rewrite volts_is_bipolar by assumption. rewrite HP.
    apply (bipolar_within mP eP (ADSX_BITS cfg) HdP HeP Hbits _ HPq Hclose c
             Hc).
  - rewrite volts_is_unipolar by assumption. rewrite HP.
    change (f_dec 0 1) with (B32.dec 0 1). rewrite zero_literal.
    apply (unipolar_within mP eP (ADSX_BITS cfg) HdP HeP Hbits _ HPq Hclose
             c Hc).
Qed.

(** X16. The rounding of binary32 costs little.  For a code in
    [0, 2^N - 1] the voltage [adsxCodeToVolts] returns is within
    [5 * 2^-24] of the positive full scale of the exact value
    [NFS + code * (PFS - NFS) / 2^N], computed in rational numbers from
    the multiplier and the reference voltage: less than a tenth of an LSB
    at 18 bits. *)
Theorem adsxCodeToVolts_accuracy
    (cfg : Config spec_float) (g : Globals spec_float)
    (m : positive) (e : Z) (code : Z) :
  bits_ok (ADSX_BITS cfg) ->
  g_vref_volts g = S754_finite false m e ->
  2 ^ 23 <= Zpos m < 2 ^ 24 ->
  -99 <= e <= 97 ->
  0 <= code <= 2 ^ ADSX_BITS cfg - 1 ->
  let PFS := (B32.to_Q (fst (adsxRangeMultiplier spec_float (g_range_code g)))
              * B32.to_Q (g_vref_volts g))%Q in
  let NFS := if snd (adsxRangeMultiplier spec_float (g_range_code g))
             then (- PFS)%Q else 0%Q in
  (Qabs (B32.to_Q (adsxCodeToVolts cfg g code)
         - (NFS + inject_Z code
                  * ((PFS - NFS) / inject_Z (2 ^ ADSX_BITS cfg))))
   <= (5 # 16777216) * PFS)%Q.
Proof.
  intros Hbits Hv Hm He Hc PFS NFS.
  destruct (full_scale_normal g m e Hv Hm He)
    as (mP & eP & HP & HdP & HeP & HPq & Hclose).
  unfold NFS. fold PFS in HPq, Hclose.
  destruct (snd (adsxRangeMultiplier spec_float (g_range_code g))) eqn:Hb.
  - rewrite volts_is_bipolar by assumption. rewrite HP.
    apply (bipolar_within mP eP (ADSX_BITS cfg) HdP HeP Hbits _ HPq Hclose
             code Hc).
  - rewrite volts_is_unipolar by assumption. rewrite HP.
    destruct (unipolar_within mP eP (ADSX_BITS cfg) HdP HeP Hbits _ HPq
                Hclose code Hc) as [_ H].
    setoid_replace (0 + inject_Z code
                        * ((PFS - 0) / inject_Z (2 ^ ADSX_BITS cfg)))%Q
      with (inject_Z code * (PFS / inject_Z (2 ^ ADSX_BITS cfg)))%Q.
    + exact H.
    + assert (0 < inject_Z (2 ^ ADSX_BITS cfg))%Q
        by (destruct Hbits as [-> | ->]; reflexivity).
      field. lra.
Qed.

(** ** The averaged code *)

(** [(float)c] for a positive integer below [2^24]: the integer itself,
    shifted to 24 bits. *)
Lemma of_Z_mantissa (c : Z) :
  0 < c < 2 ^ 24 ->
  exists (m : positive) (a : Z),
    B32.of_Z c = S754_finite false m (- a)
    /\ digits m = 24 /\ 0 <= a <= 23 /\ Zpos m = c * 2 ^ a.
Proof.
  intros Hc.
  destruct (of_Z_spec c Hc) as (m & e & Hof & Hd & He & _ & Hv).
  exists m, (- e). rewrite Z.opp_involutive.
  split; [exact Hof|]. split; [exact Hd|]. split; [lia|].
  rewrite to_Q_finite in Hv. cbn [signed] in Hv.
  assert (E : (inject_Z (Zpos m) == inject_Z (c * 2 ^ (- e)))%Q).
  { rewrite inject_Z_mult, <- pow2_nonneg by lia.
    rewrite <- Hv, <- Qmult_assoc, <- pow2_add.
    replace (e + - e) with 0 by lia. change (pow2 0) with 1%Q. ring. }
  apply (proj1 (inject_Z_injective _ _)) in E. exact E.
Qed.

(** The quotient of two 24-bit mantissas, the dividend shifted by 24
    bits, has 24 or 25 bits. *)
Lemma quotient_range (mx my q r : Z) :
  8388608 <= mx < 16777216 -> 8388608 <= my < 16777216 ->
  mx * 16777216 = my * q + r -> 0 <= r < my ->
  8388608 <= q < 33554432.
Proof.
  intros Hx Hy E Hr. split.
  - assert (H : 8388608 * 16777216 < 16777216 * (q + 1)) by nia. lia.
  - assert (H : 8388608 * q < 16777216 * 16777216) by nia. lia.
Qed.

(** The quotient of two normal numbers is rounded to nearest: the result
    is within half a unit of the quotient, in units of [2^(ex - ey - 24)]
    for a quotient below [2^24] units and twice that above. *)
Lemma div_half_unit (sx : bool) (mx : positive) (ex : Z)
    (sy : bool) (my : positive) (ey : Z) :
  digits mx = 24 -> digits my = 24 ->
  -125 <= ex - ey <= 126 ->
  exists (m' : positive) (e' k : Z),
    B32.div (S754_finite sx mx ex) (S754_finite sy my ey)
      = S754_finite (xorb sx sy) m' e'
    /\ (k = 0 \/ k = 1)
    /\ (k = 1 -> Zpos my <= Zpos mx)
    /\ (k = 0 -> Zpos mx < Zpos my)
    /\ (e' = ex - ey - 24 + k \/ e' = ex - ey - 24 + k + 1)
    /\ 2 * Z.abs (Zpos m' * 2 ^ (e' - (ex - ey - 24)) * Zpos my
                  - Zpos mx * 2 ^ 24)
       <= 2 ^ k * Zpos my.
Proof.
  intros Hdx Hdy He.
  unfold B32.div, SFdiv, SFdiv_core_binary, B32.prec, B32.emax.
  cbn [Zdigits2]. fold (digits mx). fold (digits my). rewrite Hdx, Hdy.
  replace (24 + ex - (24 + ey)) with (ex - ey) by lia.
  rewrite (fexp_normal (ex - ey)) by lia.
  replace (Z.min (ex - ey - 24) (ex - ey)) with (ex - ey - 24) by lia.
  replace (ex - ey - (ex - ey - 24)) with 24 by lia.
  rewrite Z.shiftl_mul_pow2 by lia.
  apply digits_24 in Hdx as Hbx, Hdy as Hby.
  set (X := Zpos mx * 2 ^ 24).
  pose proof (Z_div_mod X (Zpos my) eq_refl) as Hdm.
  destruct (Z.div_eucl X (Zpos my)) as [q r].
  destruct Hdm as [HXqr Hr].
  change (2 ^ 24) with 16777216 in X.
  assert (Hq : 8388608 <= q < 33554432)
    by (apply (quotient_range (Zpos mx) (Zpos my) q r); assumption || lia).
  destruct q as [|qp|qp]; [lia | | lia].
  assert (Hdq : 24 <= digits qp <= 25).
  { split; [apply digits_ge | apply digits_le];
      try change (2 ^ (24 - 1)) with 8388608;
      try change (2 ^ 25) with 33554432; lia. }
  destruct (binary_round_aux_spec (xorb sx sy) qp (ex - ey - 24)
              (new_location (Zpos my) r) X (Zpos my))
    as (m' & e' & Hres & He' & Herr & _ & _).
  { lia. }
  { replace X with (Zpos qp * Zpos my + r) by lia.
    apply new_location_inv; lia. }
  { lia. }
  { lia. }
  set (n := Z.max (digits qp - 24) 0) in *.
  assert (Hn : n = digits qp - 24) by lia.
  exists m', e', n.
  split; [exact Hres|]. split; [lia|].
  pose proof (digits_bounds qp) as Hb.
  split; [|split; [|split; [exact He' | exact Herr]]].
  - intros Hn1.
    assert (E : digits qp - 1 = 24) by lia. rewrite E in Hb.
    change (2 ^ 24) with 16777216 in Hb. unfold X in HXqr.
    destruct (Z.le_gt_cases (Zpos my) (Zpos mx)) as [|Hgt]; [assumption|].
    exfalso.
    assert (Zpos mx * 16777216 < Zpos my * 16777216)
      by (apply Z.mul_lt_mono_pos_r; lia).
    assert (Zpos my * 16777216 <= Zpos my * Zpos qp)
      by (apply Z.mul_le_mono_nonneg_l; lia).
    lia.
  - intros Hn0.
    assert (E : digits qp = 24) by lia. rewrite E in Hb.
    change (2 ^ 24) with 16777216 in Hb. unfold X in HXqr.
    destruct (Z.lt_ge_cases (Zpos mx) (Zpos my)) as [|Hge]; [assumption|].
    exfalso.
    assert (Zpos my * 16777216 <= Zpos mx * 16777216)
      by (apply Z.mul_le_mono_nonneg_r; lia).
    assert (Zpos my * Zpos qp + r < Zpos my * (Zpos qp + 1)) by lia.
    assert (Zpos my * (Zpos qp + 1) <= Zpos my * 16777216)
      by (apply Z.mul_le_mono_nonneg_l; lia).
    lia.
Qed.

(** Half a unit decides the integer part: the arithmetic behind
    [quotient_truncates].  [M] is the rounded quotient in units of
    [2^-g]. *)
Lemma floor_of_rounded_quotient (S n M G k : Z) :
  0 < S -> 0 < n -> n < G ->
  (k = 0 \/ k = 1) ->
  (2 ^ k | M) -> (2 ^ k | G) ->
  2 * Z.abs (M * n - S * G) <= 2 ^ k * n ->
  (S / n) * G <= M < (S / n + 1) * G.
Proof.
  intros HS Hn HG Hk HdM HdG Herr.
  pose proof (Z.div_mod S n ltac:(lia)) as Hdm.
  pose proof (Z.mod_pos_bound S n ltac:(lia)) as Hj.
  set (q := S / n) in *. set (j := S mod n) in *.
  assert (Hq : 0 <= q) by (apply Z.div_pos; lia).
  assert (Hk2 : 0 < 2 ^ k <= 2) by (destruct Hk as [-> | ->]; cbn; lia).
  destruct (Z.eq_dec j 0) as [Hj0 | Hj0].
  - assert (ES : S * G = q * G * n) by (rewrite Hdm, Hj0; ring).
    rewrite ES in Herr.
    replace (M * n - q * G * n) with ((M - q * G) * n) in Herr by ring.
    destruct HdM as [tM HtM]. destruct HdG as [tG HtG].
    assert (ED : M - q * G = (tM - q * tG) * 2 ^ k)
      by (rewrite HtM, HtG; ring).
    set (t := tM - q * tG) in *.
    rewrite ED in Herr.
    assert (Ht : t = 0).
    { destruct (Z.eq_dec t 0) as [|Hne]; [assumption|]. exfalso.
      assert (1 <= Z.abs t) by lia.
      rewrite Z.abs_mul, Z.abs_mul in Herr.
      rewrite (Z.abs_eq (2 ^ k)), (Z.abs_eq n) in Herr by lia.
      assert (2 ^ k * n <= Z.abs t * 2 ^ k * n) by nia.
      nia. }
    rewrite Ht in ED. nia.
  - assert (Hj1 : 1 <= j) by lia.
    assert (ES : S * G = q * G * n + j * G) by (rewrite Hdm; ring).
    assert (Hkn : 2 ^ k * n <= 2 * n) by nia.
    assert (Hlo : S * G - n <= M * n) by lia.
    assert (Hhi : M * n <= S * G + n) by lia.
    rewrite ES in Hlo, Hhi.
    assert (HjG : G <= j * G) by nia.
    assert (HnjG : j * G + G <= n * G) by nia.
    split.
    + assert ((q * G - 1) * n < M * n) by nia.
      assert (q * G - 1 < M) by nia. lia.
    + assert (M * n < (q + 1) * G * n) by nia.
      nia.
Qed.

(** Division of one [uint32_t] by another, both converted to [float], and
    the conversion of the quotient back: the integer quotient, as long as
    the operands are below [2^24]. *)
Lemma quotient_truncates (S n : Z) :
  0 <= S < 2 ^ 24 -> 0 < n < 2 ^ 24 ->
  B32.to_uint32 (B32.div (B32.of_Z S) (B32.of_Z n)) = S / n.
Proof.
  intros HS Hn.
  destruct (of_Z_mantissa n Hn) as (mn & b & Hofn & Hdn & Hb & Emn).
  destruct (Z.eq_dec S 0) as [-> | HS0].
  { rewrite Hofn. reflexivity. }
  destruct (of_Z_mantissa S ltac:(lia)) as (mS & a & HofS & HdS & Ha & EmS).
  rewrite HofS, Hofn.
  destruct (div_half_unit false mS (- a) false mn (- b) HdS Hdn)
    as (m' & e' & k & Hres & Hk & _ & _ & He' & Herr); [lia|].
  rewrite Hres. cbn [xorb].
  set (g := 24 + a - b).
  replace (- a - - b - 24) with (- g) in He', Herr by (unfold g; lia).
  replace (e' - - g) with (e' + g) in Herr by lia.
  assert (Hg : 1 <= g) by (unfold g; lia).
  assert (Heg : 0 <= e' + g) by (destruct Hk; lia).
  set (M := Zpos m' * 2 ^ (e' + g)) in *.
  assert (HB : 0 < 2 ^ b) by (apply Z.pow_pos_nonneg; lia).
  assert (HG : 0 < 2 ^ g) by (apply Z.pow_pos_nonneg; lia).
  assert (EG : 2 ^ 24 * 2 ^ a = 2 ^ g * 2 ^ b).
  { rewrite <- !Z.pow_add_r by lia. f_equal. unfold g. lia. }
  assert (HnG : n < 2 ^ g).
  { apply digits_24 in Hdn.
    assert (0 < 2 ^ a) by (apply Z.pow_pos_nonneg; lia).
    assert (H24 : 16777216 <= 2 ^ 24 * 2 ^ a)
      by (change (2 ^ 24) with 16777216; lia).
    assert (Hlt : n * 2 ^ b < 2 ^ g * 2 ^ b) by (rewrite <- EG, <- Emn; lia).
    apply Z.mul_lt_mono_pos_r in Hlt; assumption. }
  assert (Herr' : 2 * Z.abs (M * n - S * 2 ^ g) <= 2 ^ k * n).
  { rewrite Emn, EmS in Herr.
    replace (M * (n * 2 ^ b) - S * 2 ^ a * 2 ^ 24)
      with ((M * n - S * 2 ^ g) * 2 ^ b) in Herr
      by (replace (S * 2 ^ a * 2 ^ 24) with (S * (2 ^ 24 * 2 ^ a)) by ring;
          rewrite EG; ring).
    rewrite Z.abs_mul, (Z.abs_eq (2 ^ b)) in Herr by lia.
    rewrite !Z.mul_assoc in Herr.
    apply Z.mul_le_mono_pos_r in Herr; assumption. }
  assert (HdM : (2 ^ k | M)).
  { unfold M. exists (Zpos m' * 2 ^ (e' + g - k)).
    rewrite <- Z.mul_assoc, <- Z.pow_add_r by (destruct Hk; lia).
    do 2 f_equal. lia. }
  assert (HdG : (2 ^ k | 2 ^ g)).
  { exists (2 ^ (g - k)).
    rewrite <- Z.pow_add_r by (destruct Hk; lia). f_equal. lia. }
  pose proof (floor_of_rounded_quotient S n M (2 ^ g) k ltac:(lia)
                ltac:(lia) HnG Hk HdM HdG Herr') as [Hlo Hhi].
  assert (Hq : 0 <= S / n) by (apply Z.div_pos; lia).
  assert (Hq24 : S / n < 2 ^ 24).
  { apply Z.le_lt_trans with S; [|lia].
    apply Z.div_le_upper_bound; [lia|].
    replace S with (1 * S) at 1 by ring.
    apply Z.mul_le_mono_nonneg_r; lia. }
  unfold B32.to_uint32.
  assert (Hv : (if 0 <=? e' then Z.shiftl (Zpos m') e'
                else Z.shiftr (Zpos m') (- e')) = S / n).
  { destruct (Z.leb_spec 0 e') as [Hpos | Hneg].
    - rewrite Z.shiftl_mul_pow2 by lia.
      unfold M in Hlo, Hhi. rewrite Z.pow_add_r in Hlo, Hhi by lia.
      assert (0 < 2 ^ e') by (apply Z.pow_pos_nonneg; lia).
      set (v := Zpos m' * 2 ^ e') in *.
      replace (Zpos m' * (2 ^ e' * 2 ^ g)) with (v * 2 ^ g) in Hlo, Hhi
        by (unfold v; ring).
      apply Z.mul_le_mono_pos_r in Hlo; [|exact HG].
      apply Z.mul_lt_mono_pos_r in Hhi; [|exact HG].
      lia.
    - rewrite Z.shiftr_div_pow2 by lia.
      assert (HE : 0 < 2 ^ (e' + g)) by (apply Z.pow_pos_nonneg; lia).
      assert (HE' : 0 < 2 ^ (- e')) by (apply Z.pow_pos_nonneg; lia).
      assert (EGe : 2 ^ g = 2 ^ (- e') * 2 ^ (e' + g)).
      { rewrite <- Z.pow_add_r by lia. f_equal. lia. }
      unfold M in Hlo, Hhi. rewrite EGe in Hlo, Hhi.
      rewrite Z.mul_assoc in Hlo, Hhi.
      apply Z.mul_le_mono_pos_r in Hlo; [|exact HE].
      apply Z.mul_lt_mono_pos_r in Hhi; [|exact HE].
      pose proof Hlo as H1. pose proof Hhi as H2.
      symmetry. apply (Z.div_unique _ _ _ (Zpos m' - S / n * 2 ^ (- e')));
        [lia | ring]. }
  rewrite Hv.
  assert (Hlt : (S / n <? 2 ^ 32) = true).
  { apply Z.ltb_lt. change (2 ^ 24) with 16777216 in Hq24.
    change (2 ^ 32) with 4294967296. lia. }
  rewrite Hlt. reflexivity.
Qed.

(** ** What the averaged read returns in binary32 *)

Lemma averaging_count_pos {F : Type} (g : Globals F) :
  1 <= averaging_count g.
Proof.
  unfold averaging_count.
  destruct (Z.ltb_spec (g_num_averages g) 1); lia.
Qed.

(** When every sample is the same code, so is their integer mean. *)
Lemma sum_codes_constant {F : Type} (miso : nat -> Z) (cfg : Config F)
    (c : Z) (k clock : nat) :
  (forall i : nat, (i < k)%nat ->
     sample_code miso cfg (8 * i + clock) = c) ->
  sum_codes miso cfg k clock = Z.of_nat k * c.
Proof.
  revert clock. induction k as [|k IH]; intros clock Hc.
  - reflexivity.
  - cbn [sum_codes]. rewrite IH.
    + pose proof (Hc O ltac:(lia)) as H0.
      replace (8 * 0 + clock)%nat with clock in H0 by lia.
      rewrite H0. lia.
    + intros i Hi. rewrite <- (Hc (S i)) by lia. f_equal. lia.
Qed.

Section AveragedRead.

Variable miso : nat -> Z.
Variable cfg : Config spec_float.
Variable st : State spec_float.
Hypothesis Hbits : bits_ok (ADSX_BITS cfg).

Local Abbreviation n := (averaging_count (globals st)).
Local Abbreviation total :=
  (sum_codes miso cfg (Z.to_nat n) (spi_clock st)).

Hypothesis Hsmall : n * (2 ^ ADSX_BITS cfg - 1) < 2 ^ 24.

Lemma total_small : 0 <= total < 2 ^ 24 /\ 0 < n < 2 ^ 24.
Proof.
  pose proof (averaging_count_pos (globals st)) as Hn.
  pose proof (sum_codes_bounds miso cfg (Z.to_nat n) (spi_clock st) Hbits)
    as Hs.
  rewrite Z2Nat.id in Hs by lia.
  assert (1 <= 2 ^ ADSX_BITS cfg - 1)
    by (destruct Hbits as [-> | ->]; cbn; lia).
  split; [lia|]. nia.
Qed.

Lemma averaged_code :
  f_to_uint32 (avg_code_of miso cfg st) = total / n.
Proof.
  destruct total_small as [Ht Hn].
  unfold avg_code_of.
  destruct (accumulate_spec miso cfg (Z.to_nat n) 0 st) as (Hv & _ & _);
    [lia|].
  rewrite Hv, Z.add_0_l, Z.mod_small
    by (change (2 ^ 24) with 16777216 in Ht;
        change (2 ^ 32) with 4294967296; lia).
  apply quotient_truncates; assumption.
Qed.

End AveragedRead.

(** X17. The code the averaged read converts is the integer mean of the
    samples.  In binary32, as long as the largest possible sum of the
    samples stays below [2^24] (up to 256 samples of a 16-bit part, 64 of
    an 18-bit part), dividing the accumulated sum by the count and
    converting the quotient to [uint32_t] gives the integer quotient, so
    the read returns, before any correction, the voltage of the mean of
    the codes rounded down to a whole code. *)
Theorem averaged_read_converts_integer_mean
    (miso : nat -> Z) (cfg : Config spec_float) (st : State spec_float) :
  bits_ok (ADSX_BITS cfg) ->
  averaging_count (globals st) * (2 ^ ADSX_BITS cfg - 1) < 2 ^ 24 ->
  let n := averaging_count (globals st) in
  let total := sum_codes miso cfg (Z.to_nat n) (spi_clock st) in
  f_to_uint32 (avg_code_of miso cfg st) = total / n
  /\ volts_raw_of miso cfg st = adsxCodeToVolts cfg (globals st) (total / n)
  /\ (cal_applies cfg (globals st) = false ->
      fst (adsxReadAveragedVolts miso cfg st)
      = adsxCodeToVolts cfg (globals st) (total / n)).
Proof.
  intros Hbits Hsmall n total.
  pose proof (averaged_code miso cfg st Hbits Hsmall) as E.
  split; [exact E|].
  assert (Hraw : volts_raw_of miso cfg st
                 = adsxCodeToVolts cfg (globals st) (total / n))
    by (unfold volts_raw_of; rewrite E; reflexivity).
  split; [exact Hraw|].
  intros Hcal. rewrite read_uncalibrated by assumption. exact Hraw.
Qed.

(** X18. Averaging is idempotent on a steady input.  In binary32, under the
    same bound on the sum, when every sample taken is the code [c] the
    read returns, before any correction, exactly [adsxCodeToVolts(c)]. *)
Theorem averaged_read_of_steady_input
    (miso : nat -> Z) (cfg : Config spec_float) (st : State spec_float)
    (c : Z) :
  bits_ok (ADSX_BITS cfg) ->
  averaging_count (globals st) * (2 ^ ADSX_BITS cfg - 1) < 2 ^ 24 ->
  (forall i : nat,
     (i < Z.to_nat (averaging_count (globals st)))%nat ->
     sample_code miso cfg (8 * i + spi_clock st) = c) ->
  volts_raw_of miso cfg st = adsxCodeToVolts cfg (globals st) c
  /\ (cal_applies cfg (globals st) = false ->
      fst (adsxReadAveragedVolts miso cfg st)
      = adsxCodeToVolts cfg (globals st) c).
Proof.
  intros Hbits Hsmall Hc.
  pose proof (averaged_code miso cfg st Hbits Hsmall) as E.
  pose proof (averaging_count_pos (globals st)) as Hn.
  rewrite (sum_codes_constant miso cfg c _ _ Hc) in E.
  rewrite Z2Nat.id in E by lia.
  rewrite Z.mul_comm, Z.div_mul in E by lia.
  assert (Hraw : volts_raw_of miso cfg st
                 = adsxCodeToVolts cfg (globals st) c)
    by (unfold volts_raw_of; rewrite E; reflexivity).
  split; [exact Hraw|].
  intros Hcal. rewrite read_uncalibrated by assumption. exact Hraw.
Qed.

(** ** Mid-scale *)

(** Multiplying by a power of two is exact. *)
Lemma mul_pow2 (m : positive) (e k : Z) :
  digits m = 24 -> -126 <= e + k <= 103 ->
  B32.mul (S754_finite false 8388608 (k - 23)) (S754_finite false m e)
  = S754_finite false m (e + k).
Proof.
  intros Hd He.
  unfold B32.mul, SFmul, B32.prec, B32.emax. cbn [xorb].
  assert (Hd2 : digits (8388608 * m) = 47).
  { rewrite (digits_shift m 23 (8388608 * m)); [lia | lia |].
    rewrite Pos2Z.inj_mul. change (2 ^ 23) with 8388608. lia. }
  destruct (binary_round_aux_spec false (8388608 * m) (k - 23 + e) loc_Exact
              (Zpos (8388608 * m)) 1)
    as (m' & e' & Hres & He' & Herr & Hcan & _).
  { lia. }
  { apply shr_inv_of_loc_Exact. lia. }
  { rewrite Hd2. lia. }
  { rewrite Hd2. lia. }
  rewrite Hd2 in He', Herr, Hcan.
  specialize (Hcan ltac:(lia)).
  apply digits_24 in Hd, Hcan.
  replace (Z.max (47 - 24) 0) with 23 in * by lia.
  change (2 ^ 23) with 8388608 in Herr. rewrite !Z.mul_1_r in Herr.
  rewrite Pos2Z.inj_mul in Herr.
  rewrite Hres.
  destruct He' as [-> | ->].
  - replace (k - 23 + e + 23 - (k - 23 + e)) with 23 in Herr by lia.
    change (2 ^ 23) with 8388608 in Herr.
    assert (m' = m) by lia. subst m'. f_equal. lia.
  - exfalso.
    replace (k - 23 + e + 23 + 1 - (k - 23 + e)) with 24 in Herr by lia.
    change (2 ^ 24) with 16777216 in Herr. lia.
Qed.

Lemma add_opposite (m : positive) (e : Z) :
  B32.add (S754_finite true m e) (S754_finite false m e) = S754_zero false.
Proof.
  unfold B32.add, SFadd. rewrite Z.min_id.
  destruct (shl_align_spec m e e) as [Hm _].
  replace (Z.max (e - e) 0) with 0 in Hm by lia.
  change (2 ^ 0) with 1 in Hm. rewrite Z.mul_1_r in Hm.
  cbn [cond_Zopp]. rewrite Hm.
  replace (- Zpos m + Zpos m) with 0 by lia. reflexivity.
Qed.

(** X19. In binary32, for a bipolar range and a reference voltage that is a
    normal number between 2^-76 and 2^121, the mid-scale code [2^(N-1)]
    converts to exactly 0 V: the arithmetic adds no offset of its own. *)
Theorem bipolar_mid_scale_is_zero
    (cfg : Config spec_float) (g : Globals spec_float)
    (m : positive) (e : Z) :
  bits_ok (ADSX_BITS cfg) ->
  snd (adsxRangeMultiplier spec_float (g_range_code g)) = true ->
  g_vref_volts g = S754_finite false m e ->
  2 ^ 23 <= Zpos m < 2 ^ 24 ->
  -99 <= e <= 97 ->
  adsxCodeToVolts cfg g (2 ^ (ADSX_BITS cfg - 1)) = S754_zero false.
Proof.
  intros Hbits Hb Hv Hm He.
  destruct (full_scale_normal g m e Hv Hm He)
    as (mP & eP & HP & HdP & HeP & _ & _).
  rewrite volts_is_bipolar; [|assumption|assumption|].
  - rewrite HP. unfold bipolar_volts.
    rewrite (bipolar_LSB_eq mP eP (ADSX_BITS cfg) HdP HeP Hbits).
    assert (E : B32.of_Z (2 ^ (ADSX_BITS cfg - 1))
                = S754_finite false 8388608 (ADSX_BITS cfg - 1 - 23))
      by (destruct Hbits as [-> | ->]; reflexivity).
    rewrite E, mul_pow2 by (assumption || destruct Hbits; lia).
    replace (eP + 1 - ADSX_BITS cfg + (ADSX_BITS cfg - 1)) with eP by lia.
    apply add_opposite.
  - destruct Hbits as [-> | ->]; cbn; lia.
Qed.

(** ** Time spent waiting *)

Section Waiting.

Context {F : Type} {FA : FloatArith F}.
Variable miso : nat -> Z.
Variable cfg : Config F.

Lemma waited_us_app (new old : list (Event F)) :
  waited_us (new ++ old) = waited_us new + waited_us old.
Proof.
  induction new as [|e new IH]; cbn [app waited_us]; [lia|].
  destruct e; lia.
Qed.

Lemma waited_accumulate (k : nat) (acc : Z) (st : State F) :
  waited_us (trace (snd (accumulate miso cfg k acc st)))
  = 1012 * Z.of_nat k + waited_us (trace st).
Proof.
  revert acc st. induction k as [|k IH]; intros acc st.
  - cbn [accumulate ret snd]. lia.
  - rewrite accumulate_step, IH.
    change (trace (snd (delay 1 (snd (adsxReadCodeNbits miso cfg st)))))
      with (EvDelay 1 :: trace (snd (adsxReadCodeNbits miso cfg st))).
    rewrite trace_adsxReadCodeNbits.
    cbn [waited_us]. rewrite waited_us_app.
    change (waited_us (adsxReadCodeNbits_events miso cfg (spi_clock st)))
      with 12.
    lia.
Qed.

Lemma waited_loop (st : State F) :
  waited_us (trace (snd (loop miso cfg st)))
  = 2000000 + 1012 * Z.max 1 (g_num_averages (globals st))
    + waited_us (trace st).
Proof.
  unfold loop. run_binds.
  change (trace (snd (delay 2000 ?s))) with (EvDelay 2000 :: trace s).
  rewrite !trace_emit, adsxReadAveragedVolts_eq. cbn [snd fst waited_us].
  rewrite waited_accumulate.
  pose proof (averaging_count_pos (globals st)).
  rewrite Z2Nat.id by lia.
  unfold averaging_count.
  destruct (Z.ltb_spec (g_num_averages (globals st)) 1); lia.
Qed.

Lemma waited_loops (k : nat) (st : State F) :
  waited_us (trace (snd (loops miso cfg k st)))
  = Z.of_nat k * (2000000 + 1012 * Z.max 1 (g_num_averages (globals st)))
    + waited_us (trace st).
Proof.
  revert st. induction k as [|k IH]; intros st.
  - cbn [loops ret snd]. lia.
  - rewrite loops_step, IH, waited_loop, globals_loop. lia.
Qed.

Lemma waited_setup_events (g : Globals F) (clock : nat) :
  waited_us (setup_events miso cfg g clock)
  = 2020024 + (if PIN_RST cfg >=? 0 then 1000 else 0).
Proof.
  unfold setup_events. rewrite !waited_us_app.
  change (waited_us (adsxSetRange_events miso cfg (g_range_code g) true
                       clock)) with 24.
  destruct (PIN_RST cfg >=? 0), (ADSX_ENABLE_TWO_POINT_CAL cfg);
    [destruct (f_ne (ADSX_CAL_P2_MEASURED cfg) (ADSX_CAL_P1_MEASURED cfg));
     [destruct (negb (Z.land (g_range_code g) 0xF
                      =? ADSX_CAL_RANGE_CODE cfg))|]| |
     destruct (f_ne (ADSX_CAL_P2_MEASURED cfg) (ADSX_CAL_P1_MEASURED cfg));
     [destruct (negb (Z.land (g_range_code g) 0xF
                      =? ADSX_CAL_RANGE_CODE cfg))|]|];
    reflexivity.
Qed.

End Waiting.

(** X20. How long the sketch waits.  [setup()] spends 2.020024 s in
    [delay()] and [delayMicroseconds()], and 1 ms more when it pulses a
    reset pin; every pass of [loop()] spends 2 s, and 1 ms and 12 us for
    each sample it averages. *)
Theorem run_waits {F : Type} {FA : FloatArith F} (miso : nat -> Z)
    (cfg : Config F) (k : nat) :
  waited_us (trace (run miso cfg k))
  = 2020024 + (if PIN_RST cfg >=? 0 then 1000 else 0)
    + Z.of_nat k * (2000000 + 1012 * Z.max 1 (init_num_averages cfg)).
Proof.
  rewrite run_eq, waited_loops, trace_setup, waited_us_app,
    waited_setup_events, setup_globals.
  assert (E : g_num_averages
                (globals_after_setup cfg (globals (initial_state cfg)))
              = init_num_averages cfg).
  { unfold globals_after_setup.
    destruct (f_gt (f_dec 4096 3) (f_dec 0 1)), (fit_succeeds cfg);
      reflexivity. }
  rewrite E. cbn [initial_state trace waited_us]. lia.
Qed.

(** ** The further properties at concrete inputs *)

Lemma writeRegHWord_frame_witness :
  0 <= 0x0001 < 2 ^ 16
  /\ mosi_bytes (trace (snd (writeRegHWord Examples.dev_C0
                               Examples.cfg_shipped ADSX_REG_RANGE_SEL
                               0x0001 Examples.st_power_up)))
     = mosi_bytes (trace Examples.st_power_up)
       ++ [0xD0; ADSX_REG_RANGE_SEL; 0x0001 / 256; 0x0001 mod 256].
Proof.
  assert (Hd : 0 <= 0x0001 < 2 ^ 16) by (cbn; lia).
  split; [exact Hd|].
  exact (proj1 (writeRegHWord_frame Examples.dev_C0 Examples.cfg_shipped
                  ADSX_REG_RANGE_SEL 0x0001 Examples.st_power_up Hd)).
Defined.

Lemma adsxRangeMultiplier_selectors_witness :
  Z.land 0x2 0xF <= 3
  /\ fst (adsxRangeMultiplier spec_float (Z.land 0x2 0xF + 8))
     = fst (adsxRangeMultiplier spec_float 0x2).
Proof.
  assert (Hc : Z.land 0x2 0xF <= 3) by (cbn; lia).
  split; [exact Hc|].
  exact (proj1 (proj2 (proj2 (adsxRangeMultiplier_selectors
                                (F:=spec_float) 0x2))) Hc).
Defined.

Lemma adsxReadCodeNbits_bytes_witness :
  ADSX_BITS Examples.cfg_shipped = 16
  /\ fst (adsxReadCodeNbits Examples.dev_C0 Examples.cfg_shipped
            Examples.st_power_up)
     = 256 * (Examples.dev_C0 (4 + 0 + spi_clock Examples.st_power_up)%nat
              mod 256)
       + Examples.dev_C0 (4 + 1 + spi_clock Examples.st_power_up)%nat
         mod 256.
Proof.
  assert (Hb : ADSX_BITS Examples.cfg_shipped = 16) by reflexivity.
  split; [exact Hb|].
  exact (proj1 (adsxReadCodeNbits_bytes Examples.dev_C0 Examples.cfg_shipped
                  Examples.st_power_up) Hb).
Defined.

Lemma accumulator_does_not_wrap_witness :
  bits_ok (ADSX_BITS Examples.cfg_shipped)
  /\ g_num_averages (globals Examples.st_power_up) <= 65535
  /\ (ADSX_BITS Examples.cfg_shipped = 18 ->
      g_num_averages (globals Examples.st_power_up) <= 16384)
  /\ fst (accumulate Examples.dev_C0 Examples.cfg_shipped
            (Z.to_nat (averaging_count (globals Examples.st_power_up))) 0
            Examples.st_power_up)
     = sum_codes Examples.dev_C0 Examples.cfg_shipped
         (Z.to_nat (averaging_count (globals Examples.st_power_up)))
         (spi_clock Examples.st_power_up).
Proof.
  assert (Hb : bits_ok (ADSX_BITS Examples.cfg_shipped))
    by (left; reflexivity).
  assert (H16 : g_num_averages (globals Examples.st_power_up) <= 65535)
    by (cbn; lia).
  assert (H18 : ADSX_BITS Examples.cfg_shipped = 18 ->
                g_num_averages (globals Examples.st_power_up) <= 16384)
    by (intros _; cbn; lia).
  split; [exact Hb|]. split; [exact H16|]. split; [exact H18|].
  exact (proj1 (accumulator_does_not_wrap Examples.dev_C0
                  Examples.cfg_shipped Examples.st_power_up Hb H16 H18)).
Defined.

Lemma calibrated_read_interpolates_witness :
  ADSX_ENABLE_TWO_POINT_CAL Examples.cfg_cal_exact = true
  /\ f_ne (ADSX_CAL_P2_MEASURED Examples.cfg_cal_exact)
          (ADSX_CAL_P1_MEASURED Examples.cfg_cal_exact) = true
  /\ Z.land (g_range_code (globals (initial_state Examples.cfg_cal_exact)))
            0xF
     = ADSX_CAL_RANGE_CODE Examples.cfg_cal_exact
  /\ (fst (adsxReadAveragedVolts Examples.dev_C0 Examples.cfg_cal_exact
             (snd (setup Examples.dev_C0 Examples.cfg_cal_exact
                     (initial_state Examples.cfg_cal_exact))))
      = ADSX_CAL_P1_ACTUAL Examples.cfg_cal_exact
        + (ADSX_CAL_P2_ACTUAL Examples.cfg_cal_exact
           - ADSX_CAL_P1_ACTUAL Examples.cfg_cal_exact)
          * (volts_raw_of Examples.dev_C0 Examples.cfg_cal_exact
               (snd (setup Examples.dev_C0 Examples.cfg_cal_exact
                       (initial_state Examples.cfg_cal_exact)))
             - ADSX_CAL_P1_MEASURED Examples.cfg_cal_exact)
          / (ADSX_CAL_P2_MEASURED Examples.cfg_cal_exact
             - ADSX_CAL_P1_MEASURED Examples.cfg_cal_exact))%Qc.
Proof.
  assert (Hf : ADSX_ENABLE_TWO_POINT_CAL Examples.cfg_cal_exact = true)
    by reflexivity.
  assert (Hn : f_ne (ADSX_CAL_P2_MEASURED Examples.cfg_cal_exact)
                    (ADSX_CAL_P1_MEASURED Examples.cfg_cal_exact) = true)
    by (vm_compute; reflexivity).
  assert (Hr : Z.land (g_range_code
                         (globals (initial_state Examples.cfg_cal_exact)))
                      0xF
               = ADSX_CAL_RANGE_CODE Examples.cfg_cal_exact)
    by reflexivity.
  split; [exact Hf|]. split; [exact Hn|]. split; [exact Hr|].
  exact (calibrated_read_interpolates Examples.dev_C0 Examples.cfg_cal_exact
           (initial_state Examples.cfg_cal_exact) Hf Hn Hr).
Defined.

Lemma run_bus_discipline_witness :
  PIN_RST Examples.cfg_shipped <> PIN_CS Examples.cfg_shipped
  /\ bus_after (PIN_CS Examples.cfg_shipped)
       (trace (run Examples.dev_C0 Examples.cfg_shipped 3))
     = Some (bus_at true).
Proof.
  assert (Hp : PIN_RST Examples.cfg_shipped <> PIN_CS Examples.cfg_shipped)
    by (cbn; lia).
  split; [exact Hp|].
  exact (run_bus_discipline Examples.dev_C0 Examples.cfg_shipped 3 Hp).
Defined.

Lemma unipolar_zero_and_monotone_witness :
  bits_ok (ADSX_BITS Examples.cfg_shipped)
  /\ snd (adsxRangeMultiplier spec_float
            (g_range_code Examples.g_unipolar)) = false
  /\ g_vref_volts Examples.g_unipolar = S754_finite false 8589935 (-21)
  /\ 2 ^ 23 <= 8589935 < 2 ^ 24
  /\ -99 <= -21 <= 97
  /\ adsxCodeToVolts Examples.cfg_shipped Examples.g_unipolar 0
     = S754_zero false.
Proof.
  assert (Hb : bits_ok (ADSX_BITS Examples.cfg_shipped))
    by (left; reflexivity).
  assert (Hp : snd (adsxRangeMultiplier spec_float
                      (g_range_code Examples.g_unipolar)) = false)
    by reflexivity.
  assert (Hv : g_vref_volts Examples.g_unipolar
               = S754_finite false 8589935 (-21)) by reflexivity.
  assert (Hm : 2 ^ 23 <= 8589935 < 2 ^ 24) by (cbn; lia).
  assert (He : -99 <= -21 <= 97) by lia.
  split; [exact Hb|]. split; [exact Hp|]. split; [exact Hv|].
  split; [exact Hm|]. split; [exact He|].
  exact (proj1 (unipolar_zero_and_monotone Examples.cfg_shipped
                  Examples.g_unipolar 8589935 (-21) Hb Hp Hv Hm He)).
Defined.

Lemma adsxCodeToVolts_within_full_scale_witness :
  bits_ok (ADSX_BITS Examples.cfg_shipped)
  /\ g_vref_volts Examples.g_shipped = S754_finite false 8589935 (-21)
  /\ 2 ^ 23 <= 8589935 < 2 ^ 24
  /\ -99 <= -21 <= 97
  /\ 0 <= 70000
  /\ (B32.to_Q (adsxCodeToVolts Examples.cfg_shipped Examples.g_shipped
                  70000)
      < B32.to_Q (f_mul (fst (adsxRangeMultiplier spec_float
                                (g_range_code Examples.g_shipped)))
                        (g_vref_volts Examples.g_shipped)))%Q.
Proof.
  assert (Hb : bits_ok (ADSX_BITS Examples.cfg_shipped))
    by (left; reflexivity).
  assert (Hv : g_vref_volts Examples.g_shipped
               = S754_finite false 8589935 (-21)) by reflexivity.
  assert (Hm : 2 ^ 23 <= 8589935 < 2 ^ 24) by (cbn; lia).
  assert (He : -99 <= -21 <= 97) by lia.
  assert (Hc : 0 <= 70000) by lia.
  split; [exact Hb|]. split; [exact Hv|]. split; [exact Hm|].
  split; [exact He|]. split; [exact Hc|].
  exact (proj2 (adsxCodeToVolts_within_full_scale Examples.cfg_shipped
                  Examples.g_shipped 8589935 (-21) 70000 Hb Hv Hm He Hc)).
Defined.

Lemma adsxCodeToVolts_accuracy_witness :
  bits_ok (ADSX_BITS Examples.cfg_shipped)
  /\ g_vref_volts Examples.g_unipolar = S754_finite false 8589935 (-21)
  /\ 2 ^ 23 <= 8589935 < 2 ^ 24
  /\ -99 <= -21 <= 97
  /\ 0 <= 40000 <= 2 ^ ADSX_BITS Examples.cfg_shipped - 1
  /\ let PFS := (B32.to_Q (fst (adsxRangeMultiplier spec_float
                                  (g_range_code Examples.g_unipolar)))
                 * B32.to_Q (g_vref_volts Examples.g_unipolar))%Q in
     let NFS := if snd (adsxRangeMultiplier spec_float
                          (g_range_code Examples.g_unipolar))
                then (- PFS)%Q else 0%Q in
     (Qabs (B32.to_Q (adsxCodeToVolts Examples.cfg_shipped
                        Examples.g_unipolar 40000)
            - (NFS + inject_Z 40000
                     * ((PFS - NFS)
                        / inject_Z (2 ^ ADSX_BITS Examples.cfg_shipped))))
      <= (5 # 16777216) * PFS)%Q.
Proof.
  assert (Hb : bits_ok (ADSX_BITS Examples.cfg_shipped))
    by (left; reflexivity).
  assert (Hv : g_vref_volts Examples.g_unipolar
               = S754_finite false 8589935 (-21)) by reflexivity.
  assert (Hm : 2 ^ 23 <= 8589935 < 2 ^ 24) by (cbn; lia).
  assert (He : -99 <= -21 <= 97) by lia.
  assert (Hc : 0 <= 40000 <= 2 ^ ADSX_BITS Examples.cfg_shipped - 1)
    by (cbn; lia).
  split; [exact Hb|]. split; [exact Hv|]. split; [exact Hm|].
  split; [exact He|]. split; [exact Hc|].
  exact (adsxCodeToVolts_accuracy Examples.cfg_shipped Examples.g_unipolar
           8589935 (-21) 40000 Hb Hv Hm He Hc).
Defined.

Lemma averaged_read_converts_integer_mean_witness :
  bits_ok (ADSX_BITS Examples.cfg_shipped)
  /\ averaging_count (globals Examples.st_two_averages)
     * (2 ^ ADSX_BITS Examples.cfg_shipped - 1) < 2 ^ 24
  /\ f_to_uint32 (avg_code_of Examples.dev_two_codes Examples.cfg_shipped
                    Examples.st_two_averages)
     = sum_codes Examples.dev_two_codes Examples.cfg_shipped
         (Z.to_nat (averaging_count (globals Examples.st_two_averages)))
         (spi_clock Examples.st_two_averages)
       / averaging_count (globals Examples.st_two_averages).
Proof.
  assert (Hb : bits_ok (ADSX_BITS Examples.cfg_shipped))
    by (left; reflexivity).
  assert (Hs : averaging_count (globals Examples.st_two_averages)
               * (2 ^ ADSX_BITS Examples.cfg_shipped - 1) < 2 ^ 24)
    by (vm_compute; reflexivity).
  split; [exact Hb|]. split; [exact Hs|].
  exact (proj1 (averaged_read_converts_integer_mean Examples.dev_two_codes
                  Examples.cfg_shipped Examples.st_two_averages Hb Hs)).
Defined.

Lemma averaged_read_of_steady_input_witness :
  bits_ok (ADSX_BITS Examples.cfg_shipped)
  /\ averaging_count (globals Examples.st_power_up)
     * (2 ^ ADSX_BITS Examples.cfg_shipped - 1) < 2 ^ 24
  /\ (forall i : nat,
        (i < Z.to_nat (averaging_count (globals Examples.st_power_up)))%nat ->
        sample_code Examples.dev_C0 Examples.cfg_shipped
          (8 * i + spi_clock Examples.st_power_up) = 0xC0C0)
  /\ volts_raw_of Examples.dev_C0 Examples.cfg_shipped Examples.st_power_up
     = adsxCodeToVolts Examples.cfg_shipped (globals Examples.st_power_up)
         0xC0C0.
Proof.
  assert (Hb : bits_ok (ADSX_BITS Examples.cfg_shipped))
    by (left; reflexivity).
  assert (Hs : averaging_count (globals Examples.st_power_up)
               * (2 ^ ADSX_BITS Examples.cfg_shipped - 1) < 2 ^ 24)
    by (vm_compute; reflexivity).
  assert (Hc : forall i : nat,
             (i < Z.to_nat (averaging_count (globals Examples.st_power_up)))%nat ->
             sample_code Examples.dev_C0 Examples.cfg_shipped
               (8 * i + spi_clock Examples.st_power_up) = 0xC0C0)
    by (intros i _; reflexivity).
  split; [exact Hb|]. split; [exact Hs|]. split; [exact Hc|].
  exact (proj1 (averaged_read_of_steady_input Examples.dev_C0
                  Examples.cfg_shipped Examples.st_power_up 0xC0C0
                  Hb Hs Hc)).
Defined.

Lemma bipolar_mid_scale_is_zero_witness :
  bits_ok (ADSX_BITS Examples.cfg_shipped)
  /\ snd (adsxRangeMultiplier spec_float
            (g_range_code Examples.g_shipped)) = true
  /\ g_vref_volts Examples.g_shipped = S754_finite false 8589935 (-21)
  /\ 2 ^ 23 <= 8589935 < 2 ^ 24
  /\ -99 <= -21 <= 97
  /\ adsxCodeToVolts Examples.cfg_shipped Examples.g_shipped
       (2 ^ (ADSX_BITS Examples.cfg_shipped - 1))
     = S754_zero false.
Proof.
  assert (Hb : bits_ok (ADSX_BITS Examples.cfg_shipped))
    by (left; reflexivity).
  assert (Hp : snd (adsxRangeMultiplier spec_float
                      (g_range_code Examples.g_shipped)) = true)
    by reflexivity.
  assert (Hv : g_vref_volts Examples.g_shipped
               = S754_finite false 8589935 (-21)) by reflexivity.
  assert (Hm : 2 ^ 23 <= 8589935 < 2 ^ 24) by (cbn; lia).
  assert (He : -99 <= -21 <= 97) by lia.
  split; [exact Hb|]. split; [exact Hp|]. split; [exact Hv|].
  split; [exact Hm|]. split; [exact He|].
  exact (bipolar_mid_scale_is_zero Examples.cfg_shipped Examples.g_shipped
           8589935 (-21) Hb Hp Hv Hm He).
Defined.
